(** * Secure Whisper: a shallow embedding of the chat backend and its client
      chat-id derivation, with the properties of the encrypted message
      pipeline.

    The repository ships two variants of the server: [server/index.js]
    backed by Postgres (module [Pg] below) and a MongoDB-backed one (module
    [Mongo]).  Both share the message codec (AES-256-GCM through Node's
    [crypto]), the configuration block and the WebSocket fan-out hub.  The
    React client derives chat ids with [makeChatId].  Registration, the
    [auth] middleware, the friend lists and the client's message view are
    the modules [Accounts], [Auth], [FriendList] and [ChatPage].

    JavaScript strings are sequences of UTF-16 code units, [list N]; buffers
    are [list byte].  Platform functions the code calls ([String.padEnd],
    [slice], UTF-8 and base64 conversions of [Buffer], AES-256-GCM) are
    modelled after their specifications (ECMA-262, WHATWG Encoding, RFC 4648,
    FIPS 197, NIST SP 800-38D); the handlers are transcribed from the
    sources. *)

From Stdlib Require Import NArith ZArith List Bool Lia.
From Stdlib Require Import Strings.String Strings.Ascii Strings.Byte Init.Decimal DecimalN.
From Stdlib Require Import Sorting.Sorted Sorting.Permutation.
From stdpp Require Import gmap list.
Import ListNotations.

Local Open Scope N_scope.

(** [lia] also decides goals with division and remainder by constants. *)
Ltac Zify.zify_post_hook ::= Z.to_euclidean_division_equations.

(* ===================================================================== *)
(** * JavaScript strings and slices                                       *)
(* ===================================================================== *)

Module Js.

(** A JS string: its UTF-16 code units. *)
Definition jsstring := list N.

(** An ASCII literal of the source as a JS string. *)
Fixpoint js (s : string) : jsstring :=
  match s with
  | EmptyString => []
  | String a s' => N_of_ascii a :: js s'
  end.

(** ToBoolean on strings: the empty string is the only falsy one. *)
Definition truthy (s : jsstring) : bool :=
  match s with [] => false | _ :: _ => true end.

(** [a || b] where [a] may be [undefined] (an absent property). *)
Definition or_else (a : option jsstring) (b : jsstring) : jsstring :=
  match a with
  | Some s => if truthy s then s else b
  | None => b
  end.

(** [a || b] on two possibly absent strings. *)
Definition or_opt (a b : option jsstring) : option jsstring :=
  match a with
  | Some s => if truthy s then Some s else b
  | None => b
  end.

(** [!x] for a possibly absent string. *)
Definition falsy (a : option jsstring) : bool :=
  match a with
  | Some s => negb (truthy s)
  | None => true
  end.

(** [a < b] on strings: lexicographic on code units, a proper prefix is
    smaller (ECMA-262, IsLessThan). *)
Fixpoint str_lt (a b : jsstring) : bool :=
  match a, b with
  | [], [] => false
  | [], _ :: _ => true
  | _ :: _, [] => false
  | x :: a', y :: b' =>
      if x <? y then true
      else if y <? x then false
      else str_lt a' b'
  end.

(** [a === b] on strings. *)
Definition str_eqb (a b : jsstring) : bool := bool_decide (a = b).

(** [s.padEnd(n)]: pad with U+0020 up to [n] code units. *)
Definition padEnd (s : jsstring) (n : nat) : jsstring :=
  s ++ repeat 32 (n - length s)%nat.

(** [x.slice(start, end)] of strings and buffers: negative indices count
    from the end, out-of-range ones are clamped. *)
Definition slice {A} (l : list A) (start end_ : Z) : list A :=
  let len := Z.of_nat (length l) in
  let from := if (start <? 0)%Z then Z.max (len + start) 0 else Z.min start len in
  let to := if (end_ <? 0)%Z then Z.max (len + end_) 0 else Z.min end_ len in
  firstn (Z.to_nat (to - from)) (skipn (Z.to_nat from) l).

(** [x.slice(start)]. *)
Definition slice_from {A} (l : list A) (start : Z) : list A :=
  slice l start (Z.of_nat (length l)).

(** Decimal digits of an unsigned numeral, as code units. *)
Fixpoint digits (d : uint) : jsstring :=
  match d with
  | Nil => []
  | D0 d' => 48 :: digits d'
  | D1 d' => 49 :: digits d'
  | D2 d' => 50 :: digits d'
  | D3 d' => 51 :: digits d'
  | D4 d' => 52 :: digits d'
  | D5 d' => 53 :: digits d'
  | D6 d' => 54 :: digits d'
  | D7 d' => 55 :: digits d'
  | D8 d' => 56 :: digits d'
  | D9 d' => 57 :: digits d'
  end.

(** [String(n)] for an integral number [n] (database ids are integers). *)
Definition String_N (n : N) : jsstring := digits (N.to_uint n).

Definition String_Z (z : Z) : jsstring :=
  match z with
  | Z0 => [48]
  | Zpos p => String_N (Npos p)
  | Zneg p => 45 :: String_N (Npos p)
  end.

End Js.
Import Js.

(* ===================================================================== *)
(** * Bytes                                                               *)
(* ===================================================================== *)

Module Bytes.

Definition b2n (b : byte) : N := Byte.to_N b.

(** The byte of a number, modulo 256. *)
Definition n2b (n : N) : byte :=
  match Byte.of_N (n mod 256) with
  | Some b => b
  | None => Byte.x00
  end.

Definition bxor (a b : byte) : byte := n2b (N.lxor (b2n a) (b2n b)).

(** XOR of two buffers, cut at the shorter one. *)
Fixpoint xor_bytes (a b : list byte) : list byte :=
  match a, b with
  | x :: a', y :: b' => bxor x y :: xor_bytes a' b'
  | _, _ => []
  end.

Definition byte_eqb (a b : byte) : bool := (b2n a =? b2n b).

Fixpoint bytes_eqb (a b : list byte) : bool :=
  match a, b with
  | [], [] => true
  | x :: a', y :: b' => byte_eqb x y && bytes_eqb a' b'
  | _, _ => false
  end.

End Bytes.
Import Bytes.

(* ===================================================================== *)
(** * UTF-8: [Buffer.from(s, 'utf8')] and [buf.toString('utf8')]          *)
(* ===================================================================== *)

Module Utf8.

Definition is_high (c : N) : bool := (0xD800 <=? c) && (c <=? 0xDBFF).
Definition is_low (c : N) : bool := (0xDC00 <=? c) && (c <=? 0xDFFF).

(** U+FFFD, what an unpaired surrogate is replaced by. *)
Definition replacement : list byte := [n2b 0xEF; n2b 0xBF; n2b 0xBD].

Definition enc1 (c : N) : list byte := [n2b c].
Definition enc2 (c : N) : list byte :=
  [n2b (0xC0 + c / 64); n2b (0x80 + c mod 64)].
Definition enc3 (c : N) : list byte :=
  [n2b (0xE0 + c / 4096); n2b (0x80 + (c / 64) mod 64); n2b (0x80 + c mod 64)].
Definition enc4 (cp : N) : list byte :=
  [n2b (0xF0 + cp / 262144); n2b (0x80 + (cp / 4096) mod 64);
   n2b (0x80 + (cp / 64) mod 64); n2b (0x80 + cp mod 64)].

(** The code point of a surrogate pair. *)
Definition pair_cp (hi lo : N) : N :=
  0x10000 + (hi - 0xD800) * 1024 + (lo - 0xDC00).

(** Encoding of a JS string: surrogate pairs become one 4-byte sequence,
    unpaired surrogates become U+FFFD. *)
Fixpoint encode (s : jsstring) : list byte :=
  match s with
  | [] => []
  | c :: rest =>
      if c <? 0x80 then enc1 c ++ encode rest
      else if c <? 0x800 then enc2 c ++ encode rest
      else if is_high c then
        match rest with
        | d :: rest' =>
            if is_low d then enc4 (pair_cp c d) ++ encode rest'
            else replacement ++ encode rest
        | [] => replacement
        end
      else if is_low c then replacement ++ encode rest
      else enc3 c ++ encode rest
  end.

(** A string [isWellFormed()]: code units are 16-bit and every surrogate
    is half of a pair. *)
Fixpoint well_formed (s : jsstring) : bool :=
  match s with
  | [] => true
  | c :: rest =>
      if is_high c then
        match rest with
        | d :: rest' => is_low d && well_formed rest'
        | [] => false
        end
      else (c <? 0x10000) && negb (is_low c) && well_formed rest
  end.

(** Decoder state (WHATWG Encoding, UTF-8 decoder): idle, or inside a
    sequence with [remaining] continuation bytes to come, the code point
    so far and the bounds the next byte must respect. *)
Inductive dstate :=
| Idle
| Need (remaining : nat) (cp lower upper : N).

(** The code units of a decoded code point. *)
Definition units (cp : N) : jsstring :=
  if cp <? 0x10000 then [cp]
  else [0xD800 + (cp - 0x10000) / 1024; 0xDC00 + (cp - 0x10000) mod 1024].

(** A byte met in the idle state. *)
Definition lead (b : N) : jsstring * dstate :=
  if b <=? 0x7F then ([b], Idle)
  else if (0xC2 <=? b) && (b <=? 0xDF) then ([], Need 1 (b - 0xC0) 0x80 0xBF)
  else if (0xE0 <=? b) && (b <=? 0xEF) then
    ([], Need 2 (b - 0xE0) (if b =? 0xE0 then 0xA0 else 0x80)
                           (if b =? 0xED then 0x9F else 0xBF))
  else if (0xF0 <=? b) && (b <=? 0xF4) then
    ([], Need 3 (b - 0xF0) (if b =? 0xF0 then 0x90 else 0x80)
                           (if b =? 0xF4 then 0x8F else 0xBF))
  else ([0xFFFD], Idle).

(** One byte: a byte that cannot continue the sequence ends it with
    U+FFFD and is read again as a lead byte. *)
Definition step (s : dstate) (b : N) : jsstring * dstate :=
  match s with
  | Idle => lead b
  | Need n cp lo hi =>
      if (lo <=? b) && (b <=? hi) then
        let cp' := cp * 64 + (b - 0x80) in
        match n with
        | S (S n') => ([], Need (S n') cp' 0x80 0xBF)
        | _ => (units cp', Idle)
        end
      else
        let '(out, s') := lead b in (0xFFFD :: out, s')
  end.

Fixpoint decode_from (s : dstate) (bs : list byte) : jsstring :=
  match bs with
  | [] => match s with Idle => [] | Need _ _ _ _ => [0xFFFD] end
  | b :: rest =>
      let '(out, s') := step s (b2n b) in out ++ decode_from s' rest
  end.

Definition decode (bs : list byte) : jsstring := decode_from Idle bs.

End Utf8.

(* ===================================================================== *)
(** * Base64: [buf.toString('base64')] and [Buffer.from(s, 'base64')]     *)
(* ===================================================================== *)

Module Base64.

(** The character of a 6-bit value (RFC 4648, table 1). *)
Definition char_of (v : N) : N :=
  if v <? 26 then 65 + v
  else if v <? 52 then 97 + (v - 26)
  else if v <? 62 then 48 + (v - 52)
  else if v =? 62 then 43
  else 47.

Definition pad : N := 61.

Fixpoint encode (bs : list byte) : jsstring :=
  match bs with
  | [] => []
  | [a] =>
      let x := b2n a in
      [char_of (x / 4); char_of ((x mod 4) * 16); pad; pad]
  | [a; b] =>
      let x := b2n a in let y := b2n b in
      [char_of (x / 4); char_of ((x mod 4) * 16 + y / 16);
       char_of ((y mod 16) * 4); pad]
  | a :: b :: c :: rest =>
      let x := b2n a in let y := b2n b in let z := b2n c in
      [char_of (x / 4); char_of ((x mod 4) * 16 + y / 16);
       char_of ((y mod 16) * 4 + z / 64); char_of (z mod 64)] ++ encode rest
  end.

(** The value of a character; Node also reads the URL-safe [-] and [_]. *)
Definition value_of (c : N) : option N :=
  if (65 <=? c) && (c <=? 90) then Some (c - 65)
  else if (97 <=? c) && (c <=? 122) then Some (c - 97 + 26)
  else if (48 <=? c) && (c <=? 57) then Some (c - 48 + 52)
  else if (c =? 43) || (c =? 45) then Some 62
  else if (c =? 47) || (c =? 95) then Some 63
  else None.

(** Node's decoder never throws: it reads every code unit by its low
    byte, skips what is then outside the alphabet, and the first [=] ends
    the input. *)
Definition low_byte (c : N) : N := c mod 256.

Fixpoint sextets (s : jsstring) : list N :=
  match s with
  | [] => []
  | c :: rest =>
      if c =? pad then []
      else match value_of c with
           | Some v => v :: sextets rest
           | None => sextets rest
           end
  end.

Fixpoint unpack (vs : list N) : list byte :=
  match vs with
  | a :: b :: c :: d :: rest =>
      [n2b (a * 4 + b / 16); n2b ((b mod 16) * 16 + c / 4); n2b ((c mod 4) * 64 + d)]
        ++ unpack rest
  | [a; b; c] => [n2b (a * 4 + b / 16); n2b ((b mod 16) * 16 + c / 4)]
  | [a; b] => [n2b (a * 4 + b / 16)]
  | _ => []
  end.

Definition decode (s : jsstring) : list byte := unpack (sextets (map low_byte s)).

End Base64.

(* ===================================================================== *)
(** * Chat identity derivation (client, ChatPage)                         *)
(* ===================================================================== *)

Module Chat.

(** The argument type [string | number]; numbers are integral ids, below
    the 10^21 from which [String] writes an exponent. *)
Inductive id :=
| IdStr (s : jsstring)
| IdNum (n : Z).

(** [String(a)]. *)
Definition String_ (a : id) : jsstring :=
  match a with
  | IdStr s => s
  | IdNum n => String_Z n
  end.

Definition makeChatId (a b : id) : jsstring :=
  let aStr := String_ a in
  let bStr := String_ b in
  let '(min, max) := if str_lt aStr bStr then (aStr, bStr) else (bStr, aStr) in
  js "chat_" ++ min ++ js "_" ++ max.

End Chat.

(* ===================================================================== *)
(** * Configuration and process start                                     *)
(* ===================================================================== *)

Module Config.

(** The environment variables the servers read. *)
Record env := {
  env_JWT_SECRET : option jsstring;
  env_ENCRYPTION_KEY : option jsstring;
}.

Definition JWT_SECRET (e : env) : jsstring :=
  or_else (env_JWT_SECRET e) (js "dev_jwt_secret").

Definition ENCRYPTION_KEY (e : env) : jsstring :=
  slice (padEnd (or_else (env_ENCRYPTION_KEY e) (js "dev_key_32_bytes_long_for_demo!!")) 32)
        0 32.

(** [Buffer.from(ENCRYPTION_KEY)], the key handed to the cipher. *)
Definition key_bytes (e : env) : list byte := Utf8.encode (ENCRYPTION_KEY e).

Record config := {
  cfg_jwt_secret : jsstring;
  cfg_key : jsstring;
}.

Definition load (e : env) : config :=
  {| cfg_jwt_secret := JWT_SECRET e; cfg_key := ENCRYPTION_KEY e |}.

(** How the process comes up. *)
Inductive startup :=
| Running (c : config)
| Exited (code : Z).

(** Postgres server: the module body evaluates the configuration, listens,
    and starts [initDb] in the background; a failure there is logged and the
    process keeps running. *)
Definition start_pg (e : env) (db_ok : bool) : startup := Running (load e).

(** MongoDB server: [main] exits with code 1 only when the database
    connection fails. *)
Definition start_mongo (e : env) (mongo_ok : bool) : startup :=
  if mongo_ok then Running (load e) else Exited 1.

End Config.

(* ===================================================================== *)
(** * AES-256 (FIPS 197), the block cipher behind ['aes-256-gcm']         *)
(* ===================================================================== *)

Module AES.

(** Multiplication by [x] in GF(2^8) modulo x^8 + x^4 + x^3 + x + 1. *)
Definition xtime (a : N) : N :=
  let d := 2 * a in
  if d <? 256 then d else N.lxor d 0x11b.

Fixpoint gmul_aux (n : nat) (a b : N) : N :=
  match n with
  | O => 0
  | S n' => N.lxor (if N.odd b then a else 0) (gmul_aux n' (xtime a) (b / 2))
  end.

Definition gmul (a b : N) : N := gmul_aux 8 a b.

(** The multiplicative inverse, a^254 (and 0 for 0). *)
Definition ginv (a : N) : N :=
  let a2 := gmul a a in
  let a4 := gmul a2 a2 in
  let a8 := gmul a4 a4 in
  let a16 := gmul a8 a8 in
  let a32 := gmul a16 a16 in
  let a64 := gmul a32 a32 in
  let a128 := gmul a64 a64 in
  gmul a2 (gmul a4 (gmul a8 (gmul a16 (gmul a32 (gmul a64 a128))))).

Definition rotl8 (a : N) (k : N) : N :=
  (N.shiftl a k mod 256) + N.shiftr a (8 - k).

(** The S-box: inversion followed by the affine map. *)
Definition sbox (a : N) : N :=
  let b := ginv a in
  N.lxor b (N.lxor (rotl8 b 1) (N.lxor (rotl8 b 2)
    (N.lxor (rotl8 b 3) (N.lxor (rotl8 b 4) 0x63)))).

Definition xor_block (a b : list N) : list N :=
  map (fun p => N.lxor (fst p) (snd p)) (combine a b).

Definition at_ (l : list N) (i : nat) : N := nth i l 0.

Definition SubBytes (s : list N) : list N := map sbox s.

(** The state is kept in input order: byte [r + 4c] is row [r] of column
    [c]; row [r] is rotated left by [r] columns. *)
Definition ShiftRows (s : list N) : list N :=
  map (fun i => at_ s (4 * ((i / 4 + i mod 4) mod 4) + i mod 4)%nat) (seq 0 16).

Definition mix_column (a0 a1 a2 a3 : N) : list N :=
  [ N.lxor (gmul 2 a0) (N.lxor (gmul 3 a1) (N.lxor a2 a3));
    N.lxor a0 (N.lxor (gmul 2 a1) (N.lxor (gmul 3 a2) a3));
    N.lxor a0 (N.lxor a1 (N.lxor (gmul 2 a2) (gmul 3 a3)));
    N.lxor (gmul 3 a0) (N.lxor a1 (N.lxor a2 (gmul 2 a3))) ].

Definition MixColumns (s : list N) : list N :=
  flat_map (fun c => mix_column (at_ s (4 * c)) (at_ s (4 * c + 1))
                                (at_ s (4 * c + 2)) (at_ s (4 * c + 3)))
           (seq 0 4).

(** Key expansion for Nk = 8: the schedule as a flat list of bytes, four
    per word, grown one word at a time. *)
Definition word_at (w : list N) (i : nat) : list N :=
  firstn 4 (skipn (4 * i) w).

Definition RotWord (t : list N) : list N := skipn 1 t ++ firstn 1 t.

Definition Rcon (j : nat) : list N := [Nat.iter (j - 1) xtime 1; 0; 0; 0].

Definition next_word (w : list N) (i : nat) : list N :=
  let temp := word_at w (i - 1) in
  let temp :=
    if (i mod 8 =? 0)%nat then xor_block (map sbox (RotWord temp)) (Rcon (i / 8))
    else if (i mod 8 =? 4)%nat then map sbox temp
    else temp in
  xor_block (word_at w (i - 8)) temp.

Fixpoint expand (n : nat) (i : nat) (w : list N) : list N :=
  match n with
  | O => w
  | S n' => expand n' (S i) (w ++ next_word w i)
  end.

Definition KeyExpansion (key : list N) : list N := expand 52 8 key.

Definition round_key (w : list N) (r : nat) : list N :=
  firstn 16 (skipn (16 * r) w).

Definition AddRoundKey (s : list N) (w : list N) (r : nat) : list N :=
  xor_block s (round_key w r).

Definition Cipher (w : list N) (input : list N) : list N :=
  let s := AddRoundKey input w 0 in
  let s := fold_left (fun s r => AddRoundKey (MixColumns (ShiftRows (SubBytes s))) w r)
                     (seq 1 13) s in
  AddRoundKey (ShiftRows (SubBytes s)) w 14.

(** Encryption of one 16-byte block under a 32-byte key. *)
Definition encrypt_block (key block : list byte) : list byte :=
  map n2b (Cipher (KeyExpansion (map b2n key)) (map b2n block)).

End AES.

(* ===================================================================== *)
(** * Galois/Counter Mode (NIST SP 800-38D)                               *)
(* ===================================================================== *)

Module GCM.

(** A block as a 128-bit number, first byte most significant. *)
Definition to_num (bs : list byte) : N :=
  fold_left (fun acc b => acc * 256 + b2n b) bs 0.

Fixpoint of_num (len : nat) (x : N) : list byte :=
  match len with
  | O => []
  | S len' => of_num len' (x / 256) ++ [n2b x]
  end.

Definition R : N := N.shiftl 0xE1 120.

(** Multiplication of blocks: bit 0 is the leftmost one. *)
Fixpoint mul_aux (n : nat) (x z v : N) : N :=
  match n with
  | O => z
  | S n' =>
      let z' := if N.testbit x (N.of_nat n') then N.lxor z v else z in
      let v' := if N.testbit v 0 then N.lxor (N.shiftr v 1) R else N.shiftr v 1 in
      mul_aux n' x z' v'
  end.

Definition mul (x y : N) : N := mul_aux 128 x 0 y.

(** Right-pad with zero bytes to a multiple of 16. *)
Definition pad16 (bs : list byte) : list byte :=
  bs ++ repeat Byte.x00 ((16 - length bs mod 16) mod 16)%nat.

Fixpoint ghash_aux (n : nat) (h y : N) (bs : list byte) : N :=
  match n with
  | O => y
  | S n' =>
      match bs with
      | [] => y
      | _ => ghash_aux n' h (mul (N.lxor y (to_num (firstn 16 bs))) h) (skipn 16 bs)
      end
  end.

(** GHASH of a byte string whose length is a multiple of 16. *)
Definition GHASH (h : N) (bs : list byte) : N :=
  ghash_aux (length bs) h 0 bs.

Definition len64 (bs : list byte) : list byte :=
  of_num 8 (8 * N.of_nat (length bs)).

(** Increment of the last 32 bits. *)
Definition inc32 (cb : list byte) : list byte :=
  firstn 12 cb ++ of_num 4 (to_num (skipn 12 cb) + 1).

Fixpoint gctr_aux (n : nat) (key cb : list byte) (x : list byte) : list byte :=
  match n with
  | O => []
  | S n' =>
      match x with
      | [] => []
      | _ => xor_bytes (firstn 16 x) (AES.encrypt_block key cb)
               ++ gctr_aux n' key (inc32 cb) (skipn 16 x)
      end
  end.

Definition GCTR (key icb x : list byte) : list byte :=
  gctr_aux (length x) key icb x.

Definition hash_key (key : list byte) : N :=
  to_num (AES.encrypt_block key (repeat Byte.x00 16)).

(** The pre-counter block. *)
Definition J0 (key iv : list byte) : list byte :=
  if (length iv =? 12)%nat then iv ++ [Byte.x00; Byte.x00; Byte.x00; Byte.x01]
  else of_num 16 (GHASH (hash_key key)
                        (pad16 iv ++ repeat Byte.x00 8 ++ len64 iv)).

(** The 16-byte tag of a ciphertext (no associated data). *)
Definition tag (key iv c : list byte) : list byte :=
  let s := GHASH (hash_key key) (pad16 c ++ len64 [] ++ len64 c) in
  GCTR key (J0 key iv) (of_num 16 s).

Definition seal (key iv p : list byte) : list byte * list byte :=
  let c := GCTR key (inc32 (J0 key iv)) p in
  (c, tag key iv c).

(** Authenticated decryption: the plaintext when the tag verifies. *)
Definition open (key iv c t : list byte) : option (list byte) :=
  if bytes_eqb t (tag key iv c) then Some (GCTR key (inc32 (J0 key iv)) c)
  else None.

End GCM.

(* ===================================================================== *)
(** * Exceptions                                                          *)
(* ===================================================================== *)

Module Exn.

(** What the modelled calls can throw. *)
Inductive exn :=
| InvalidKeyLength        (* createCipheriv / createDecipheriv *)
| InvalidIV               (* createCipheriv / createDecipheriv *)
| InvalidAuthTagLength    (* decipher.setAuthTag *)
| UnableToAuthenticate    (* decipher.final *)
| ForeignKeyViolation     (* Postgres 23503 *)
| DuplicateKey            (* MongoDB E11000 *)
| InvalidByteSequence     (* Postgres 22021 *)
| IllegalArguments.       (* bcryptjs, on an argument that is no string *)

Inductive result (A : Type) :=
| Ok (a : A)
| Throw (e : exn).
Arguments Ok {A} a.
Arguments Throw {A} e.

Definition bind {A B} (r : result A) (k : A -> result B) : result B :=
  match r with
  | Ok a => k a
  | Throw e => Throw e
  end.

(** [rows.map(f)] where [f] may throw: the first exception ends the map. *)
Fixpoint map_throwing {A B} (f : A -> result B) (l : list A) : result (list B) :=
  match l with
  | [] => Ok []
  | a :: l' =>
      bind (f a) (fun b => bind (map_throwing f l') (fun bs => Ok (b :: bs)))
  end.

End Exn.
Import Exn.

Notation "'do' x <- e ; k" := (Exn.bind e (fun x => k))
  (at level 10, x name, e at level 100, k at level 200).

(* ===================================================================== *)
(** * Message codec: [encrypt] and [decrypt]                              *)
(* ===================================================================== *)

Module Codec.

(** The object [encrypt] returns. *)
Record sealed := { data : jsstring; iv : jsstring }.

(** [createCipheriv('aes-256-gcm', key, iv, { authTagLength: 16 })] and
    its decipher twin: the IV must not be empty and the key must be 32
    bytes; Node looks at the IV first. *)
Definition check_params (key iv : list byte) : result unit :=
  if (length iv =? 0)%nat then Throw InvalidIV
  else if negb (length key =? 32)%nat then Throw InvalidKeyLength
  else Ok tt.

(** [encrypt(text)] under [ENCRYPTION_KEY]; [rnd] is what
    [randomBytes(12)] returns in this call. *)
Definition encrypt (ENCRYPTION_KEY : jsstring) (rnd : list byte) (text : jsstring)
  : result sealed :=
  let iv := rnd in
  let key := Utf8.encode ENCRYPTION_KEY in
  do _ <- check_params key iv;
  let '(encrypted, tag) := GCM.seal key iv (Utf8.encode text) in
  Ok {| data := Base64.encode (encrypted ++ tag); iv := Base64.encode iv |}.

(** [decrypt(dataBase64, ivBase64)] under [ENCRYPTION_KEY]. *)
Definition decrypt (ENCRYPTION_KEY : jsstring) (dataBase64 ivBase64 : jsstring)
  : result jsstring :=
  let iv := Base64.decode ivBase64 in
  let combined := Base64.decode dataBase64 in
  let tag := slice_from combined (Z.of_nat (length combined) - 16) in
  let encrypted := slice combined 0 (Z.of_nat (length combined) - 16) in
  let key := Utf8.encode ENCRYPTION_KEY in
  do _ <- check_params key iv;
  do _ <- (if (length tag =? 16)%nat then Ok tt else Throw InvalidAuthTagLength);
  match GCM.open key iv encrypted tag with
  | Some decrypted => Ok (Utf8.decode decrypted)
  | None => Throw UnableToAuthenticate
  end.

End Codec.

(* ===================================================================== *)
(** * Fan-out hub: the [subs] map, [broadcastToChat], the socket handlers *)
(* ===================================================================== *)

Module JsMap.

(** A JS [Map]: entries in insertion order, one per key. *)
Section Ops.
Context {K V : Type} `{EqDecision K}.

Fixpoint get (k : K) (m : list (K * V)) : option V :=
  match m with
  | [] => None
  | (k', v) :: m' => if decide (k = k') then Some v else get k m'
  end.

(** [m.set(k, v)]: an existing key keeps its place. *)
Fixpoint set (k : K) (v : V) (m : list (K * V)) : list (K * V) :=
  match m with
  | [] => [(k, v)]
  | (k', v') :: m' =>
      if decide (k = k') then (k, v) :: m' else (k', v') :: set k v m'
  end.

Definition delete (k : K) (m : list (K * V)) : list (K * V) :=
  List.filter (fun e => negb (bool_decide (k = fst e))) m.

Definition keys (m : list (K * V)) : list K := map fst m.

End Ops.

End JsMap.

Module Hub.

(** A socket, by identity. *)
Definition conn := nat.

Inductive readyState := CONNECTING | OPEN | CLOSING | CLOSED.

(** The message object of a ['message'] frame. *)
Record message := {
  msg_id : jsstring;
  msg_chat_id : jsstring;
  msg_sender_id : jsstring;
  msg_content : jsstring;
  msg_created_at : Z;
}.

(** Server-to-client payloads, before [JSON.stringify]. *)
Inductive payload :=
| Subscribed (chatId : jsstring)
| Unsubscribed (chatId : jsstring)
| MessageEvent (m : message).

(** A client frame after [JSON.parse(raw.toString())]: the parse throws,
    or yields an object whose [type] and [chatId] may be absent.  Chat ids
    are strings, as the client sends them. *)
Inductive frame :=
| Malformed
| Parsed (type chatId : option jsstring).

(** The hub: [subs], the sockets' [readyState], and what was written to
    each socket, in order.  A subscription [Set] is only ever probed with
    [has], [add] and [delete], so it is kept as a finite set; the [Map] is
    iterated, so it keeps its insertion order. *)
Record hub := {
  subs : list (conn * gset jsstring);
  ready : conn -> readyState;
  sent : list (conn * payload);
}.

Definition init : hub :=
  {| subs := []; ready := fun _ => CLOSED; sent := [] |}.

Definition with_subs (h : hub) (s : list (conn * gset jsstring)) : hub :=
  {| subs := s; ready := ready h; sent := sent h |}.

Definition with_ready (h : hub) (ws : conn) (st : readyState) : hub :=
  {| subs := subs h;
     ready := fun c => if decide (c = ws) then st else ready h c;
     sent := sent h |}.

Definition is_open (st : readyState) : bool :=
  match st with OPEN => true | _ => false end.

(** A statement completes or throws; either way it leaves a state. *)
Inductive completion :=
| Normal (h : hub)
| Abrupt (h : hub).

(** [ws.send(data)]: written when the socket is open, an error while it
    is still connecting, dropped once it is closing or closed. *)
Definition ws_send (h : hub) (ws : conn) (p : payload) : completion :=
  match ready h ws with
  | OPEN => Normal {| subs := subs h; ready := ready h; sent := sent h ++ [(ws, p)] |}
  | CONNECTING => Abrupt h
  | _ => Normal h
  end.

Definition state_of (c : completion) : hub :=
  match c with Normal h => h | Abrupt h => h end.

Definition has (s : gset jsstring) (x : jsstring) : bool := bool_decide (x ∈ s).

Definition broadcastToChat (h : hub) (chatId : jsstring) (p : payload) : hub :=
  fold_left
    (fun h e =>
       let '(ws, set) := e in
       if has set chatId && is_open (ready h ws) then state_of (ws_send h ws p) else h)
    (subs h) h.

(** [wss.on('connection')]. *)
Definition on_connection (h : hub) (ws : conn) : hub :=
  with_subs (with_ready h ws OPEN) (JsMap.set ws ∅ (subs h)).

Definition type_is (t : string) (type : option jsstring) : bool :=
  match type with
  | Some s => str_eqb s (js t)
  | None => false
  end.

(** [subs.get(ws).add(chatId); ws.send(subscribed)]; [subs.get(ws)] is
    [undefined] for a socket that is not registered, and the call on it
    throws. *)
Definition do_subscribe (h : hub) (ws : conn) (chatId : jsstring) : completion :=
  match JsMap.get ws (subs h) with
  | None => Abrupt h
  | Some set =>
      ws_send (with_subs h (JsMap.set ws ({[chatId]} ∪ set) (subs h))) ws
              (Subscribed chatId)
  end.

Definition do_unsubscribe (h : hub) (ws : conn) (chatId : jsstring) : completion :=
  match JsMap.get ws (subs h) with
  | None => Abrupt h
  | Some set =>
      ws_send (with_subs h (JsMap.set ws (set ∖ {[chatId]}) (subs h))) ws
              (Unsubscribed chatId)
  end.

(** [ws.on('message')]: both [if]s inside one [try]; the [catch] ignores
    whatever was thrown. *)
Definition on_message (h : hub) (ws : conn) (f : frame) : hub :=
  match f with
  | Malformed => h
  | Parsed type chatId =>
      let c1 :=
        if type_is "subscribe" type && negb (falsy chatId)
        then do_subscribe h ws (or_else chatId [])
        else Normal h in
      match c1 with
      | Abrupt h' => h'
      | Normal h1 =>
          if type_is "unsubscribe" type && negb (falsy chatId)
          then state_of (do_unsubscribe h1 ws (or_else chatId []))
          else h1
      end
  end.

(** [ws.on('close')]: the socket is closed when the event fires. *)
Definition on_close (h : hub) (ws : conn) : hub :=
  with_subs (with_ready h ws CLOSED) (JsMap.delete ws (subs h)).

(** What happens to the hub. *)
Inductive event :=
| Connection (ws : conn)
| Message (ws : conn) (f : frame)
| Close (ws : conn)
| Transport (ws : conn) (st : readyState)
| Broadcast (chatId : jsstring) (p : payload).

Definition step (h : hub) (e : event) : hub :=
  match e with
  | Connection ws => on_connection h ws
  | Message ws f => on_message h ws f
  | Close ws => on_close h ws
  | Transport ws st => with_ready h ws st
  | Broadcast chatId p => broadcastToChat h chatId p
  end.

Definition run (h : hub) (evs : list event) : hub := fold_left step evs h.

(** What socket [ws] was sent so far. *)
Definition sent_to (ws : conn) (h : hub) : list payload :=
  map snd (List.filter (fun e => bool_decide (fst e = ws)) (sent h)).

Definition subscribe_frame (chatId : jsstring) : frame :=
  Parsed (Some (js "subscribe")) (Some chatId).

Definition unsubscribe_frame (chatId : jsstring) : frame :=
  Parsed (Some (js "unsubscribe")) (Some chatId).

End Hub.

(* ===================================================================== *)
(** * HTTP responses and the external collaborators                       *)
(* ===================================================================== *)

(** Request bodies are JSON objects.  A password may be of any JSON type
    ([field] below); the other fields, when present, are strings.  The
    database is reachable; what a handler's [catch] then still sees are the
    exceptions of the codec and of [bcryptjs], refused parameters and
    constraint violations. *)

Module Http.

(** The [safeUser] object that is signed into the token. *)
Record safe_user := {
  su_id : jsstring;
  su_username : jsstring;
  su_email : option jsstring;
}.

Record friend_summary := { fs_id : jsstring; fs_username : jsstring }.

Inductive json :=
| ErrorBody (error : jsstring)
| AuthBody (user : safe_user) (token : jsstring)
| MessageBody (m : Hub.message)
| MessagesBody (ms : list Hub.message)
| FriendBody (f : friend_summary).

Record response := { status : N; body : json }.

(** [res.json(b)]. *)
Definition ok (b : json) : response := {| status := 200; body := b |}.

(** [res.status(code).json({ error })]. *)
Definition fail (code : N) (msg : string) : response :=
  {| status := code; body := ErrorBody (js msg) |}.

(** A field of a JSON request body where a handler hands it to code that
    tells types apart: a string, or a value of another type (a number, a
    boolean, [null], an array, an object), of which only the truthiness is
    looked at. *)
Inductive field :=
| Str (s : jsstring)
| NotStr (truthy : bool).

(** [!x] for a possibly absent field. *)
Definition field_falsy (a : option field) : bool :=
  match a with
  | Some (Str s) => negb (truthy s)
  | Some (NotStr t) => negb t
  | None => true
  end.

(** The value of a field that was found truthy. *)
Definition given (a : option field) : field :=
  match a with
  | Some v => v
  | None => NotStr false
  end.

(** [bcryptjs]: verification of a password against a stored hash; on two
    strings it answers, see [bcrypt_compare_any] for other arguments. *)
Class Bcrypt := { bcrypt_compare : jsstring -> jsstring -> bool }.

(** [bcrypt.compare(s, hash)]: the promise is rejected when [s] is not a
    string. *)
Definition bcrypt_compare_any `{Bcrypt} (s : field) (hash : jsstring) : result bool :=
  match s with
  | Str password => Ok (bcrypt_compare password hash)
  | NotStr _ => Throw IllegalArguments
  end.

(** [jsonwebtoken]: [jwt.sign(payload, secret)]. *)
Class Jwt := { jwt_sign : safe_user -> jsstring -> jsstring }.

(** [ORDER BY key ASC] / [.sort({ key: 1 })].  The databases promise no
    order among rows with equal keys; here they keep the order of the
    scan. *)
Fixpoint insert_on {A} (key : A -> Z) (x : A) (l : list A) : list A :=
  match l with
  | [] => [x]
  | y :: l' =>
      if (key x <=? key y)%Z then x :: y :: l' else y :: insert_on key x l'
  end.

Fixpoint sort_on {A} (key : A -> Z) (l : list A) : list A :=
  match l with
  | [] => []
  | x :: l' => insert_on key x (sort_on key l')
  end.

End Http.
Import Http.

(* ===================================================================== *)
(** * The Postgres-backed server ([server/index.js])                      *)
(* ===================================================================== *)

Module Pg.

Record user_row := {
  u_id : N;
  u_username : jsstring;
  u_email : option jsstring;
  u_password_hash : jsstring;
}.

Record message_row := {
  m_id : N;
  m_chat_id : jsstring;
  m_sender_id : N;
  m_content : jsstring;
  m_iv : jsstring;
  m_created_at : Z;
}.

(** A row of [friends]: [(user_id, friend_id)]; its surrogate key is
    never read. *)
Definition friend_row := (N * N)%type.

Record db := {
  users : list user_row;
  messages : list message_row;
  messages_seq : N;
  friends : list friend_row;
}.

(** [req.user], the verified token payload.  Its [id] is the string
    [String(u_id)] that was signed at registration or login; Postgres
    reads it back as the integer [ru_id]. *)
Record req_user := { ru_id : N; ru_username : jsstring }.

(** [SELECT ... FROM users WHERE username=$1 OR email=$1 LIMIT 1]. *)
Definition find_user (d : db) (ident : jsstring) : option user_row :=
  List.find (fun u => str_eqb (u_username u) ident
                      || match u_email u with
                         | Some e => str_eqb e ident
                         | None => false
                         end)
            (users d).

Definition user_exists (d : db) (id : N) : bool :=
  existsb (fun u => u_id u =? id) (users d).

Record login_body := {
  lb_usernameOrEmail : option jsstring;
  lb_username : option jsstring;
  lb_password : option field;
}.

(** [POST /api/login]; what [bcrypt.compare] throws goes to the [catch]. *)
Definition login `{Bcrypt} `{Jwt} (JWT_SECRET : jsstring) (d : db) (b : login_body)
  : response :=
  let identifier := or_opt (lb_usernameOrEmail b) (lb_username b) in
  if falsy identifier || field_falsy (lb_password b) then
    fail 400 "username/email and password required"
  else
    match find_user d (or_else identifier []) with
    | None => fail 400 "Invalid credentials"
    | Some user =>
        match bcrypt_compare_any (given (lb_password b))
                                 (u_password_hash user) with
        | Throw _ => fail 500 "Internal server error"
        | Ok ok_ =>
            if negb ok_ then fail 400 "Invalid credentials"
            else
              let safeUser := {| su_id := String_N (u_id user);
                                 su_username := u_username user;
                                 su_email := u_email user |} in
              let token := jwt_sign safeUser JWT_SECRET in
              ok (AuthBody safeUser token)
        end
    end.

(** [INSERT INTO friends (user_id, friend_id) VALUES ($1, $2)
     ON CONFLICT (user_id, friend_id) DO NOTHING]; both columns reference
    [users(id)]. *)
Definition upsert_friend (d : db) (user_id friend_id : N) : result db :=
  if existsb (fun r => (fst r =? user_id) && (snd r =? friend_id)) (friends d)
  then Ok d
  else if user_exists d user_id && user_exists d friend_id then
    Ok {| users := users d; messages := messages d; messages_seq := messages_seq d;
          friends := friends d ++ [(user_id, friend_id)] |}
  else Throw ForeignKeyViolation.

Record friend_body := {
  fb_username : option jsstring;
  fb_identifier : option jsstring;
}.

(** [POST /api/friends/add]; a statement that throws leaves the rows the
    earlier statements wrote. *)
Definition add_friend (d : db) (u : req_user) (b : friend_body) : db * response :=
  let ident := or_opt (fb_identifier b) (fb_username b) in
  if falsy ident then (d, fail 400 "username or email required")
  else
    match find_user d (or_else ident []) with
    | None => (d, fail 404 "User not found")
    | Some friend =>
        if str_eqb (String_N (u_id friend)) (String_N (ru_id u))
        then (d, fail 400 "Cannot add yourself")
        else
          match upsert_friend d (ru_id u) (u_id friend) with
          | Throw _ => (d, fail 500 "Internal server error")
          | Ok d1 =>
              match upsert_friend d1 (u_id friend) (ru_id u) with
              | Throw _ => (d1, fail 500 "Internal server error")
              | Ok d2 =>
                  (d2, ok (FriendBody {| fs_id := String_N (u_id friend);
                                         fs_username := u_username friend |}))
              end
          end
    end.

Record message_body := {
  mb_chatId : option jsstring;
  mb_content : option jsstring;
}.

(** A JS string as a [TEXT] parameter: the server refuses a text that
    holds U+0000, and the driver writes the string as UTF-8, so that an
    unpaired surrogate arrives as U+FFFD. *)
Definition refused_text (s : jsstring) : bool := existsb (N.eqb 0) s.

Definition stored_text (s : jsstring) : jsstring := Utf8.decode (Utf8.encode s).

Definition text_param (s : jsstring) : result jsstring :=
  if refused_text s then Throw InvalidByteSequence else Ok (stored_text s).

(** The largest [INTEGER]; a larger parameter is refused when it is read. *)
Definition int4_max : N := 2147483647.

(** [POST /api/messages]; [rnd] is the output of [randomBytes(12)] and
    [now] the value of [CURRENT_TIMESTAMP] for the insert.  A parameter
    that is refused ends the query before the sequence is touched; the
    ciphertext and the IV are base64 text.  The answer and the broadcast
    payload carry the chat id of the returned row, the subscribers are
    looked up under the chat id of the request. *)
Definition post_message (ENCRYPTION_KEY : jsstring) (rnd : list byte) (now : Z)
    (d : db) (h : Hub.hub) (u : req_user) (b : message_body)
  : db * Hub.hub * response :=
  if falsy (mb_chatId b) || falsy (mb_content b) then
    (d, h, fail 400 "chatId and content required")
  else
    let chatId := or_else (mb_chatId b) [] in
    let content := or_else (mb_content b) [] in
    match Codec.encrypt ENCRYPTION_KEY rnd content with
    | Throw _ => (d, h, fail 500 "Internal server error")
    | Ok s =>
        match text_param chatId with
        | Throw _ => (d, h, fail 500 "Internal server error")
        | Ok chat_id =>
            if int4_max <? ru_id u then (d, h, fail 500 "Internal server error")
            else if negb (user_exists d (ru_id u)) then
              (* the sequence has advanced by the time the foreign key fails *)
              ({| users := users d; messages := messages d;
                  messages_seq := messages_seq d + 1; friends := friends d |},
               h, fail 500 "Internal server error")
            else
              let msg := {| m_id := messages_seq d + 1; m_chat_id := chat_id;
                            m_sender_id := ru_id u; m_content := Codec.data s;
                            m_iv := Codec.iv s; m_created_at := now |} in
              let d' := {| users := users d; messages := messages d ++ [msg];
                           messages_seq := messages_seq d + 1; friends := friends d |} in
              let message := {| Hub.msg_id := String_N (m_id msg);
                                Hub.msg_chat_id := m_chat_id msg;
                                Hub.msg_sender_id := String_N (m_sender_id msg);
                                Hub.msg_content := content;
                                Hub.msg_created_at := m_created_at msg |} in
              let h' := Hub.broadcastToChat h chatId (Hub.MessageEvent message) in
              (d', h', ok (MessageBody message))
        end
    end.

(** The rows of [SELECT ... FROM messages WHERE chat_id = $1 ORDER BY
    created_at ASC]. *)
Definition select_messages (d : db) (chatId : jsstring) : list message_row :=
  sort_on m_created_at (List.filter (fun r => str_eqb (m_chat_id r) chatId) (messages d)).

(** [await query(text, [chatId])]: the query fails on a chat id the server
    refuses as text.  The chat id comes out of the query string, where
    [decodeURIComponent] leaves no unpaired surrogate, so it is compared
    as it stands. *)
Definition query_messages (d : db) (chatId : jsstring) : result (list message_row) :=
  if refused_text chatId then Throw InvalidByteSequence
  else Ok (select_messages d chatId).

(** The callback of [result.rows.map]. *)
Definition present (ENCRYPTION_KEY : jsstring) (r : message_row) : result Hub.message :=
  do content <- Codec.decrypt ENCRYPTION_KEY (m_content r) (m_iv r);
  Ok {| Hub.msg_id := String_N (m_id r);
        Hub.msg_chat_id := m_chat_id r;
        Hub.msg_sender_id := String_N (m_sender_id r);
        Hub.msg_content := content;
        Hub.msg_created_at := m_created_at r |}.

(** [GET /api/messages]: one [try] around the query and the map. *)
Definition get_messages (ENCRYPTION_KEY : jsstring) (d : db) (chatId : option jsstring)
  : response :=
  if falsy chatId then fail 400 "chatId query required"
  else
    match (do rows <- query_messages d (or_else chatId []);
           map_throwing (present ENCRYPTION_KEY) rows) with
    | Ok messages => ok (MessagesBody messages)
    | Throw _ => fail 500 "Internal server error"
    end.

End Pg.

(* ===================================================================== *)
(** * The MongoDB-backed server                                           *)
(* ===================================================================== *)

Module Mongo.

(** An [ObjectId], by its 24-digit hexadecimal text: [toString] is the
    identity and ids compare as their texts. *)
Definition oid := jsstring.

Record user_doc := {
  u_id : oid;
  u_username : jsstring;
  u_email : option jsstring;
  u_password_hash : jsstring;
}.

Record message_doc := {
  m_id : oid;
  m_chatId : jsstring;
  m_sender : oid;
  m_content : jsstring;
  m_iv : jsstring;
  m_createdAt : Z;
}.

(** A [Friend] document: [(user, friend)]. *)
Definition friend_doc := (oid * oid)%type.

Record db := {
  users : list user_doc;
  messages : list message_doc;
  friends : list friend_doc;
}.

Record req_user := { ru_id : oid; ru_username : jsstring }.

(** [User.findOne({ $or: [{ username }, { email }] })]. *)
Definition find_user (d : db) (ident : jsstring) : option user_doc :=
  List.find (fun u => str_eqb (u_username u) ident
                      || match u_email u with
                         | Some e => str_eqb e ident
                         | None => false
                         end)
            (users d).

(** [Friend.findOne({ user, friend })]. *)
Definition find_friend (d : db) (user friend : oid) : option friend_doc :=
  List.find (fun r => str_eqb (fst r) user && str_eqb (snd r) friend) (friends d).

(** Modelled from the spec: the [Friend] schema ([models/friend.js]) is not
    among the sources.  The data model makes a friend edge "unique per
    ordered pair"; [unique_pair] says whether the collection enforces it
    with a unique index, in which case saving a second copy throws. *)
Definition save_friend (unique_pair : bool) (d : db) (user friend : oid) : result db :=
  if unique_pair && bool_decide (is_Some (find_friend d user friend))
  then Throw DuplicateKey
  else Ok {| users := users d; messages := messages d;
             friends := friends d ++ [(user, friend)] |}.

Record friend_body := {
  fb_username : option jsstring;
  fb_identifier : option jsstring;
}.

(** [POST /api/friends/add]. *)
Definition add_friend (unique_pair : bool) (d : db) (u : req_user) (b : friend_body)
  : db * response :=
  let ident := or_opt (fb_identifier b) (fb_username b) in
  if falsy ident then (d, fail 400 "username or email required")
  else
    match find_user d (or_else ident []) with
    | None => (d, fail 404 "User not found")
    | Some friend =>
        if str_eqb (u_id friend) (ru_id u)
        then (d, fail 400 "Cannot add yourself")
        else
          match find_friend d (ru_id u) (u_id friend) with
          | Some _ => (d, fail 400 "Already friends")
          | None =>
              match save_friend unique_pair d (ru_id u) (u_id friend) with
              | Throw _ => (d, fail 500 "Internal server error")
              | Ok d1 =>
                  match save_friend unique_pair d1 (u_id friend) (ru_id u) with
                  | Throw _ => (d1, fail 500 "Internal server error")
                  | Ok d2 =>
                      (d2, ok (FriendBody {| fs_id := u_id friend;
                                             fs_username := u_username friend |}))
                  end
              end
          end
    end.

(** [Message.find({ chatId }).sort({ createdAt: 1 }).lean()]. *)
Definition find_messages (d : db) (chatId : jsstring) : list message_doc :=
  sort_on m_createdAt (List.filter (fun r => str_eqb (m_chatId r) chatId) (messages d)).

Definition present (ENCRYPTION_KEY : jsstring) (r : message_doc) : result Hub.message :=
  do content <- Codec.decrypt ENCRYPTION_KEY (m_content r) (m_iv r);
  Ok {| Hub.msg_id := m_id r;
        Hub.msg_chat_id := m_chatId r;
        Hub.msg_sender_id := m_sender r;
        Hub.msg_content := content;
        Hub.msg_created_at := m_createdAt r |}.

(** [GET /api/messages]. *)
Definition get_messages (ENCRYPTION_KEY : jsstring) (d : db) (chatId : option jsstring)
  : response :=
  if falsy chatId then fail 400 "chatId query required"
  else
    match map_throwing (present ENCRYPTION_KEY)
                       (find_messages d (or_else chatId [])) with
    | Ok messages => ok (MessagesBody messages)
    | Throw _ => fail 500 "Internal server error"
    end.

End Mongo.

(* ===================================================================== *)
(** * Accounts: [POST /api/register] and [POST /api/login]                *)
(* ===================================================================== *)

Module Accounts.

(** [bcryptjs]: [bcrypt.hash(password, rounds)]; the salt it draws is
    made explicit. *)
Class BcryptHash := { bcrypt_hash : jsstring -> N -> jsstring -> jsstring }.

Record register_body := {
  rb_username : option jsstring;
  rb_email : option jsstring;
  rb_password : option field;
}.

(** [bcrypt.hash(s, rounds)]: the promise is rejected when [s] is not a
    string. *)
Definition bcrypt_hash_any `{BcryptHash} (s : field) (rounds : N) (salt : jsstring)
  : result jsstring :=
  match s with
  | Str password => Ok (bcrypt_hash password rounds salt)
  | NotStr _ => Throw IllegalArguments
  end.

(** The [users] table with the sequence behind its [SERIAL] key. *)
Record users_table := { db : Pg.db; users_seq : N }.

(** The constraints of [users] ([initDb]): [id] is the primary key,
    [username] and [email] are [UNIQUE]; two [NULL] emails do not
    conflict. *)
Definition unique_violation (d : Pg.db) (id : N) (username : jsstring)
    (email : option jsstring) : bool :=
  existsb (fun u =>
             (Pg.u_id u =? id)
             || str_eqb (Pg.u_username u) username
             || match email, Pg.u_email u with
                | Some e, Some e' => str_eqb e' e
                | _, _ => false
                end)
          (Pg.users d).

(** [INSERT INTO users (username, email, password_hash) VALUES ($1, $2, $3)
    RETURNING id, username, email]: the sequence advances whether or not
    the row is accepted. *)
Definition insert_user (t : users_table) (username : jsstring) (email : option jsstring)
    (password_hash : jsstring) : users_table * result Pg.user_row :=
  let id := users_seq t + 1 in
  if unique_violation (db t) id username email then
    ({| db := db t; users_seq := id |}, Throw DuplicateKey)
  else
    let row := {| Pg.u_id := id; Pg.u_username := username; Pg.u_email := email;
                  Pg.u_password_hash := password_hash |} in
    ({| db := {| Pg.users := Pg.users (db t) ++ [row];
                 Pg.messages := Pg.messages (db t);
                 Pg.messages_seq := Pg.messages_seq (db t);
                 Pg.friends := Pg.friends (db t) |};
        users_seq := id |},
     Ok row).

(** [POST /api/register] of the Postgres server. *)
Definition register `{BcryptHash} `{Jwt} (JWT_SECRET : jsstring) (salt : jsstring)
    (t : users_table) (b : register_body) : users_table * response :=
  if falsy (rb_username b) || field_falsy (rb_password b) then
    (t, fail 400 "username and password required")
  else
    match bcrypt_hash_any (given (rb_password b)) 10 salt with
    | Throw _ => (t, fail 500 "Internal server error")
    | Ok password_hash =>
        match insert_user t (or_else (rb_username b) []) (or_opt (rb_email b) None)
                          password_hash with
        | (t', Ok user) =>
            let safeUser := {| su_id := String_N (Pg.u_id user);
                               su_username := Pg.u_username user;
                               su_email := or_opt (Pg.u_email user) None |} in
            let token := jwt_sign safeUser JWT_SECRET in
            (t', ok (AuthBody safeUser token))
        | (t', Throw DuplicateKey) => (t', fail 400 "Username or email already exists")
        | (t', Throw _) => (t', fail 500 "Internal server error")
        end
    end.

(** [POST /api/login] of the MongoDB server. *)
Definition mongo_login `{Bcrypt} `{Jwt} (JWT_SECRET : jsstring) (d : Mongo.db)
    (b : Pg.login_body) : response :=
  let identifier := or_opt (Pg.lb_usernameOrEmail b) (Pg.lb_username b) in
  if falsy identifier || field_falsy (Pg.lb_password b) then
    fail 400 "username/email and password required"
  else
    match Mongo.find_user d (or_else identifier []) with
    | None => fail 400 "Invalid credentials"
    | Some user =>
        match bcrypt_compare_any (given (Pg.lb_password b))
                                 (Mongo.u_password_hash user) with
        | Throw _ => fail 500 "Internal server error"
        | Ok ok_ =>
            if negb ok_ then fail 400 "Invalid credentials"
            else
              let safeUser := {| su_id := Mongo.u_id user;
                                 su_username := Mongo.u_username user;
                                 su_email := Mongo.u_email user |} in
              let token := jwt_sign safeUser JWT_SECRET in
              ok (AuthBody safeUser token)
        end
    end.

End Accounts.

(* ===================================================================== *)
(** * The [auth] middleware and the header [apiFetch] sends               *)
(* ===================================================================== *)

Module Auth.

(** ECMAScript [LineTerminator]: what [.] does not match. *)
Definition is_line_terminator (c : N) : bool :=
  (c =? 10) || (c =? 13) || (c =? 8232) || (c =? 8233).

(** ECMAScript [\s]: [WhiteSpace] and [LineTerminator]. *)
Definition is_space (c : N) : bool :=
  (c =? 9) || (c =? 11) || (c =? 12) || (c =? 32) || (c =? 160) || (c =? 5760)
  || ((8192 <=? c) && (c <=? 8202)) || (c =? 8239) || (c =? 8287) || (c =? 12288)
  || (c =? 65279) || is_line_terminator c.

(** [Canonicalize] under the [i] flag, on the code units that can equal an
    ASCII letter of the pattern: no code unit above 127 canonicalizes to
    one. *)
Definition canonicalize (c : N) : N :=
  if (97 <=? c) && (c <=? 122) then c - 32 else c.

(** A literal of the pattern, matched from the start of [s]; the rest of
    [s] is returned. *)
Fixpoint literal (pat s : jsstring) : option jsstring :=
  match pat, s with
  | [], _ => Some s
  | p :: pat', c :: s' =>
      if canonicalize c =? canonicalize p then literal pat' s' else None
  | _ :: _, [] => None
  end.

(** [(.+)$]: the whole rest, when it is not empty and holds no line
    terminator. *)
Definition capture (s : jsstring) : option jsstring :=
  match s with
  | [] => None
  | _ :: _ => if forallb (fun c => negb (is_line_terminator c)) s then Some s else None
  end.

(** [\s*(.+)$]: the star is greedy, and gives a code unit back when what
    follows cannot match. *)
Fixpoint spaces_star (s : jsstring) : option jsstring :=
  match s with
  | [] => capture []
  | c :: s' =>
      if is_space c then
        match spaces_star s' with
        | Some t => Some t
        | None => capture s
        end
      else capture s
  end.

(** [\s+(.+)$]. *)
Definition spaces_plus (s : jsstring) : option jsstring :=
  match s with
  | [] => None
  | c :: s' => if is_space c then spaces_star s' else None
  end.

(** [authHeader.match(/^Bearer\s+(.+)$/i)]: [match[1]], or [None] when
    the result is [null]. *)
Definition bearer (authHeader : jsstring) : option jsstring :=
  match literal (js "Bearer") authHeader with
  | Some rest => spaces_plus rest
  | None => None
  end.

(** [jsonwebtoken]: [jwt.verify(token, secret)], [None] when it throws. *)
Class JwtVerify := { jwt_verify : jsstring -> jsstring -> option safe_user }.

(** What the middleware does with the request: answer it, or call
    [next()] with [req.user] set. *)
Inductive outcome :=
| Answered (r : response)
| Next (user : safe_user).

Definition auth `{JwtVerify} (JWT_SECRET : jsstring) (authorization : option jsstring)
  : outcome :=
  let authHeader := or_else authorization [] in
  match bearer authHeader with
  | None => Answered (fail 401 "Missing token")
  | Some token =>
      match jwt_verify token JWT_SECRET with
      | Some payload => Next payload
      | None => Answered (fail 401 "Invalid token")
      end
  end.

End Auth.

Module ApiFetch.

(** The [headers] object [apiFetch] hands to [fetch], its properties in
    insertion order: a copy of [opts.headers], a default content type for
    a body, and the stored token.  Bodies are the strings the page
    passes. *)
Definition headers (opts_headers : option (list (jsstring * jsstring)))
    (opts_body : option jsstring) (token : option jsstring)
  : list (jsstring * jsstring) :=
  let headers := default [] opts_headers in
  let headers :=
    if negb (falsy opts_body) && falsy (JsMap.get (js "Content-Type") headers)
    then JsMap.set (js "Content-Type") (js "application/json") headers
    else headers in
  if negb (falsy token)
  then JsMap.set (js "Authorization") (js "Bearer " ++ or_else token []) headers
  else headers.

(** What [fetch] makes of such an object (Fetch standard, the [Headers]
    class): a name is a token and is matched without regard to case; a
    value loses the HTTP white space at its ends and may hold neither
    U+0000, a line feed or a carriage return nor a code unit above 255; an
    object that breaks this makes [fetch] throw. *)
Definition byte_lowercase (c : N) : N :=
  if (65 <=? c) && (c <=? 90) then c + 32 else c.

Definition is_tchar (c : N) : bool :=
  ((48 <=? c) && (c <=? 57)) || ((65 <=? c) && (c <=? 90)) || ((97 <=? c) && (c <=? 122))
  || existsb (N.eqb c) [33; 35; 36; 37; 38; 39; 42; 43; 45; 46; 94; 95; 96; 124; 126].

Definition valid_name (name : jsstring) : bool := truthy name && forallb is_tchar name.

Definition is_http_whitespace (c : N) : bool :=
  (c =? 9) || (c =? 10) || (c =? 13) || (c =? 32).

Fixpoint strip_leading (v : jsstring) : jsstring :=
  match v with
  | c :: v' => if is_http_whitespace c then strip_leading v' else v
  | [] => []
  end.

Definition normalize (v : jsstring) : jsstring :=
  rev (strip_leading (rev (strip_leading v))).

Definition valid_value (v : jsstring) : bool :=
  forallb (fun c => (c <? 256) && negb ((c =? 0) || (c =? 10) || (c =? 13))) v.

(** The header list of the request, [None] when [fetch] throws. *)
Definition header_list (headers : list (jsstring * jsstring))
  : option (list (jsstring * jsstring)) :=
  if forallb (fun e => valid_name (fst e) && valid_value (normalize (snd e))) headers
  then Some (map (fun e => (map byte_lowercase (fst e), normalize (snd e))) headers)
  else None.

(** [req.headers[name]] at the server, for a lower-case [name] other than
    [set-cookie]: the values sent under that name, joined by a comma and a
    space. *)
Definition received (name : jsstring) (sent : list (jsstring * jsstring))
  : option jsstring :=
  match map snd (List.filter (fun e => str_eqb (fst e) name) sent) with
  | [] => None
  | v :: vs => Some (fold_left (fun joined x => joined ++ js ", " ++ x) vs v)
  end.

End ApiFetch.

(* ===================================================================== *)
(** * Friend lists: [GET /api/friends] on both servers                    *)
(* ===================================================================== *)

Module FriendList.

(** Postgres: [SELECT f.friend_id AS id, u.username FROM friends f JOIN users
    u ON u.id = f.friend_id WHERE f.user_id = $1], mapped to
    [{ id: String(r.id), username }]; the [friends] array of the answer. *)
Definition pg_get_friends (d : Pg.db) (u : Pg.req_user) : list friend_summary :=
  flat_map
    (fun f : Pg.friend_row =>
       if fst f =? Pg.ru_id u then
         map (fun usr => {| fs_id := String_N (Pg.u_id usr);
                            fs_username := Pg.u_username usr |})
             (List.filter (fun usr => Pg.u_id usr =? snd f) (Pg.users d))
       else [])
    (Pg.friends d).




End FriendList.

(* ===================================================================== *)
(** * The chat page ([ChatPage.tsx]): view state and socket frames        *)
(* ===================================================================== *)

Module ChatPage.
Import Hub.

Inductive sender := Me | Them.

(** The [Message] interface of the page. *)
Record view_message := {
  vm_id : jsstring;
  vm_sender : sender;
  vm_content : jsstring;
  vm_timestamp : jsstring;
  vm_encrypted : bool;
}.

(** [String(currentUser?.id ?? -1)]; [currentUser] is the stored
    [safeUser] or [null]. *)
Definition current_id (currentUser : option safe_user) : jsstring :=
  match currentUser with
  | Some u => su_id u
  | None => js "-1"
  end.

Section View.

(** [new Date(t).toLocaleTimeString([], { hour, minute })]. *)
Variable toLocaleTimeString : Z -> jsstring.
Variable currentUser : option safe_user.

(** The object built from a server message, in [fetchMessagesFor] and in
    [ws.onmessage] alike. *)
Definition view_of (msg : message) : view_message :=
  {| vm_id := msg_id msg;
     vm_sender := if str_eqb (msg_sender_id msg) (current_id currentUser)
                  then Me else Them;
     vm_content := msg_content msg;
     vm_timestamp := toLocaleTimeString (msg_created_at msg);
     vm_encrypted := true |}.

(** [fetchMessagesFor]: what [setMessages] receives from the response of
    [GET /api/messages]; [apiFetch] throws on a response that is not ok,
    and the [catch] leaves the state alone. *)
Definition fetchMessagesFor (token : jsstring) (r : response) (m : list view_message)
  : list view_message :=
  if negb (truthy token) then m
  else if negb ((200 <=? status r) && (status r <? 300)) then m
  else match body r with
       | MessagesBody ms => map view_of ms
       | _ => m
       end.

(** [ws.onmessage]: the state update for one parsed payload. *)
Definition onmessage (currentChatId : option jsstring) (p : payload)
    (m : list view_message) : list view_message :=
  match p with
  | MessageEvent msg =>
      if bool_decide (Some (msg_chat_id msg) = currentChatId) then
        if existsb (fun existing => str_eqb (vm_id existing) (msg_id msg)) m then m
        else m ++ [view_of msg]
      else m
  | _ => m
  end.

End View.

(** The frames [subscribeToChat] writes once the socket is open. *)
Definition subscribeToChat (previousChatId : option jsstring) (chatId : jsstring)
  : list frame :=
  (match previousChatId with
   | Some prev =>
       if truthy prev && negb (str_eqb prev chatId)
       then [unsubscribe_frame prev] else []
   | None => []
   end) ++ [subscribe_frame chatId].

End ChatPage.

(* ===================================================================== *)
(** * Properties                                                          *)
(* ===================================================================== *)

Import Chat Config.

(** ** Chat identity derivation *)

Section ChatIdentity.

Lemma str_lt_irrefl (a : jsstring) : str_lt a a = false.
Proof.
  induction a as [|x a IH]; simpl; [reflexivity|].
  rewrite N.ltb_irrefl. exact IH.
Qed.

Lemma str_lt_asym (a b : jsstring) : str_lt a b = true -> str_lt b a = false.
Proof.
  revert b. induction a as [|x a IH]; intros [|y b]; simpl; try congruence.
  destruct (N.ltb_spec x y), (N.ltb_spec y x); try congruence; try lia.
  apply IH.
Qed.

Lemma str_lt_total (a b : jsstring) :
  str_lt a b = false -> str_lt b a = false -> a = b.
Proof.
  revert b. induction a as [|x a IH]; intros [|y b]; simpl; try congruence.
  destruct (N.ltb_spec x y), (N.ltb_spec y x); try congruence.
  intros Hab Hba. assert (x = y) by lia. subst. f_equal. auto.
Qed.

(** C5. [makeChatId(a, b)] equals [makeChatId(b, a)] for all ids; two equal
    ids give the one value [chat_<a>_<a>]; and the result is a function of
    the string forms of its arguments alone. *)
Theorem makeChatId_symmetric :
  (forall a b : id, makeChatId a b = makeChatId b a) /\
  (forall a : id, makeChatId a a = js "chat_" ++ String_ a ++ js "_" ++ String_ a) /\
  (forall a b a' b' : id,
      String_ a = String_ a' /\ String_ b = String_ b' ->
      makeChatId a b = makeChatId a' b').
Proof.
  split; [|split].
  - intros a b. unfold makeChatId.
    destruct (str_lt (String_ a) (String_ b)) eqn:Hab.
    + rewrite (str_lt_asym _ _ Hab). reflexivity.
    + destruct (str_lt (String_ b) (String_ a)) eqn:Hba; [reflexivity|].
      rewrite (str_lt_total _ _ Hab Hba). reflexivity.
  - intros a. unfold makeChatId. rewrite str_lt_irrefl. reflexivity.
  - intros a b a' b' [Ha Hb]. unfold makeChatId. rewrite Ha, Hb. reflexivity.
Qed.

Lemma makeChatId_symmetric_witness :
  makeChatId (IdNum 12) (IdStr (js "9")) = makeChatId (IdStr (js "9")) (IdNum 12) /\
  makeChatId (IdNum 12) (IdStr (js "9")) = makeChatId (IdStr (js "12")) (IdNum 9).
Proof.
  split.
  - apply (proj1 makeChatId_symmetric).
  - apply (proj2 (proj2 makeChatId_symmetric)). split; reflexivity.
Defined.

End ChatIdentity.

(** ** The encryption key at process start *)

Section KeyAtStartup.

Definition default_key : jsstring := js "dev_key_32_bytes_long_for_demo!!".

(** An environment whose key is five bytes long. *)
Definition short_key_env : env :=
  {| env_JWT_SECRET := None; env_ENCRYPTION_KEY := Some (js "short") |}.

Lemma slice_prefix {A} (l : list A) (n : nat) :
  slice l 0 (Z.of_nat n) = firstn n l.
Proof.
  unfold slice. simpl.
  destruct (Z.ltb_spec (Z.of_nat n) 0) as [Hn|Hn]; [lia|].
  rewrite (Z.min_l 0) by lia. rewrite Z.sub_0_r.
  change (skipn (Z.to_nat 0) l) with l.
  destruct (Z.min_spec (Z.of_nat n) (Z.of_nat (length l))) as [[Hlt ->]|[Hge ->]].
  - rewrite Nat2Z.id. reflexivity.
  - rewrite Nat2Z.id. rewrite !firstn_all2 by lia. reflexivity.
Qed.

(** C1, as the code has it.  No key makes either server refuse to start:
    the configured key (or the built-in default when it is unset or empty)
    is padded with spaces when it has fewer than 32 code units and cut to
    its first 32 otherwise, so the key in use always has exactly 32 code
    units. *)
Theorem ENCRYPTION_KEY_padded_or_truncated (e : env) (db_ok : bool) :
  let k := or_else (env_ENCRYPTION_KEY e) default_key in
  start_pg e db_ok = Running (load e) /\
  start_mongo e true = Running (load e) /\
  cfg_key (load e) = ENCRYPTION_KEY e /\
  length (ENCRYPTION_KEY e) = 32%nat /\
  ENCRYPTION_KEY e =
    (if (length k <? 32)%nat then k ++ repeat 32 (32 - length k)%nat
     else firstn 32 k).
Proof.
  intros k. repeat split.
  - unfold ENCRYPTION_KEY. fold default_key. fold k.
    change 32%Z with (Z.of_nat 32). rewrite slice_prefix.
    unfold padEnd. rewrite length_firstn, length_app, repeat_length. lia.
  - unfold ENCRYPTION_KEY. fold default_key. fold k.
    change 32%Z with (Z.of_nat 32). rewrite slice_prefix. unfold padEnd.
    destruct (Nat.ltb_spec (length k) 32) as [Hlt|Hge].
    + apply firstn_all2. rewrite length_app, repeat_length. lia.
    + replace (32 - length k)%nat with 0%nat by lia. simpl.
      rewrite app_nil_r. reflexivity.
Qed.

(** C1 fails on the code: a five-byte key is accepted by both servers and
    silently padded to 32 bytes. *)
Lemma short_key_accepted :
  length (Utf8.encode (js "short")) = 5%nat /\
  start_pg short_key_env true = Running (load short_key_env) /\
  start_mongo short_key_env true = Running (load short_key_env) /\
  cfg_key (load short_key_env) = js "short                           " /\
  length (key_bytes short_key_env) = 32%nat.
Proof. repeat split. Qed.

End KeyAtStartup.

(** ** The JS [Map] operations *)

Section JsMapFacts.
Context {K V : Type} `{EqDecision K}.
Implicit Types (k : K) (v : V) (m : list (K * V)).

Lemma get_set_eq k v m : JsMap.get k (JsMap.set k v m) = Some v.
Proof.
  induction m as [|[k' v'] m IH]; simpl.
  - destruct (decide (k = k)); congruence.
  - destruct (decide (k = k')) as [->|Hne]; simpl.
    + destruct (decide (k' = k')); congruence.
    + destruct (decide (k = k')); [contradiction|exact IH].
Qed.

Lemma get_set_ne k k' v m :
  k <> k' -> JsMap.get k' (JsMap.set k v m) = JsMap.get k' m.
Proof.
  intros Hne. induction m as [|[k0 v0] m IH]; simpl.
  - destruct (decide (k' = k)); congruence.
  - destruct (decide (k = k0)) as [->|Hne0]; simpl.
    + destruct (decide (k' = k0)); congruence.
    + destruct (decide (k' = k0)); [reflexivity|exact IH].
Qed.

Lemma get_delete_eq k m : JsMap.get k (JsMap.delete k m) = None.
Proof.
  induction m as [|[k' v'] m IH]; simpl; [reflexivity|].
  destruct (bool_decide_reflect (k = k')) as [->|Hne]; simpl; [exact IH|].
  destruct (decide (k = k')); [contradiction|exact IH].
Qed.

Lemma get_delete_ne k k' m :
  k <> k' -> JsMap.get k' (JsMap.delete k m) = JsMap.get k' m.
Proof.
  intros Hne. induction m as [|[k0 v0] m IH]; simpl; [reflexivity|].
  destruct (bool_decide_reflect (k = k0)) as [->|Hne0]; simpl.
  - destruct (decide (k' = k0)); congruence.
  - destruct (decide (k' = k0)); [reflexivity|exact IH].
Qed.

Lemma get_None k m : k ∉ JsMap.keys m -> JsMap.get k m = None.
Proof.
  induction m as [|[k' v'] m IH]; simpl; [reflexivity|].
  rewrite not_elem_of_cons. intros [Hne Hn].
  destruct (decide (k = k')); [contradiction|auto].
Qed.

Lemma elem_of_keys_set k k' v m :
  k' ∈ JsMap.keys (JsMap.set k v m) <-> k' = k \/ k' ∈ JsMap.keys m.
Proof.
  induction m as [|[k0 v0] m IH]; simpl.
  - rewrite elem_of_cons. tauto.
  - destruct (decide (k = k0)) as [->|Hne]; simpl.
    + rewrite !elem_of_cons. tauto.
    + rewrite !elem_of_cons, IH. tauto.
Qed.

Lemma NoDup_keys_set k v m :
  NoDup (JsMap.keys m) -> NoDup (JsMap.keys (JsMap.set k v m)).
Proof.
  induction m as [|[k0 v0] m IH]; simpl; intros Hnd.
  - apply NoDup_singleton.
  - apply NoDup_cons in Hnd as [Hnotin Hnd].
    destruct (decide (k = k0)) as [->|Hne]; simpl.
    + apply NoDup_cons. split; assumption.
    + apply NoDup_cons. split; [|auto].
      rewrite elem_of_keys_set. intros [Heq|Hin]; [congruence|contradiction].
Qed.

Lemma elem_of_keys_delete k k' m :
  k' ∈ JsMap.keys (JsMap.delete k m) -> k' ∈ JsMap.keys m.
Proof.
  induction m as [|[k0 v0] m IH]; simpl; [tauto|].
  destruct (bool_decide (k = k0)); simpl; rewrite !elem_of_cons; tauto.
Qed.

Lemma NoDup_keys_delete k m :
  NoDup (JsMap.keys m) -> NoDup (JsMap.keys (JsMap.delete k m)).
Proof.
  induction m as [|[k0 v0] m IH]; simpl; intros Hnd; [constructor|].
  apply NoDup_cons in Hnd as [Hnotin Hnd].
  destruct (bool_decide (k = k0)); simpl; [auto|].
  apply NoDup_cons. split; [|auto].
  intros Hin. apply Hnotin. eapply elem_of_keys_delete, Hin.
Qed.

(** Setting a key twice keeps the later value only. *)
Lemma set_set k v v' m : JsMap.set k v' (JsMap.set k v m) = JsMap.set k v' m.
Proof.
  induction m as [|[k0 v0] m IH]; simpl.
  - destruct (decide (k = k)); congruence.
  - destruct (decide (k = k0)) as [->|Hne]; simpl.
    + destruct (decide (k0 = k0)); congruence.
    + destruct (decide (k = k0)); [contradiction|]. rewrite IH. reflexivity.
Qed.

End JsMapFacts.

(** ** Fan-out hub *)

Section Fanout.
Import Hub.

Implicit Types (h : hub) (C ws : conn) (X Y : jsstring) (p : payload).

(** The hub keeps one entry per socket. *)
Definition wf (h : hub) : Prop := NoDup (JsMap.keys (subs h)).

(** Whether socket [C] is registered with chat [X] in its set. *)
Definition subscribed (C : conn) (X : jsstring) (h : hub) : bool :=
  match JsMap.get C (subs h) with
  | Some set => has set X
  | None => false
  end.

(** What one broadcast of [p] on [X] writes to socket [C]. *)
Definition delivery (C : conn) (X : jsstring) (p : payload) (h : hub) : list payload :=
  if subscribed C X h && is_open (ready h C) then [p] else [].

Lemma ws_send_subs h ws p : subs (state_of (ws_send h ws p)) = subs h.
Proof. unfold ws_send. destruct (ready h ws); reflexivity. Qed.

Lemma ws_send_ready h ws p : ready (state_of (ws_send h ws p)) = ready h.
Proof. unfold ws_send. destruct (ready h ws); reflexivity. Qed.

(** The loop of [broadcastToChat] over any list of entries. *)
Definition loop X p (l : list (conn * gset jsstring)) h : hub :=
  fold_left
    (fun h e =>
       let '(ws, set) := e in
       if has set X && is_open (ready h ws) then state_of (ws_send h ws p) else h)
    l h.

Lemma broadcast_loop X p (l : list (conn * gset jsstring)) h :
  subs (loop X p l h) = subs h /\ ready (loop X p l h) = ready h /\
  sent (loop X p l h) = sent h ++
    map (fun e => (fst e, p))
        (List.filter (fun e => has (snd e) X && is_open (ready h (fst e))) l).
Proof.
  revert h. induction l as [|[ws set] l IH]; intros h.
  - simpl. rewrite app_nil_r. auto.
  - change (loop X p ((ws, set) :: l) h)
      with (loop X p l (if has set X && is_open (ready h ws)
                        then state_of (ws_send h ws p) else h)).
    cbn [List.filter fst snd].
    destruct (has set X && is_open (ready h ws)) eqn:Hc; [|apply IH].
    apply andb_true_iff in Hc as [_ Hopen].
    destruct (IH (state_of (ws_send h ws p))) as (Hs & Hrd & Hsent).
    rewrite Hs, Hrd, Hsent, ws_send_subs, ws_send_ready.
    unfold ws_send. destruct (ready h ws); try discriminate. simpl.
    rewrite <- app_assoc. auto.
Qed.

Lemma broadcast_subs h X p : subs (broadcastToChat h X p) = subs h.
Proof. apply (broadcast_loop X p (subs h) h). Qed.

Lemma broadcast_ready h X p : ready (broadcastToChat h X p) = ready h.
Proof. apply (broadcast_loop X p (subs h) h). Qed.

Lemma broadcast_sent h X p :
  sent (broadcastToChat h X p) =
  sent h ++ map (fun e => (fst e, p))
                (List.filter (fun e => has (snd e) X && is_open (ready h (fst e))) (subs h)).
Proof. apply (broadcast_loop X p (subs h) h). Qed.

(** Among the entries the loop writes to, socket [C] occurs at most once,
    and exactly when it is subscribed and open. *)
Lemma recipients_of C X p (rd : conn -> readyState) (l : list (conn * gset jsstring)) :
  NoDup (JsMap.keys l) ->
  map snd (List.filter (fun e : conn * payload => bool_decide (fst e = C))
             (map (fun e : conn * gset jsstring => (fst e, p))
                  (List.filter (fun e => has (snd e) X && is_open (rd (fst e))) l))) =
  match JsMap.get C l with
  | Some set => if has set X && is_open (rd C) then [p] else []
  | None => []
  end.
Proof.
  induction l as [|[k set] l IH]; simpl; intros Hnd; [reflexivity|].
  apply NoDup_cons in Hnd as [Hnotin Hnd]. specialize (IH Hnd).
  destruct (decide (C = k)) as [->|Hne].
  - rewrite (get_None k l Hnotin) in IH.
    destruct (has set X && is_open (rd k)); simpl.
    + rewrite bool_decide_true by reflexivity. simpl. rewrite IH. reflexivity.
    + exact IH.
  - destruct (has set X && is_open (rd k)); simpl; [|exact IH].
    rewrite bool_decide_false by congruence. exact IH.
Qed.

(** One broadcast appends [delivery C X p h] to what [C] has been sent. *)
Lemma broadcast_sent_to h C X p :
  wf h ->
  sent_to C (broadcastToChat h X p) = sent_to C h ++ delivery C X p h.
Proof.
  intros Hwf. unfold sent_to, delivery, subscribed.
  rewrite broadcast_sent, List.filter_app, map_app.
  rewrite (recipients_of C X p (ready h) (subs h) Hwf).
  destruct (JsMap.get C (subs h)); reflexivity.
Qed.


(** ** Reachable hubs *)

(** No set holds the empty chat id. *)
Definition truthy_sets (h : hub) : Prop :=
  forall ws set, JsMap.get ws (subs h) = Some set -> has set [] = false.

Lemma has_union set X Y : has ({[Y]} ∪ set) X = bool_decide (X = Y) || has set X.
Proof.
  unfold has. destruct (bool_decide_reflect (X = Y)) as [->|Hne]; simpl.
  - apply bool_decide_true. apply elem_of_union. left. apply elem_of_singleton. reflexivity.
  - apply bool_decide_ext. rewrite elem_of_union, elem_of_singleton. tauto.
Qed.

Lemma has_difference set X Y :
  has (set ∖ {[Y]}) X = negb (bool_decide (X = Y)) && has set X.
Proof.
  unfold has. destruct (bool_decide_reflect (X = Y)) as [->|Hne]; simpl.
  - apply bool_decide_false. rewrite elem_of_difference, elem_of_singleton. tauto.
  - apply bool_decide_ext. rewrite elem_of_difference, elem_of_singleton. tauto.
Qed.

Lemma subscribe_ne_unsubscribe : js "subscribe" <> js "unsubscribe".
Proof. vm_compute. discriminate. Qed.

Local Arguments js : simpl never.

(** The entries after a frame: what [on_message] does to [subs]. *)
Lemma on_message_subs h ws f :
  subs (on_message h ws f) =
  match f with
  | Parsed type (Some x) =>
      if truthy x then
        match JsMap.get ws (subs h) with
        | Some set =>
            if type_is "subscribe" type then JsMap.set ws ({[x]} ∪ set) (subs h)
            else if type_is "unsubscribe" type then JsMap.set ws (set ∖ {[x]}) (subs h)
            else subs h
        | None => subs h
        end
      else subs h
  | _ => subs h
  end.
Proof.
  destruct f as [|type [x|]]; simpl; try reflexivity.
  - destruct (truthy x) eqn:Hx; simpl.
    2:{ rewrite !andb_false_r. reflexivity. }
    rewrite !andb_true_r.
    destruct type as [t|]; simpl; [|destruct (JsMap.get ws (subs h)); reflexivity].
    unfold str_eqb.
    destruct (bool_decide_reflect (t = js "subscribe")) as [->|Hns].
    + rewrite bool_decide_false by apply subscribe_ne_unsubscribe.
      unfold do_subscribe. destruct (JsMap.get ws (subs h)) as [set|]; [|reflexivity].
      match goal with |- context [ws_send ?a ?b ?c] =>
        pose proof (ws_send_subs a b c) as Hs; destruct (ws_send a b c) end;
        simpl in *; exact Hs.
    + destruct (bool_decide_reflect (t = js "unsubscribe")) as [->|Hnu].
      * unfold do_unsubscribe. destruct (JsMap.get ws (subs h)) as [set|]; [|reflexivity].
        apply ws_send_subs.
      * destruct (JsMap.get ws (subs h)); reflexivity.
  - rewrite !andb_false_r. reflexivity.
Qed.

Lemma on_message_ready h ws f : ready (on_message h ws f) = ready h.
Proof.
  destruct f as [|type chatId]; simpl; [reflexivity|].
  assert (Hsub : forall h0 x, ready (state_of (do_subscribe h0 ws x)) = ready h0).
  { intros h0 x. unfold do_subscribe. destruct (JsMap.get ws (subs h0)); [|reflexivity].
    rewrite ws_send_ready. reflexivity. }
  assert (Hun : forall h0 x, ready (state_of (do_unsubscribe h0 ws x)) = ready h0).
  { intros h0 x. unfold do_unsubscribe. destruct (JsMap.get ws (subs h0)); [|reflexivity].
    rewrite ws_send_ready. reflexivity. }
  destruct (type_is "subscribe" type && negb (falsy chatId)).
  - specialize (Hsub h (or_else chatId [])).
    destruct (do_subscribe h ws (or_else chatId [])) as [h1|h1]; simpl in Hsub.
    + destruct (type_is "unsubscribe" type && negb (falsy chatId)); [|exact Hsub].
      rewrite Hun. exact Hsub.
    + exact Hsub.
  - destruct (type_is "unsubscribe" type && negb (falsy chatId)); [|reflexivity].
    apply Hun.
Qed.

Lemma step_wf h e : wf h -> wf (step h e).
Proof.
  unfold wf. intros Hwf. destruct e as [ws|ws f|ws|ws st|X p]; simpl.
  - apply NoDup_keys_set, Hwf.
  - rewrite on_message_subs. destruct f as [|type [x|]]; try exact Hwf.
    destruct (truthy x); [|exact Hwf].
    destruct (JsMap.get ws (subs h)); [|exact Hwf].
    destruct (type_is "subscribe" type); [apply NoDup_keys_set, Hwf|].
    destruct (type_is "unsubscribe" type); [apply NoDup_keys_set, Hwf|exact Hwf].
  - apply NoDup_keys_delete, Hwf.
  - exact Hwf.
  - rewrite broadcast_subs. exact Hwf.
Qed.

Lemma get_set_cases {V} ws C (v : V) (m : list (conn * V)) :
  JsMap.get C (JsMap.set ws v m) = if decide (ws = C) then Some v else JsMap.get C m.
Proof.
  destruct (decide (ws = C)) as [->|Hne]; [apply get_set_eq|apply get_set_ne, Hne].
Qed.

Lemma get_delete_cases {V} ws C (m : list (conn * V)) :
  JsMap.get C (JsMap.delete ws m) = if decide (ws = C) then None else JsMap.get C m.
Proof.
  destruct (decide (ws = C)) as [->|Hne]; [apply get_delete_eq|apply get_delete_ne, Hne].
Qed.

Lemma step_truthy_sets h e : truthy_sets h -> truthy_sets (step h e).
Proof.
  unfold truthy_sets. intros Hts. destruct e as [ws|ws f|ws|ws st|X p]; simpl.
  - intros C set. rewrite get_set_cases. destruct (decide (ws = C)); [|apply Hts].
    intros [= <-]. reflexivity.
  - rewrite on_message_subs. destruct f as [|type [x|]]; try exact Hts.
    destruct (truthy x) eqn:Hx; [|exact Hts].
    destruct (JsMap.get ws (subs h)) as [set0|] eqn:Hg; [|exact Hts].
    assert (Hx' : forall b, bool_decide (@nil N = x) || b = b).
    { intros b. rewrite bool_decide_false; [reflexivity|]. intros <-. discriminate. }
    assert (Hx2 : forall b, negb (bool_decide (@nil N = x)) && b = b).
    { intros b. rewrite bool_decide_false; [reflexivity|]. intros <-. discriminate. }
    destruct (type_is "subscribe" type); [|destruct (type_is "unsubscribe" type)];
      try exact Hts; intros C set; rewrite get_set_cases;
      (destruct (decide (ws = C)); [|apply Hts]); intros [= <-].
    + rewrite has_union. etransitivity; [apply Hx'|]. eapply Hts, Hg.
    + rewrite has_difference. etransitivity; [apply Hx2|]. eapply Hts, Hg.
  - intros C set. rewrite get_delete_cases. destruct (decide (ws = C)); [discriminate|apply Hts].
  - exact Hts.
  - rewrite broadcast_subs. exact Hts.
Qed.

Lemma run_invariants evs : wf (run init evs) /\ truthy_sets (run init evs).
Proof.
  unfold run. rewrite <- (rev_involutive evs). induction (rev evs) as [|e l IH]; simpl.
  - split; [apply NoDup_nil_2|]. intros ws set. discriminate.
  - rewrite fold_left_app. simpl. destruct IH as [Hwf Hts].
    split; [apply step_wf, Hwf|apply step_truthy_sets, Hts].
Qed.

(** A hub with socket 1 open and subscribed to two chats. *)
Definition two_chat_hub : hub :=
  run init [Connection 1%nat;
            Message 1%nat (subscribe_frame (js "x"));
            Message 1%nat (subscribe_frame (js "y"))].

Definition hello : payload :=
  MessageEvent {| msg_id := js "1"; msg_chat_id := js "y"; msg_sender_id := js "7";
                  msg_content := js "hi"; msg_created_at := 0 |}.



(** ** After unsubscribe or disconnect *)

(** Event [e] is a subscribe frame of socket [C] for chat [X]. *)
Definition resubscribes (C : conn) (X : jsstring) (e : event) : bool :=
  match e with
  | Message ws (Parsed type (Some x)) =>
      bool_decide (ws = C) && type_is "subscribe" type && bool_decide (x = X)
  | _ => false
  end.

Lemma has_empty X : has ∅ X = false.
Proof. apply bool_decide_false, not_elem_of_empty. Qed.

Lemma step_quiet h C X e :
  subscribed C X h = false -> resubscribes C X e = false ->
  subscribed C X (step h e) = false.
Proof.
  unfold subscribed. intros Hq Hre. destruct e as [ws|ws f|ws|ws st|Y p]; simpl.
  - rewrite get_set_cases. destruct (decide (ws = C)); [apply has_empty|exact Hq].
  - rewrite on_message_subs. destruct f as [|type [x|]]; try exact Hq.
    destruct (truthy x); [|exact Hq].
    destruct (JsMap.get ws (subs h)) as [set|] eqn:Hg; [|exact Hq].
    simpl in Hre.
    destruct (type_is "subscribe" type); [|destruct (type_is "unsubscribe" type)];
      try exact Hq; rewrite get_set_cases;
      (destruct (decide (ws = C)) as [->|Hne]; [|exact Hq]); rewrite Hg in Hq.
    + rewrite has_union, Hq, orb_false_r.
      rewrite bool_decide_true in Hre by reflexivity. simpl in Hre.
      apply bool_decide_false. apply bool_decide_eq_false in Hre. congruence.
    + rewrite has_difference, Hq. apply andb_false_r.
  - rewrite get_delete_cases. destruct (decide (ws = C)); [reflexivity|exact Hq].
  - exact Hq.
  - rewrite broadcast_subs. exact Hq.
Qed.

Lemma run_quiet evs h C X :
  wf h -> subscribed C X h = false ->
  forallb (fun e => negb (resubscribes C X e)) evs = true ->
  wf (run h evs) /\ subscribed C X (run h evs) = false.
Proof.
  revert h. induction evs as [|e evs IH]; intros h Hwf Hq Hall; simpl in *; [auto|].
  apply andb_true_iff in Hall as [He Hall]. apply negb_true_iff in He.
  apply IH; [apply step_wf, Hwf|apply step_quiet; assumption|exact Hall].
Qed.

Lemma unsubscribe_quiet h C X :
  truthy_sets h -> subscribed C X (on_message h C (unsubscribe_frame X)) = false.
Proof.
  intros Hts. unfold subscribed, unsubscribe_frame. rewrite on_message_subs.
  destruct (truthy X) eqn:HX.
  - destruct (JsMap.get C (subs h)) as [set|] eqn:Hg; [|rewrite Hg; reflexivity].
    replace (type_is "subscribe" (Some (js "unsubscribe"))) with false by reflexivity.
    replace (type_is "unsubscribe" (Some (js "unsubscribe"))) with true by reflexivity.
    rewrite get_set_eq, has_difference, bool_decide_true by reflexivity. reflexivity.
  - destruct X; [|discriminate].
    destruct (JsMap.get C (subs h)) as [set|] eqn:Hg; [|reflexivity].
    eapply Hts, Hg.
Qed.

Lemma close_quiet h C X : subscribed C X (on_close h C) = false.
Proof. unfold subscribed, on_close. simpl. rewrite get_delete_eq. reflexivity. Qed.

(** C7.  Take any reachable hub, let it process an unsubscribe frame of
    socket [C] for chat [X], or the close of [C], and then any further
    events among which [C] does not subscribe to [X] again: in the hub so
    reached a broadcast on [X] writes nothing to [C]. *)
Theorem no_delivery_after_unsubscribe_or_close
    (before : list event) (C : conn) (X : jsstring) (e : event)
    (after : list event) (p : payload) :
  e = Message C (unsubscribe_frame X) \/ e = Close C ->
  forallb (fun e' => negb (resubscribes C X e')) after = true ->
  sent_to C (broadcastToChat (run (step (run init before) e) after) X p) =
  sent_to C (run (step (run init before) e) after).
Proof.
  intros He Hafter.
  destruct (run_invariants before) as [Hwf Hts].
  assert (Hq : subscribed C X (step (run init before) e) = false).
  { destruct He as [-> | ->]; simpl; [apply unsubscribe_quiet, Hts|apply close_quiet]. }
  destruct (run_quiet after _ C X (step_wf _ e Hwf) Hq Hafter) as [Hwf' Hq'].
  rewrite (broadcast_sent_to _ C X p Hwf'). unfold delivery. rewrite Hq'.
  apply app_nil_r.
Qed.

Lemma no_delivery_after_unsubscribe_or_close_witness :
  sent_to 1%nat
    (run init [Connection 1%nat; Message 1%nat (subscribe_frame (js "x"));
               Message 1%nat (unsubscribe_frame (js "x"));
               Message 1%nat (subscribe_frame (js "y"));
               Broadcast (js "x") hello])
  = [Subscribed (js "x"); Unsubscribed (js "x"); Subscribed (js "y")].
Proof.
  pose proof (no_delivery_after_unsubscribe_or_close
                [Connection 1%nat; Message 1%nat (subscribe_frame (js "x"))]
                1%nat (js "x") (Message 1%nat (unsubscribe_frame (js "x")))
                [Message 1%nat (subscribe_frame (js "y"))] hello
                (or_introl eq_refl) eq_refl) as H.
  etransitivity; [exact H|]. reflexivity.
Defined.

(** ** Subscribing twice *)

Lemma subscribe_subs h C X :
  subs (on_message h C (subscribe_frame X)) =
  if truthy X then
    match JsMap.get C (subs h) with
    | Some set => JsMap.set C ({[X]} ∪ set) (subs h)
    | None => subs h
    end
  else subs h.
Proof.
  unfold subscribe_frame. rewrite on_message_subs.
  replace (type_is "subscribe" (Some (js "subscribe"))) with true by reflexivity.
  reflexivity.
Qed.

(** C10.  For a registered socket [C] and a chat [X], a second subscribe
    frame leaves [subs] as the first one left it, and a broadcast on [X]
    that follows writes one frame to [C] while its transport is open, never
    two. *)
Theorem subscribe_twice_is_once (h : hub) (C : conn) (set : gset jsstring)
    (X : jsstring) (p : payload) :
  wf h ->
  JsMap.get C (subs h) = Some set ->
  truthy X = true ->
  let once := on_message h C (subscribe_frame X) in
  let twice := on_message once C (subscribe_frame X) in
  subs twice = subs once /\
  sent_to C (broadcastToChat twice X p) =
    sent_to C twice ++ (if is_open (ready h C) then [p] else []).
Proof.
  intros Hwf Hget HX once twice.
  assert (Honce : subs once = JsMap.set C ({[X]} ∪ set) (subs h)).
  { unfold once. rewrite subscribe_subs, HX, Hget. reflexivity. }
  assert (Htwice : subs twice = subs once).
  { unfold twice. rewrite subscribe_subs, HX, Honce, get_set_eq, set_set.
    f_equal. apply set_eq. intros x.
    rewrite !elem_of_union. tauto. }
  split; [exact Htwice|].
  assert (Hwf2 : wf twice).
  { apply (step_wf once (Message C (subscribe_frame X))).
    apply (step_wf h (Message C (subscribe_frame X))), Hwf. }
  rewrite (broadcast_sent_to twice C X p Hwf2). unfold delivery, subscribed.
  rewrite Htwice, Honce, get_set_eq, has_union, bool_decide_true by reflexivity.
  unfold twice, once. rewrite !on_message_ready. reflexivity.
Qed.

Lemma subscribe_twice_is_once_witness :
  subs (run init [Connection 1%nat; Message 1%nat (subscribe_frame (js "x"));
                  Message 1%nat (subscribe_frame (js "x"))])
  = subs (run init [Connection 1%nat; Message 1%nat (subscribe_frame (js "x"))]) /\
  sent_to 1%nat
    (run init [Connection 1%nat; Message 1%nat (subscribe_frame (js "x"));
               Message 1%nat (subscribe_frame (js "x")); Broadcast (js "x") hello])
  = [Subscribed (js "x"); Subscribed (js "x"); hello].
Proof.
  assert (Hwf : wf (run init [Connection 1%nat]))
    by (apply (bool_decide_unpack _); vm_compute; exact I).
  assert (Hget : JsMap.get 1%nat (subs (run init [Connection 1%nat])) = Some ∅)
    by reflexivity.
  destruct (subscribe_twice_is_once (run init [Connection 1%nat]) 1%nat ∅ (js "x") hello
              Hwf Hget eq_refl) as [Hs Hd].
  split; [exact Hs|]. etransitivity; [exact Hd|]. reflexivity.
Defined.

End Fanout.

(** ** Login *)

Section Login.
Context `{Bcrypt} `{Jwt}.

(** X30.  With a password that is a string, a database in which no user
    matches the identifier and a database in which a user matches but the
    password does not verify give the same response: status 400 with the
    same error text (["Invalid credentials"] once both fields are
    present). *)
Theorem login_failures_indistinguishable
    (JWT_SECRET : jsstring) (absent present : Pg.db) (b : Pg.login_body)
    (user : Pg.user_row) (password : jsstring) :
  let identifier := or_else (or_opt (Pg.lb_usernameOrEmail b) (Pg.lb_username b)) [] in
  Pg.lb_password b = Some (Str password) ->
  Pg.find_user absent identifier = None ->
  Pg.find_user present identifier = Some user ->
  bcrypt_compare password (Pg.u_password_hash user) = false ->
  Pg.login JWT_SECRET absent b = Pg.login JWT_SECRET present b /\
  Pg.login JWT_SECRET absent b =
    (if falsy (or_opt (Pg.lb_usernameOrEmail b) (Pg.lb_username b))
        || negb (truthy password)
     then fail 400 "username/email and password required"
     else fail 400 "Invalid credentials").
Proof.
  intros identifier Hpw Hnone Hsome Hbad. unfold Pg.login. fold identifier.
  rewrite Hpw. cbn [field_falsy].
  destruct (falsy (or_opt (Pg.lb_usernameOrEmail b) (Pg.lb_username b))
            || negb (truthy password)); [split; reflexivity|].
  rewrite Hnone, Hsome. cbn [given bcrypt_compare_any]. rewrite Hbad.
  split; reflexivity.
Qed.

End Login.

(** A stand-in password check and token for examples: the stored hash is
    the password behind a prefix, the token the user id behind the secret. *)
Definition demo_bcrypt : Bcrypt :=
  {| bcrypt_compare := fun password hash => str_eqb (js "$2a$10$" ++ password) hash |}.

Definition demo_jwt : Jwt :=
  {| jwt_sign := fun payload secret => secret ++ js "." ++ su_id payload |}.

Definition alice : Pg.user_row :=
  {| Pg.u_id := 1; Pg.u_username := js "alice"; Pg.u_email := Some (js "alice@example.org");
     Pg.u_password_hash := js "$2a$10$wonderland" |}.

Definition bob : Pg.user_row :=
  {| Pg.u_id := 2; Pg.u_username := js "bob"; Pg.u_email := None;
     Pg.u_password_hash := js "$2a$10$builder" |}.

Definition empty_pg : Pg.db :=
  {| Pg.users := []; Pg.messages := []; Pg.messages_seq := 0; Pg.friends := [] |}.

Definition two_users : Pg.db :=
  {| Pg.users := [alice; bob]; Pg.messages := []; Pg.messages_seq := 0; Pg.friends := [] |}.

Definition wrong_guess : Pg.login_body :=
  {| Pg.lb_usernameOrEmail := Some (js "alice@example.org");
     Pg.lb_username := None; Pg.lb_password := Some (Str (js "guess")) |}.

Lemma login_failures_indistinguishable_witness :
  @Pg.login demo_bcrypt demo_jwt (js "dev_jwt_secret") empty_pg wrong_guess =
  @Pg.login demo_bcrypt demo_jwt (js "dev_jwt_secret") two_users wrong_guess /\
  @Pg.login demo_bcrypt demo_jwt (js "dev_jwt_secret") empty_pg wrong_guess =
  fail 400 "Invalid credentials".
Proof.
  exact (@login_failures_indistinguishable demo_bcrypt demo_jwt (js "dev_jwt_secret")
           empty_pg two_users wrong_guess alice (js "guess") eq_refl eq_refl eq_refl eq_refl).
Defined.

(** The body [{ "username": "alice", "password": 1 }]: the password is a
    number. *)
Definition number_password : Pg.login_body :=
  {| Pg.lb_usernameOrEmail := None; Pg.lb_username := Some (js "alice");
     Pg.lb_password := Some (NotStr true) |}.

(** C9, where the code departs from it.  A password that is a JSON number
    tells a registered identifier from an unknown one: nobody is called
    alice in the empty database and the answer is 400 ["Invalid
    credentials"]; with alice registered [bcrypt.compare] is reached, rejects
    its argument, and the answer is 500 ["Internal server error"]. *)
Theorem login_number_password_tells_accounts_apart :
  @Pg.login demo_bcrypt demo_jwt (js "dev_jwt_secret") empty_pg number_password
  = fail 400 "Invalid credentials" /\
  @Pg.login demo_bcrypt demo_jwt (js "dev_jwt_secret") two_users number_password
  = fail 500 "Internal server error".
Proof. split; reflexivity. Qed.

(** ** Friendship edges *)

Section Friends.

Lemma digits_inj (d e : uint) : digits d = digits e -> d = e.
Proof.
  revert e. induction d; intros e; destruct e; simpl; intros Heq;
    try discriminate; try reflexivity;
    injection Heq as Heq; f_equal; auto.
Qed.

Lemma String_N_inj (m n : N) : String_N m = String_N n -> m = n.
Proof.
  unfold String_N. intros Heq. apply digits_inj in Heq.
  rewrite <- (DecimalN.Unsigned.of_to m), <- (DecimalN.Unsigned.of_to n), Heq.
  reflexivity.
Qed.

Lemma find_app {A} (f : A -> bool) (l1 l2 : list A) :
  List.find f (l1 ++ l2) =
  match List.find f l1 with Some x => Some x | None => List.find f l2 end.
Proof.
  induction l1 as [|x l1 IH]; simpl; [reflexivity|].
  destruct (f x); [reflexivity|exact IH].
Qed.

(** *** Postgres *)

Definition pg_edge (a b : N) (r : Pg.friend_row) : bool :=
  (fst r =? a) && (snd r =? b).

(** The rows [(a, b)] of [friends]. *)
Definition pg_edges (a b : N) (d : Pg.db) : nat :=
  length (List.filter (pg_edge a b) (Pg.friends d)).

Lemma pg_find_user_exists d ident u :
  Pg.find_user d ident = Some u -> Pg.user_exists d (Pg.u_id u) = true.
Proof.
  unfold Pg.find_user, Pg.user_exists. intros Hf.
  apply List.find_some in Hf as [Hin _].
  apply existsb_exists. exists u. split; [exact Hin|apply N.eqb_refl].
Qed.

Lemma pg_edges_present a b d :
  existsb (pg_edge a b) (Pg.friends d) = true -> (1 <= pg_edges a b d)%nat.
Proof.
  unfold pg_edges. induction (Pg.friends d) as [|r l IH]; simpl; [discriminate|].
  destruct (pg_edge a b r); simpl; [lia|exact IH].
Qed.

Lemma pg_edges_absent a b d :
  existsb (pg_edge a b) (Pg.friends d) = false -> pg_edges a b d = 0%nat.
Proof.
  unfold pg_edges. induction (Pg.friends d) as [|r l IH]; simpl; [reflexivity|].
  destruct (pg_edge a b r); simpl; [discriminate|exact IH].
Qed.

Lemma pg_upsert_unfold d a b :
  Pg.upsert_friend d a b =
  if existsb (pg_edge a b) (Pg.friends d) then Ok d
  else if Pg.user_exists d a && Pg.user_exists d b then
    Ok {| Pg.users := Pg.users d; Pg.messages := Pg.messages d;
          Pg.messages_seq := Pg.messages_seq d;
          Pg.friends := Pg.friends d ++ [(a, b)] |}
  else Throw ForeignKeyViolation.
Proof. reflexivity. Qed.

(** What one upsert does when both users exist. *)
Lemma pg_upsert_spec d a b :
  Pg.user_exists d a = true -> Pg.user_exists d b = true ->
  exists d', Pg.upsert_friend d a b = Ok d' /\
    Pg.users d' = Pg.users d /\
    existsb (pg_edge a b) (Pg.friends d') = true /\
    pg_edges a b d' = Nat.max 1 (pg_edges a b d) /\
    (forall a' b', (a', b') <> (a, b) ->
       pg_edges a' b' d' = pg_edges a' b' d /\
       existsb (pg_edge a' b') (Pg.friends d') = existsb (pg_edge a' b') (Pg.friends d)) /\
    (existsb (pg_edge a b) (Pg.friends d) = true -> d' = d).
Proof.
  intros Ha Hb. rewrite pg_upsert_unfold.
  destruct (existsb (pg_edge a b) (Pg.friends d)) eqn:Hex.
  - exists d. repeat split; auto.
    pose proof (pg_edges_present a b d Hex). lia.
  - rewrite Ha, Hb. simpl. eexists. split; [reflexivity|]. simpl.
    assert (Hself : pg_edge a b (a, b) = true).
    { unfold pg_edge. simpl. rewrite !N.eqb_refl. reflexivity. }
    repeat split.
    + rewrite existsb_app. simpl. rewrite Hself. apply orb_true_iff. right. reflexivity.
    + unfold pg_edges. simpl. rewrite List.filter_app, length_app. simpl. rewrite Hself.
      pose proof (pg_edges_absent a b d Hex) as H0. unfold pg_edges in H0.
      rewrite H0. reflexivity.
    + unfold pg_edges. simpl. rewrite List.filter_app, length_app. simpl.
      replace (pg_edge a' b' (a, b)) with false; [simpl; lia|].
      symmetry. unfold pg_edge. simpl.
      destruct (N.eqb_spec a a'), (N.eqb_spec b b'); simpl; congruence.
    + rewrite existsb_app. simpl.
      replace (pg_edge a' b' (a, b)) with false; [rewrite !orb_false_r; reflexivity|].
      symmetry. unfold pg_edge. simpl.
      destruct (N.eqb_spec a a'), (N.eqb_spec b b'); simpl; congruence.
    + discriminate.
Qed.

(** *** MongoDB *)

Definition mongo_edge (a b : Mongo.oid) (r : Mongo.friend_doc) : bool :=
  str_eqb (fst r) a && str_eqb (snd r) b.

Lemma str_eqb_refl (s : jsstring) : str_eqb s s = true.
Proof. apply bool_decide_true. reflexivity. Qed.

Lemma str_eqb_ne (s t : jsstring) : s <> t -> str_eqb s t = false.
Proof. apply bool_decide_false. Qed.

(** C3, as the code has it.  Let the identifier resolve to user [B], the
    caller [A] be another existing user, and the stored edges respect the
    uniqueness of ordered pairs.  On the Postgres server two calls both
    answer 200 with [B]'s summary, the second changes nothing, and exactly
    one edge [(A, B)] and one edge [(B, A)] are stored.  On the MongoDB
    server, for a pair with no edge yet, the first call answers 200 and
    stores the two edges, and the second answers 400 ["Already friends"] and
    stores nothing: two edges, never four. *)
Theorem add_friend_twice :
  (forall (d : Pg.db) (A B : Pg.user_row) (ident : jsstring),
      truthy ident = true ->
      Pg.find_user d ident = Some B ->
      Pg.user_exists d (Pg.u_id A) = true ->
      Pg.u_id A <> Pg.u_id B ->
      (pg_edges (Pg.u_id A) (Pg.u_id B) d <= 1)%nat ->
      (pg_edges (Pg.u_id B) (Pg.u_id A) d <= 1)%nat ->
      let caller := {| Pg.ru_id := Pg.u_id A; Pg.ru_username := Pg.u_username A |} in
      let body := {| Pg.fb_username := None; Pg.fb_identifier := Some ident |} in
      let first := Pg.add_friend d caller body in
      let second := Pg.add_friend (fst first) caller body in
      snd first = ok (FriendBody {| fs_id := String_N (Pg.u_id B);
                                    fs_username := Pg.u_username B |}) /\
      snd second = snd first /\
      fst second = fst first /\
      pg_edges (Pg.u_id A) (Pg.u_id B) (fst second) = 1%nat /\
      pg_edges (Pg.u_id B) (Pg.u_id A) (fst second) = 1%nat) /\
  (forall (unique_pair : bool) (m : Mongo.db) (A' B' : Mongo.user_doc) (ident' : jsstring),
      truthy ident' = true ->
      Mongo.find_user m ident' = Some B' ->
      Mongo.u_id A' <> Mongo.u_id B' ->
      Mongo.find_friend m (Mongo.u_id A') (Mongo.u_id B') = None ->
      Mongo.find_friend m (Mongo.u_id B') (Mongo.u_id A') = None ->
      let caller' := {| Mongo.ru_id := Mongo.u_id A';
                        Mongo.ru_username := Mongo.u_username A' |} in
      let body' := {| Mongo.fb_username := None; Mongo.fb_identifier := Some ident' |} in
      let first' := Mongo.add_friend unique_pair m caller' body' in
      let second' := Mongo.add_friend unique_pair (fst first') caller' body' in
      snd first' = ok (FriendBody {| fs_id := Mongo.u_id B';
                                     fs_username := Mongo.u_username B' |}) /\
      snd second' = fail 400 "Already friends" /\
      fst second' = fst first' /\
      Mongo.friends (fst second') =
        Mongo.friends m ++ [(Mongo.u_id A', Mongo.u_id B'); (Mongo.u_id B', Mongo.u_id A')]).
Proof.
  split.
  - (* Postgres *)
    intros d A B ident Hid Hfind HA Hne HAB HBA caller body first second.
    pose proof (pg_find_user_exists d ident B Hfind) as HB.
    assert (Hself : str_eqb (String_N (Pg.u_id B)) (String_N (Pg.u_id A)) = false).
    { apply str_eqb_ne. intros Heq. apply String_N_inj in Heq. congruence. }
    destruct (pg_upsert_spec d (Pg.u_id A) (Pg.u_id B) HA HB)
      as (d1 & Hup1 & Hu1 & Hex1 & Hcnt1 & Hoth1 & _).
    assert (HB1 : Pg.user_exists d1 (Pg.u_id B) = true)
      by (unfold Pg.user_exists; rewrite Hu1; exact HB).
    assert (HA1 : Pg.user_exists d1 (Pg.u_id A) = true)
      by (unfold Pg.user_exists; rewrite Hu1; exact HA).
    destruct (pg_upsert_spec d1 (Pg.u_id B) (Pg.u_id A) HB1 HA1)
      as (d2 & Hup2 & Hu2 & Hex2 & Hcnt2 & Hoth2 & _).
    assert (Hpair : (Pg.u_id A, Pg.u_id B) <> (Pg.u_id B, Pg.u_id A)) by congruence.
    assert (Hfirst : first = (d2, ok (FriendBody {| fs_id := String_N (Pg.u_id B);
                                                   fs_username := Pg.u_username B |}))).
    { unfold first, Pg.add_friend, body.
      cbn [Pg.fb_identifier Pg.fb_username Pg.ru_id caller or_opt]. rewrite Hid.
      cbn [or_else falsy]. rewrite Hid. cbn [negb].
      rewrite Hfind, Hself, Hup1, Hup2. reflexivity. }
    (* the second call finds both rows in place *)
    assert (HA2 : Pg.user_exists d2 (Pg.u_id A) = true)
      by (unfold Pg.user_exists; rewrite Hu2, Hu1; exact HA).
    assert (HB2 : Pg.user_exists d2 (Pg.u_id B) = true)
      by (unfold Pg.user_exists; rewrite Hu2, Hu1; exact HB).
    assert (Hex12 : existsb (pg_edge (Pg.u_id A) (Pg.u_id B)) (Pg.friends d2) = true).
    { rewrite (proj2 (Hoth2 _ _ Hpair)). exact Hex1. }
    destruct (pg_upsert_spec d2 (Pg.u_id A) (Pg.u_id B) HA2 HB2)
      as (d3 & Hup3 & _ & _ & _ & _ & Hsame3).
    specialize (Hsame3 Hex12). subst d3.
    destruct (pg_upsert_spec d2 (Pg.u_id B) (Pg.u_id A) HB2 HA2)
      as (d4 & Hup4 & _ & _ & _ & _ & Hsame4).
    specialize (Hsame4 Hex2). subst d4.
    assert (Hfind2 : Pg.find_user d2 ident = Some B).
    { unfold Pg.find_user. rewrite Hu2, Hu1. exact Hfind. }
    assert (Hsecond : second = first).
    { unfold second. rewrite Hfirst. unfold Pg.add_friend, body.
      cbn [fst Pg.fb_identifier Pg.fb_username Pg.ru_id caller or_opt]. rewrite Hid.
      cbn [or_else falsy]. rewrite Hid. cbn [negb].
      rewrite Hfind2, Hself, Hup3, Hup4. reflexivity. }
    rewrite Hsecond, Hfirst. simpl. repeat split.
    + rewrite (proj1 (Hoth2 _ _ Hpair)), Hcnt1. lia.
    + rewrite Hcnt2. rewrite (proj1 (Hoth1 (Pg.u_id B) (Pg.u_id A) (not_eq_sym Hpair))). lia.
  - (* MongoDB *)
    intros unique_pair m A' B' ident' Hid' Hfind' Hne' Hnone1 Hnone2
           caller' body' first' second'.
    assert (Hself : str_eqb (Mongo.u_id B') (Mongo.u_id A') = false)
      by (apply str_eqb_ne; congruence).
    set (m1 := {| Mongo.users := Mongo.users m; Mongo.messages := Mongo.messages m;
                  Mongo.friends := Mongo.friends m ++ [(Mongo.u_id A', Mongo.u_id B')] |}).
    set (m2 := {| Mongo.users := Mongo.users m; Mongo.messages := Mongo.messages m;
                  Mongo.friends := (Mongo.friends m ++ [(Mongo.u_id A', Mongo.u_id B')])
                                     ++ [(Mongo.u_id B', Mongo.u_id A')] |}).
    assert (Hsave1 : Mongo.save_friend unique_pair m (Mongo.u_id A') (Mongo.u_id B') = Ok m1).
    { unfold Mongo.save_friend. rewrite Hnone1.
      rewrite bool_decide_false by (intros [? [=]]). rewrite andb_false_r. reflexivity. }
    assert (Hnone21 : Mongo.find_friend m1 (Mongo.u_id B') (Mongo.u_id A') = None).
    { unfold Mongo.find_friend in *. simpl. rewrite find_app, Hnone2. simpl.
      rewrite (str_eqb_ne (Mongo.u_id A') (Mongo.u_id B') Hne'). reflexivity. }
    assert (Hsave2 : Mongo.save_friend unique_pair m1 (Mongo.u_id B') (Mongo.u_id A') = Ok m2).
    { unfold Mongo.save_friend. rewrite Hnone21.
      rewrite bool_decide_false by (intros [? [=]]). rewrite andb_false_r. reflexivity. }
    assert (Hfirst : first' = (m2, ok (FriendBody {| fs_id := Mongo.u_id B';
                                                    fs_username := Mongo.u_username B' |}))).
    { unfold first', Mongo.add_friend, body'.
      cbn [Mongo.fb_identifier Mongo.fb_username Mongo.ru_id caller' or_opt]. rewrite Hid'.
      cbn [or_else falsy]. rewrite Hid'. cbn [negb].
      rewrite Hfind', Hself, Hnone1, Hsave1, Hsave2. reflexivity. }
    assert (Hfound : Mongo.find_friend m2 (Mongo.u_id A') (Mongo.u_id B')
                     = Some (Mongo.u_id A', Mongo.u_id B')).
    { unfold Mongo.find_friend in *. simpl. rewrite <- app_assoc, find_app, Hnone1. simpl.
      rewrite !str_eqb_refl. reflexivity. }
    assert (Hsecond : second' = (m2, fail 400 "Already friends")).
    { unfold second'. rewrite Hfirst. unfold Mongo.add_friend, body'.
      cbn [fst Mongo.fb_identifier Mongo.fb_username Mongo.ru_id caller' or_opt]. rewrite Hid'.
      cbn [or_else falsy]. rewrite Hid'. cbn [negb].
      change (Mongo.find_user m2 ident') with (Mongo.find_user m ident').
      rewrite Hfind', Hself, Hfound. reflexivity. }
    rewrite Hsecond, Hfirst. simpl. rewrite <- app_assoc. repeat split.
Qed.

Definition alice_doc : Mongo.user_doc :=
  {| Mongo.u_id := js "65a000000000000000000001"; Mongo.u_username := js "alice";
     Mongo.u_email := None; Mongo.u_password_hash := js "$2a$10$wonderland" |}.

Definition bob_doc : Mongo.user_doc :=
  {| Mongo.u_id := js "65a000000000000000000002"; Mongo.u_username := js "bob";
     Mongo.u_email := None; Mongo.u_password_hash := js "$2a$10$builder" |}.

Definition two_docs : Mongo.db :=
  {| Mongo.users := [alice_doc; bob_doc]; Mongo.messages := []; Mongo.friends := [] |}.

Definition alice_pg : Pg.req_user := {| Pg.ru_id := 1; Pg.ru_username := js "alice" |}.

Definition alice_mongo : Mongo.req_user :=
  {| Mongo.ru_id := js "65a000000000000000000001"; Mongo.ru_username := js "alice" |}.

Definition add_bob_pg : Pg.friend_body :=
  {| Pg.fb_username := None; Pg.fb_identifier := Some (js "bob") |}.

Definition add_bob_mongo : Mongo.friend_body :=
  {| Mongo.fb_username := None; Mongo.fb_identifier := Some (js "bob") |}.

Lemma add_friend_twice_witness :
  Pg.friends (fst (Pg.add_friend (fst (Pg.add_friend two_users alice_pg add_bob_pg))
                                 alice_pg add_bob_pg)) = [(1, 2); (2, 1)] /\
  snd (Pg.add_friend (fst (Pg.add_friend two_users alice_pg add_bob_pg))
                     alice_pg add_bob_pg)
  = ok (FriendBody {| fs_id := js "2"; fs_username := js "bob" |}) /\
  Mongo.add_friend true (fst (Mongo.add_friend true two_docs alice_mongo add_bob_mongo))
                   alice_mongo add_bob_mongo
  = ({| Mongo.users := [alice_doc; bob_doc]; Mongo.messages := [];
        Mongo.friends := [(Mongo.u_id alice_doc, Mongo.u_id bob_doc);
                          (Mongo.u_id bob_doc, Mongo.u_id alice_doc)] |},
     fail 400 "Already friends").
Proof.
  assert (Hne : Pg.u_id alice <> Pg.u_id bob) by (vm_compute; discriminate).
  assert (Hne' : Mongo.u_id alice_doc <> Mongo.u_id bob_doc) by (vm_compute; discriminate).
  assert (Hle : (0 <= 1)%nat) by lia.
  destruct (proj1 add_friend_twice two_users alice bob (js "bob")
              eq_refl eq_refl eq_refl Hne Hle Hle) as (Hfirst & Hsecond & Hstate & _).
  destruct (proj2 add_friend_twice true two_docs alice_doc bob_doc (js "bob")
              eq_refl eq_refl Hne' eq_refl eq_refl) as (_ & Hrejected & Hstate' & Hedges).
  split; [reflexivity|].
  split; [etransitivity; [exact Hsecond|exact Hfirst]|].
  apply injective_projections; [|exact Hrejected].
  etransitivity; [exact Hstate'|]. reflexivity.
Defined.

(** C3 fails on the MongoDB server: the second call for the same pair is
    answered 400 ["Already friends"], with or without a unique index on the
    pair. *)
Lemma mongo_second_add_friend_rejected :
  snd (Mongo.add_friend true two_docs alice_mongo add_bob_mongo)
  = ok (FriendBody {| fs_id := Mongo.u_id bob_doc; fs_username := js "bob" |}) /\
  snd (Mongo.add_friend true
         (fst (Mongo.add_friend true two_docs alice_mongo add_bob_mongo))
         alice_mongo add_bob_mongo)
  = fail 400 "Already friends" /\
  snd (Mongo.add_friend false
         (fst (Mongo.add_friend false two_docs alice_mongo add_bob_mongo))
         alice_mongo add_bob_mongo)
  = fail 400 "Already friends".
Proof. repeat split; reflexivity. Qed.

End Friends.

(** ** History *)

Section History.

Lemma insert_on_perm {A} (key : A -> Z) (x : A) (l : list A) :
  Permutation (insert_on key x l) (x :: l).
Proof.
  induction l as [|y l IH]; simpl; [reflexivity|].
  destruct (key x <=? key y)%Z; [reflexivity|].
  rewrite IH. apply perm_swap.
Qed.

Lemma sort_on_perm {A} (key : A -> Z) (l : list A) : Permutation (sort_on key l) l.
Proof.
  induction l as [|x l IH]; simpl; [reflexivity|].
  rewrite insert_on_perm, IH. reflexivity.
Qed.

Lemma insert_on_sorted {A} (key : A -> Z) (x : A) (l : list A) :
  Sorted Z.le (map key l) -> Sorted Z.le (map key (insert_on key x l)).
Proof.
  induction l as [|y l IH]; simpl; intros Hs.
  - constructor; constructor.
  - destruct (Z.leb_spec (key x) (key y)) as [Hle|Hgt]; simpl.
    + constructor; [exact Hs|constructor; exact Hle].
    + inversion Hs as [|? ? Hs' Hhd]; subst.
      constructor; [auto|].
      destruct l as [|z l]; simpl.
      * constructor. lia.
      * destruct (Z.leb_spec (key x) (key z)); simpl; constructor; [lia|].
        inversion Hhd; subst. assumption.
Qed.

Lemma sort_on_sorted {A} (key : A -> Z) (l : list A) :
  Sorted Z.le (map key (sort_on key l)).
Proof.
  induction l as [|x l IH]; simpl; [constructor|].
  apply insert_on_sorted, IH.
Qed.

(** A map whose callback may throw succeeds exactly when every call does. *)
Lemma map_throwing_ok {A B} (f : A -> result B) (l : list A) (bs : list B) :
  map_throwing f l = Ok bs -> Forall2 (fun a b => f a = Ok b) l bs.
Proof.
  revert bs. induction l as [|a l IH]; simpl; intros bs.
  - intros [= <-]. constructor.
  - destruct (f a) as [b|e] eqn:Hfa; simpl; [|discriminate].
    destruct (map_throwing f l) as [bs'|e]; simpl; [|discriminate].
    intros [= <-]. constructor; auto.
Qed.

Definition succeeds {A} (r : result A) : bool :=
  match r with Ok _ => true | Throw _ => false end.

Definition value_or {A} (r : result A) (default : A) : A :=
  match r with Ok a => a | Throw _ => default end.

Lemma map_throwing_cases {A B} (f : A -> result B) (dflt : B) (l : list A) :
  if forallb (fun a => succeeds (f a)) l
  then map_throwing f l = Ok (map (fun a => value_or (f a) dflt) l)
  else exists e, map_throwing f l = Throw e.
Proof.
  induction l as [|a l IH]; simpl; [reflexivity|].
  destruct (f a) as [b|e]; simpl; [|eauto].
  destruct (forallb (fun a => succeeds (f a)) l).
  - rewrite IH. reflexivity.
  - destruct IH as [e He]. rewrite He. simpl. eauto.
Qed.

Lemma forallb_eq {A} (f g : A -> bool) (l : list A) :
  (forall a, f a = g a) -> forallb f l = forallb g l.
Proof.
  intros Hfg. induction l as [|a l IH]; simpl; [reflexivity|].
  rewrite Hfg, IH. reflexivity.
Qed.

Definition no_message : Hub.message :=
  {| Hub.msg_id := []; Hub.msg_chat_id := []; Hub.msg_sender_id := [];
     Hub.msg_content := []; Hub.msg_created_at := 0 |}.

(** Whether the stored ciphertext of a record decrypts under the key. *)
Definition pg_decrypts (key : jsstring) (r : Pg.message_row) : bool :=
  succeeds (Codec.decrypt key (Pg.m_content r) (Pg.m_iv r)).

Definition mongo_decrypts (key : jsstring) (r : Mongo.message_doc) : bool :=
  succeeds (Codec.decrypt key (Mongo.m_content r) (Mongo.m_iv r)).

Lemma pg_present_succeeds key r : succeeds (Pg.present key r) = pg_decrypts key r.
Proof.
  unfold Pg.present, pg_decrypts.
  destruct (Codec.decrypt key (Pg.m_content r) (Pg.m_iv r)); reflexivity.
Qed.

Lemma mongo_present_succeeds key r : succeeds (Mongo.present key r) = mongo_decrypts key r.
Proof.
  unfold Mongo.present, mongo_decrypts.
  destruct (Codec.decrypt key (Mongo.m_content r) (Mongo.m_iv r)); reflexivity.
Qed.

(** C2, as the code has it.  On both servers the history of a chat is all
    or nothing: when every record of the chat decrypts, the answer is 200
    with all of them, decrypted, in the order of the query; as soon as one
    record fails to decrypt, the answer is 500 ["Internal server error"] and
    no record is returned.  On the Postgres server this is so for the chat
    ids the database takes as text; one that holds U+0000 fails the query,
    and the answer is 500 whatever the records are. *)
Theorem history_all_or_nothing
    (key : jsstring) (chatId : option jsstring) (d : Pg.db) (m : Mongo.db) :
  Pg.get_messages key d chatId =
    (if falsy chatId then fail 400 "chatId query required"
     else if Pg.refused_text (or_else chatId []) then fail 500 "Internal server error"
     else if forallb (pg_decrypts key) (Pg.select_messages d (or_else chatId []))
     then ok (MessagesBody (map (fun r => value_or (Pg.present key r) no_message)
                                (Pg.select_messages d (or_else chatId []))))
     else fail 500 "Internal server error") /\
  Mongo.get_messages key m chatId =
    (if falsy chatId then fail 400 "chatId query required"
     else if forallb (mongo_decrypts key) (Mongo.find_messages m (or_else chatId []))
     then ok (MessagesBody (map (fun r => value_or (Mongo.present key r) no_message)
                                (Mongo.find_messages m (or_else chatId []))))
     else fail 500 "Internal server error").
Proof.
  split.
  - unfold Pg.get_messages, Pg.query_messages. destruct (falsy chatId); [reflexivity|].
    destruct (Pg.refused_text (or_else chatId [])); [reflexivity|]. cbn [Exn.bind].
    pose proof (map_throwing_cases (Pg.present key) no_message
                  (Pg.select_messages d (or_else chatId []))) as Hc.
    rewrite (forallb_eq _ _ _ (pg_present_succeeds key)) in Hc.
    destruct (forallb (pg_decrypts key) (Pg.select_messages d (or_else chatId []))).
    + rewrite Hc. reflexivity.
    + destruct Hc as [e ->]. reflexivity.
  - unfold Mongo.get_messages. destruct (falsy chatId); [reflexivity|].
    pose proof (map_throwing_cases (Mongo.present key) no_message
                  (Mongo.find_messages m (or_else chatId []))) as Hc.
    rewrite (forallb_eq _ _ _ (mongo_present_succeeds key)) in Hc.
    destruct (forallb (mongo_decrypts key) (Mongo.find_messages m (or_else chatId []))).
    + rewrite Hc. reflexivity.
    + destruct Hc as [e ->]. reflexivity.
Qed.

(** C8, as the code has it.  A successful history fetch returns the chat's
    records in ascending order of their creation timestamp, the key both
    queries sort by; the assigned identifiers come in whatever order that
    gives.  The returned messages are those of the chat's records. *)
Theorem history_ordered_by_created_at :
  (forall (key : jsstring) (chatId : option jsstring) (d : Pg.db) (ms : list Hub.message),
      Pg.get_messages key d chatId = ok (MessagesBody ms) ->
      Sorted Z.le (map Hub.msg_created_at ms) /\
      Permutation (map Hub.msg_id ms)
        (map (fun r => String_N (Pg.m_id r))
             (List.filter (fun r => str_eqb (Pg.m_chat_id r) (or_else chatId []))
                          (Pg.messages d)))) /\
  (forall (key : jsstring) (chatId : option jsstring) (m : Mongo.db) (ms : list Hub.message),
      Mongo.get_messages key m chatId = ok (MessagesBody ms) ->
      Sorted Z.le (map Hub.msg_created_at ms) /\
      Permutation (map Hub.msg_id ms)
        (map Mongo.m_id
             (List.filter (fun r => str_eqb (Mongo.m_chatId r) (or_else chatId []))
                          (Mongo.messages m)))).
Proof.
  split.
  - intros key chatId d ms Hp. unfold Pg.get_messages, Pg.query_messages in Hp.
    destruct (falsy chatId); [discriminate|].
    destruct (Pg.refused_text (or_else chatId [])); [discriminate|]. cbn [Exn.bind] in Hp.
    destruct (map_throwing (Pg.present key) (Pg.select_messages d (or_else chatId [])))
      as [out|e] eqn:Hmap; [|discriminate].
    injection Hp as ->. apply map_throwing_ok in Hmap.
    assert (Hfields : map Hub.msg_created_at ms
                      = map Pg.m_created_at (Pg.select_messages d (or_else chatId [])) /\
                      map Hub.msg_id ms
                      = map (fun r => String_N (Pg.m_id r))
                            (Pg.select_messages d (or_else chatId []))).
    { induction Hmap as [|r msg rows msgs Hr _ [IH1 IH2]]; [split; reflexivity|].
      unfold Pg.present in Hr.
      destruct (Codec.decrypt key (Pg.m_content r) (Pg.m_iv r)); [|discriminate].
      injection Hr as <-. simpl. rewrite IH1, IH2. split; reflexivity. }
    destruct Hfields as [-> ->]. split.
    + apply sort_on_sorted.
    + apply Permutation_map. apply sort_on_perm.
  - intros key chatId m ms Hm. unfold Mongo.get_messages in Hm.
    destruct (falsy chatId); [discriminate|].
    destruct (map_throwing (Mongo.present key) (Mongo.find_messages m (or_else chatId [])))
      as [out|e] eqn:Hmap; [|discriminate].
    injection Hm as ->. apply map_throwing_ok in Hmap.
    assert (Hfields : map Hub.msg_created_at ms
                      = map Mongo.m_createdAt (Mongo.find_messages m (or_else chatId [])) /\
                      map Hub.msg_id ms
                      = map Mongo.m_id (Mongo.find_messages m (or_else chatId []))).
    { induction Hmap as [|r msg rows msgs Hr _ [IH1 IH2]]; [split; reflexivity|].
      unfold Mongo.present in Hr.
      destruct (Codec.decrypt key (Mongo.m_content r) (Mongo.m_iv r)); [|discriminate].
      injection Hr as <-. simpl. rewrite IH1, IH2. split; reflexivity. }
    destruct Hfields as [-> ->]. split.
    + apply sort_on_sorted.
    + apply Permutation_map. apply sort_on_perm.
Qed.

(** *** A conversation stored while the clock steps back *)

Definition nonce1 : list byte := map n2b [1; 2; 3; 4; 5; 6; 7; 8; 9; 10; 11; 12].
Definition nonce2 : list byte := map n2b [12; 11; 10; 9; 8; 7; 6; 5; 4; 3; 2; 1].

Definition chat_1_2 : jsstring := makeChatId (IdStr (js "1")) (IdStr (js "2")).

Definition say (text : string) : Pg.message_body :=
  {| Pg.mb_chatId := Some chat_1_2; Pg.mb_content := Some (js text) |}.

(** Alice posts ["hi"] at time 10. *)
Definition one_message : Pg.db :=
  fst (fst (Pg.post_message default_key nonce1 10 two_users Hub.init alice_pg (say "hi"))).

(** The record of the database, evaluated once. *)
Definition one_message_rows : list Pg.message_row :=
  Eval vm_compute in Pg.messages one_message.

(** Alice posts ["again"]; the clock reads 5 for this insert. *)
Definition skewed_pg : Pg.db :=
  fst (fst (Pg.post_message default_key nonce2 5
              {| Pg.users := [alice; bob]; Pg.messages := one_message_rows;
                 Pg.messages_seq := 1; Pg.friends := [] |}
              Hub.init alice_pg (say "again"))).

Definition skewed_rows : list Pg.message_row :=
  Eval vm_compute in Pg.messages skewed_pg.

Definition skewed : Pg.db :=
  {| Pg.users := [alice; bob]; Pg.messages := skewed_rows; Pg.messages_seq := 2;
     Pg.friends := [] |}.

(** The same conversation as documents, with ids in order of creation. *)
Definition as_doc (r : Pg.message_row) : Mongo.message_doc :=
  {| Mongo.m_id := js "65b00000000000000000000" ++ String_N (Pg.m_id r);
     Mongo.m_chatId := Pg.m_chat_id r;
     Mongo.m_sender := js "65a00000000000000000000" ++ String_N (Pg.m_sender_id r);
     Mongo.m_content := Pg.m_content r;
     Mongo.m_iv := Pg.m_iv r;
     Mongo.m_createdAt := Pg.m_created_at r |}.

Definition skewed_docs : Mongo.db :=
  {| Mongo.users := [alice_doc; bob_doc]; Mongo.messages := map as_doc skewed_rows;
     Mongo.friends := [] |}.

Definition shown (id sender : jsstring) (text : string) (at_ : Z) : Hub.message :=
  {| Hub.msg_id := id; Hub.msg_chat_id := chat_1_2; Hub.msg_sender_id := sender;
     Hub.msg_content := js text; Hub.msg_created_at := at_ |}.

Lemma skewed_history_pg :
  Pg.get_messages default_key skewed (Some chat_1_2) =
  ok (MessagesBody [shown (js "2") (js "1") "again" 5; shown (js "1") (js "1") "hi" 10]).
Proof. vm_compute. reflexivity. Qed.

Lemma skewed_history_mongo :
  Mongo.get_messages default_key skewed_docs (Some chat_1_2) =
  ok (MessagesBody
        [shown (js "65b000000000000000000002") (js "65a000000000000000000001") "again" 5;
         shown (js "65b000000000000000000001") (js "65a000000000000000000001") "hi" 10]).
Proof. vm_compute. reflexivity. Qed.

Lemma history_ordered_by_created_at_witness :
  Sorted Z.le [5; 10]%Z /\
  Permutation [js "2"; js "1"] (map (fun r => String_N (Pg.m_id r)) skewed_rows).
Proof.
  destruct (proj1 history_ordered_by_created_at default_key (Some chat_1_2) skewed
              _ skewed_history_pg) as [Hs Hp].
  split; [exact Hs|exact Hp].
Defined.

(** C8 fails on the code: the two messages were stored with identifiers 1
    and 2, in that order, and the history lists message 2 before message 1,
    on both servers. *)
Lemma history_not_in_identifier_order :
  skewed_rows = Pg.messages skewed_pg /\
  map Pg.m_id skewed_rows = [1; 2] /\
  Pg.get_messages default_key skewed (Some chat_1_2) =
    ok (MessagesBody [shown (js "2") (js "1") "again" 5; shown (js "1") (js "1") "hi" 10]) /\
  str_lt (js "65b000000000000000000001") (js "65b000000000000000000002") = true /\
  Mongo.get_messages default_key skewed_docs (Some chat_1_2) =
    ok (MessagesBody
          [shown (js "65b000000000000000000002") (js "65a000000000000000000001") "again" 5;
           shown (js "65b000000000000000000001") (js "65a000000000000000000001") "hi" 10]).
Proof.
  split; [vm_compute; reflexivity|].
  split; [reflexivity|].
  split; [exact skewed_history_pg|].
  split; [reflexivity|exact skewed_history_mongo].
Qed.

(** *** A conversation with one damaged record *)

(** Message 2 of the conversation, its ciphertext overwritten. *)
Definition damage (r : Pg.message_row) : Pg.message_row :=
  if Pg.m_id r =? 2 then
    {| Pg.m_id := Pg.m_id r; Pg.m_chat_id := Pg.m_chat_id r;
       Pg.m_sender_id := Pg.m_sender_id r;
       Pg.m_content := js "AAAAAAAAAAAAAAAAAAAAAAAA"; Pg.m_iv := Pg.m_iv r;
       Pg.m_created_at := Pg.m_created_at r |}
  else r.

Definition damaged : Pg.db :=
  {| Pg.users := [alice; bob]; Pg.messages := map damage skewed_rows;
     Pg.messages_seq := 2; Pg.friends := [] |}.

Definition damaged_docs : Mongo.db :=
  {| Mongo.users := [alice_doc; bob_doc];
     Mongo.messages := map as_doc (map damage skewed_rows); Mongo.friends := [] |}.

(** C2 fails on the code: message 1 of the chat still decrypts, message 2
    does not, and the whole fetch is answered 500 on both servers instead of
    returning message 1. *)
Lemma damaged_record_fails_history :
  map (pg_decrypts default_key) (Pg.select_messages damaged chat_1_2) = [false; true] /\
  Pg.get_messages default_key damaged (Some chat_1_2) = fail 500 "Internal server error" /\
  Mongo.get_messages default_key damaged_docs (Some chat_1_2)
    = fail 500 "Internal server error".
Proof. split; [|split]; vm_compute; reflexivity. Qed.

End History.

(** ** Bytes and base64 *)

Section BytesFacts.

Lemma b2n_lt (b : byte) : b2n b < 256.
Proof. unfold b2n. pose proof (Byte.to_N_bounded b). lia. Qed.

Lemma b2n_n2b (n : N) : n < 256 -> b2n (n2b n) = n.
Proof.
  intros Hn. unfold n2b, b2n. rewrite N.mod_small by exact Hn.
  destruct (Byte.of_N n) as [b|] eqn:Hb.
  - apply Byte.to_of_N, Hb.
  - apply Byte.of_N_None_iff in Hb. lia.
Qed.

Lemma n2b_b2n (b : byte) : n2b (b2n b) = b.
Proof.
  unfold n2b, b2n. rewrite N.mod_small by apply b2n_lt.
  rewrite Byte.of_to_N. reflexivity.
Qed.

Lemma lxor_lt_256 (a b : N) : a < 256 -> b < 256 -> N.lxor a b < 256.
Proof.
  intros Ha Hb. destruct (N.eq_dec (N.lxor a b) 0) as [->|Hnz]; [lia|].
  change 256 with (2 ^ 8). apply N.log2_lt_pow2; [lia|].
  assert (Hlog : forall x, x < 256 -> N.log2 x < 8).
  { intros x Hx. destruct (N.eq_dec x 0) as [->|Hx0]; [reflexivity|].
    apply N.log2_lt_pow2; [lia|exact Hx]. }
  pose proof (N.log2_lxor a b). pose proof (Hlog a Ha). pose proof (Hlog b Hb). lia.
Qed.

Lemma bxor_involutive (a k : byte) : bxor (bxor a k) k = a.
Proof.
  unfold bxor. rewrite b2n_n2b by (apply lxor_lt_256; apply b2n_lt).
  rewrite N.lxor_assoc, N.lxor_nilpotent, N.lxor_0_r. apply n2b_b2n.
Qed.

Lemma xor_bytes_length (a k : list byte) :
  length (xor_bytes a k) = Nat.min (length a) (length k).
Proof.
  revert k. induction a as [|x a IH]; intros [|y k]; simpl; try reflexivity.
  rewrite IH. reflexivity.
Qed.

Lemma xor_bytes_involutive (a k : list byte) :
  (length a <= length k)%nat -> xor_bytes (xor_bytes a k) k = a.
Proof.
  revert k. induction a as [|x a IH]; intros [|y k]; simpl; intros Hlen;
    try reflexivity; try lia.
  rewrite bxor_involutive, IH by lia. reflexivity.
Qed.

Lemma bytes_eqb_refl (a : list byte) : bytes_eqb a a = true.
Proof.
  induction a as [|x a IH]; simpl; [reflexivity|].
  unfold byte_eqb. rewrite N.eqb_refl. exact IH.
Qed.

End BytesFacts.

Section Base64Facts.

Lemma value_of_char_of (v : N) :
  v < 64 ->
  Base64.value_of (Base64.char_of v) = Some v /\ (Base64.char_of v =? Base64.pad) = false.
Proof.
  intros Hv. destruct v as [|p]; [split; reflexivity|].
  repeat match goal with
         | q : positive |- _ => destruct q; try lia
         end; split; reflexivity.
Qed.

(** The decoder reads back one full group of the encoder. *)
Lemma sextets_cons (v : N) (s : jsstring) :
  v < 64 -> Base64.sextets (Base64.char_of v :: s) = v :: Base64.sextets s.
Proof.
  intros Hv. destruct (value_of_char_of v Hv) as [Hval Hpad].
  cbn [Base64.sextets]. rewrite Hpad, Hval. reflexivity.
Qed.

Lemma low_byte_char_of (v : N) : Base64.low_byte (Base64.char_of v) = Base64.char_of v.
Proof.
  unfold Base64.low_byte, Base64.char_of.
  destruct (v <? 26) eqn:H1; [apply N.ltb_lt in H1; apply N.mod_small; lia|].
  destruct (v <? 52) eqn:H2; [apply N.ltb_lt in H2; apply N.mod_small; lia|].
  destruct (v <? 62) eqn:H3; [apply N.ltb_lt in H3; apply N.mod_small; lia|].
  destruct (v =? 62); reflexivity.
Qed.

(** What the encoder writes is read as it stands. *)
Lemma low_byte_encode_n (n : nat) (bs : list byte) :
  (length bs <= n)%nat -> map Base64.low_byte (Base64.encode bs) = Base64.encode bs.
Proof.
  revert bs. induction n as [|n IH]; intros bs Hlen.
  - destruct bs; [reflexivity|simpl in Hlen; lia].
  - destruct bs as [|a [|b [|c rest]]]; [reflexivity| | |];
      cbn [Base64.encode map app]; rewrite ?low_byte_char_of; try reflexivity.
    rewrite IH by (simpl in Hlen; lia). reflexivity.
Qed.

Lemma n2b_eq (x : N) (b : byte) : x = b2n b -> n2b x = b.
Proof. intros ->. apply n2b_b2n. Qed.

Lemma base64_roundtrip_n (n : nat) (bs : list byte) :
  (length bs <= n)%nat -> Base64.unpack (Base64.sextets (Base64.encode bs)) = bs.
Proof.
  revert bs. induction n as [|n IH]; intros bs Hlen.
  - destruct bs; [reflexivity|simpl in Hlen; lia].
  - destruct bs as [|a [|b [|c rest]]]; [reflexivity| | |].
    + pose proof (b2n_lt a). cbn [Base64.encode].
      rewrite !sextets_cons by lia. cbn [Base64.sextets].
      rewrite N.eqb_refl. cbn [Base64.unpack].
      f_equal. apply n2b_eq. lia.
    + pose proof (b2n_lt a). pose proof (b2n_lt b).
      cbn [Base64.encode]. rewrite !sextets_cons by lia.
      cbn [Base64.sextets]. rewrite N.eqb_refl. cbn [Base64.unpack].
      f_equal; [apply n2b_eq; lia|f_equal; apply n2b_eq; lia].
    + pose proof (b2n_lt a). pose proof (b2n_lt b). pose proof (b2n_lt c).
      cbn [Base64.encode app].
      rewrite !sextets_cons by lia. cbn [Base64.unpack app].
      rewrite IH by (simpl in Hlen; lia).
      f_equal; [apply n2b_eq; lia|f_equal; [apply n2b_eq; lia|f_equal; apply n2b_eq; lia]].
Qed.

Lemma base64_roundtrip (bs : list byte) : Base64.decode (Base64.encode bs) = bs.
Proof.
  unfold Base64.decode. rewrite (low_byte_encode_n (length bs)) by lia.
  apply (base64_roundtrip_n (length bs)). lia.
Qed.

End Base64Facts.

(** ** UTF-8 *)

Section Utf8Facts.

(** Settle the comparisons the goal branches on, by arithmetic. *)
Ltac settle_tests :=
  repeat match goal with
         | |- context [?a <=? ?b] =>
             first [ rewrite (proj2 (N.leb_le a b)) by lia
                   | rewrite (proj2 (N.leb_gt a b)) by lia ]
         | |- context [?a <? ?b] =>
             first [ rewrite (proj2 (N.ltb_lt a b)) by lia
                   | rewrite (proj2 (N.ltb_ge a b)) by lia ]
         | |- context [?a =? ?b] =>
             first [ rewrite (proj2 (N.eqb_eq a b)) by lia
                   | rewrite (proj2 (N.eqb_neq a b)) by lia
                   | destruct (N.eqb_spec a b) ]
         end.

Ltac run_decoder :=
  repeat (progress (cbn [app Utf8.decode_from andb orb negb];
                    unfold Utf8.step, Utf8.lead;
                    repeat rewrite b2n_n2b by lia;
                    settle_tests)).

Lemma decode_seq1 (c : N) (t : list byte) :
  c < 0x80 ->
  Utf8.decode_from Utf8.Idle (n2b c :: t) = c :: Utf8.decode_from Utf8.Idle t.
Proof. intros Hc. run_decoder. reflexivity. Qed.

Lemma decode_seq2 (a d cp : N) (t : list byte) :
  2 <= a < 32 -> d < 64 -> cp = a * 64 + d ->
  Utf8.decode_from Utf8.Idle (n2b (0xC0 + a) :: n2b (0x80 + d) :: t)
  = Utf8.units cp ++ Utf8.decode_from Utf8.Idle t.
Proof.
  intros Ha Hd ->. run_decoder. f_equal. f_equal. lia.
Qed.

Lemma decode_seq3 (a b d cp : N) (t : list byte) :
  a < 16 -> b < 64 -> d < 64 -> (a = 0 -> 32 <= b) -> (a = 13 -> b < 32) ->
  cp = a * 4096 + b * 64 + d ->
  Utf8.decode_from Utf8.Idle (n2b (0xE0 + a) :: n2b (0x80 + b) :: n2b (0x80 + d) :: t)
  = Utf8.units cp ++ Utf8.decode_from Utf8.Idle t.
Proof.
  intros Ha Hb Hd H0 H13 ->. run_decoder; f_equal; f_equal; lia.
Qed.

Lemma decode_seq4 (a b c d cp : N) (t : list byte) :
  a <= 4 -> b < 64 -> c < 64 -> d < 64 -> (a = 0 -> 16 <= b) -> (a = 4 -> b < 16) ->
  cp = a * 262144 + b * 4096 + c * 64 + d ->
  Utf8.decode_from Utf8.Idle
    (n2b (0xF0 + a) :: n2b (0x80 + b) :: n2b (0x80 + c) :: n2b (0x80 + d) :: t)
  = Utf8.units cp ++ Utf8.decode_from Utf8.Idle t.
Proof.
  intros Ha Hb Hc Hd H0 H4 ->. run_decoder; f_equal; f_equal; lia.
Qed.

Lemma decode_enc1 (c : N) (t : list byte) :
  c < 0x80 ->
  Utf8.decode_from Utf8.Idle (Utf8.enc1 c ++ t) = c :: Utf8.decode_from Utf8.Idle t.
Proof. apply decode_seq1. Qed.

Lemma decode_enc2 (c : N) (t : list byte) :
  0x80 <= c < 0x800 ->
  Utf8.decode_from Utf8.Idle (Utf8.enc2 c ++ t) = c :: Utf8.decode_from Utf8.Idle t.
Proof.
  intros Hc. unfold Utf8.enc2. cbn [app].
  rewrite (decode_seq2 (c / 64) (c mod 64) c) by lia.
  unfold Utf8.units. rewrite (proj2 (N.ltb_lt c 0x10000)) by lia. reflexivity.
Qed.

Lemma decode_enc3 (c : N) (t : list byte) :
  0x800 <= c < 0x10000 -> c < 0xD800 \/ 0xE000 <= c ->
  Utf8.decode_from Utf8.Idle (Utf8.enc3 c ++ t) = c :: Utf8.decode_from Utf8.Idle t.
Proof.
  intros Hc Hns. unfold Utf8.enc3. cbn [app].
  rewrite (decode_seq3 (c / 4096) ((c / 64) mod 64) (c mod 64) c) by lia.
  unfold Utf8.units. rewrite (proj2 (N.ltb_lt c 0x10000)) by lia. reflexivity.
Qed.

Lemma decode_enc4 (hi lo : N) (t : list byte) :
  0xD800 <= hi <= 0xDBFF -> 0xDC00 <= lo <= 0xDFFF ->
  Utf8.decode_from Utf8.Idle (Utf8.enc4 (Utf8.pair_cp hi lo) ++ t)
  = hi :: lo :: Utf8.decode_from Utf8.Idle t.
Proof.
  intros Hhi Hlo.
  assert (Hcp : 0x10000 <= Utf8.pair_cp hi lo <= 0x10FFFF /\
                (Utf8.pair_cp hi lo - 0x10000) / 1024 = hi - 0xD800 /\
                (Utf8.pair_cp hi lo - 0x10000) mod 1024 = lo - 0xDC00)
    by (unfold Utf8.pair_cp; lia).
  destruct Hcp as (Hrange & Hq & Hr). generalize dependent (Utf8.pair_cp hi lo).
  intros cp Hrange Hq Hr. unfold Utf8.enc4. cbn [app].
  rewrite (decode_seq4 (cp / 262144) ((cp / 4096) mod 64) ((cp / 64) mod 64) (cp mod 64) cp)
    by lia.
  unfold Utf8.units. rewrite (proj2 (N.ltb_ge cp 0x10000)) by lia.
  rewrite Hq, Hr. cbn [app]. f_equal; [lia|f_equal; lia].
Qed.

Lemma is_high_cases (c : N) :
  (Utf8.is_high c = true /\ 0xD800 <= c <= 0xDBFF) \/
  (Utf8.is_high c = false /\ (c < 0xD800 \/ 0xDBFF < c)).
Proof.
  unfold Utf8.is_high.
  destruct (N.leb_spec 0xD800 c), (N.leb_spec c 0xDBFF); simpl; [left|right..];
    split; try reflexivity; lia.
Qed.

Lemma is_low_cases (c : N) :
  (Utf8.is_low c = true /\ 0xDC00 <= c <= 0xDFFF) \/
  (Utf8.is_low c = false /\ (c < 0xDC00 \/ 0xDFFF < c)).
Proof.
  unfold Utf8.is_low.
  destruct (N.leb_spec 0xDC00 c), (N.leb_spec c 0xDFFF); simpl; [left|right..];
    split; try reflexivity; lia.
Qed.

Lemma utf8_roundtrip_n (n : nat) (s : jsstring) :
  (length s <= n)%nat -> Utf8.well_formed s = true ->
  Utf8.decode_from Utf8.Idle (Utf8.encode s) = s.
Proof.
  revert s. induction n as [|n IH]; intros s Hlen Hwf.
  - destruct s; [reflexivity|simpl in Hlen; lia].
  - destruct s as [|c rest]; [reflexivity|].
    cbn [Utf8.encode Utf8.well_formed] in *.
    destruct (is_high_cases c) as [[Hh Hhr]|[Hh Hhr]]; rewrite Hh in *.
    + (* a surrogate pair *)
      destruct rest as [|d rest']; [discriminate|].
      apply andb_true_iff in Hwf as [Hd Hwf]. rewrite Hd.
      destruct (is_low_cases d) as [[_ Hdr]|[Hd' _]]; [|congruence].
      rewrite (proj2 (N.ltb_ge c 0x80)), (proj2 (N.ltb_ge c 0x800)) by lia.
      rewrite decode_enc4 by lia.
      rewrite IH; [reflexivity|simpl in Hlen; lia|exact Hwf].
    + apply andb_true_iff in Hwf as [Hwf1 Hwf].
      apply andb_true_iff in Hwf1 as [Hc Hl].
      apply N.ltb_lt in Hc. apply negb_true_iff in Hl. rewrite Hl.
      destruct (is_low_cases c) as [[Hl' _]|[_ Hlr]]; [congruence|].
      assert (Hrest : Utf8.decode_from Utf8.Idle (Utf8.encode rest) = rest)
        by (apply IH; [simpl in Hlen; lia|exact Hwf]).
      destruct (N.ltb_spec c 0x80); [rewrite decode_enc1, Hrest by lia; reflexivity|].
      destruct (N.ltb_spec c 0x800); [rewrite decode_enc2, Hrest by lia; reflexivity|].
      rewrite decode_enc3, Hrest by lia. reflexivity.
Qed.

(** Decoding the UTF-8 encoding of a well-formed string gives it back. *)
Lemma utf8_roundtrip (s : jsstring) :
  Utf8.well_formed s = true -> Utf8.decode (Utf8.encode s) = s.
Proof. apply (utf8_roundtrip_n (length s)). lia. Qed.

End Utf8Facts.

(** ** AES: the block function returns sixteen bytes *)

Section AesFacts.

Lemma xor_block_length (a b : list N) :
  length (AES.xor_block a b) = Nat.min (length a) (length b).
Proof. unfold AES.xor_block. rewrite length_map, length_combine. reflexivity. Qed.

Lemma word_at_length (w : list N) (i : nat) :
  (4 * i + 4 <= length w)%nat -> length (AES.word_at w i) = 4%nat.
Proof. intros Hw. unfold AES.word_at. rewrite length_firstn, length_skipn. lia. Qed.

Lemma next_word_length (w : list N) (i : nat) :
  (8 <= i)%nat -> length w = (4 * i)%nat -> length (AES.next_word w i) = 4%nat.
Proof.
  intros Hi Hw. unfold AES.next_word.
  rewrite xor_block_length, word_at_length by lia.
  assert (Ht : length (AES.word_at w (i - 1)) = 4%nat) by (apply word_at_length; lia).
  destruct (i mod 8 =? 0)%nat; [|destruct (i mod 8 =? 4)%nat].
  - rewrite xor_block_length, length_map. unfold AES.RotWord, AES.Rcon.
    rewrite length_app, length_skipn, length_firstn, Ht. reflexivity.
  - rewrite length_map, Ht. reflexivity.
  - rewrite Ht. reflexivity.
Qed.

Lemma expand_length (n i : nat) (w : list N) :
  (8 <= i)%nat -> length w = (4 * i)%nat ->
  length (AES.expand n i w) = (4 * (i + n))%nat.
Proof.
  revert i w. induction n as [|n IH]; intros i w Hi Hw; simpl.
  - rewrite Hw. f_equal. lia.
  - rewrite IH; [lia|lia|].
    rewrite length_app, next_word_length by assumption. lia.
Qed.

Lemma KeyExpansion_length (key : list N) :
  length key = 32%nat -> length (AES.KeyExpansion key) = 240%nat.
Proof. intros Hk. unfold AES.KeyExpansion. rewrite expand_length; [reflexivity|lia|lia]. Qed.

Lemma Cipher_length (w input : list N) :
  length w = 240%nat -> length (AES.Cipher w input) = 16%nat.
Proof.
  intros Hw. unfold AES.Cipher, AES.AddRoundKey.
  rewrite xor_block_length. unfold AES.round_key.
  rewrite length_firstn, length_skipn, Hw. unfold AES.ShiftRows.
  rewrite length_map, length_seq. reflexivity.
Qed.

Lemma encrypt_block_length (key block : list byte) :
  length key = 32%nat -> length (AES.encrypt_block key block) = 16%nat.
Proof.
  intros Hk. unfold AES.encrypt_block. rewrite length_map.
  apply Cipher_length, KeyExpansion_length. rewrite length_map. exact Hk.
Qed.

End AesFacts.

(** ** GCM: opening what was sealed *)

Section GcmFacts.

Variable key : list byte.
Hypothesis key_length : length key = 32%nat.

Lemma gctr_aux_nil (n : nat) (cb : list byte) : GCM.gctr_aux n key cb [] = [].
Proof. destruct n; reflexivity. Qed.

Lemma gctr_aux_cons (n : nat) (cb x : list byte) :
  x <> [] ->
  GCM.gctr_aux (S n) key cb x =
  xor_bytes (firstn 16 x) (AES.encrypt_block key cb)
    ++ GCM.gctr_aux n key (GCM.inc32 cb) (skipn 16 x).
Proof. destruct x; [contradiction|reflexivity]. Qed.

Lemma gctr_aux_involutive (n : nat) (cb x : list byte) :
  (length x <= n)%nat -> GCM.gctr_aux n key cb (GCM.gctr_aux n key cb x) = x.
Proof.
  revert cb x. induction n as [|n IH]; intros cb x Hlen.
  - destruct x; [reflexivity|simpl in Hlen; lia].
  - destruct x as [|b x]; [reflexivity|].
    set (l := b :: x) in *. assert (Hne : l <> []) by discriminate.
    assert (Hl : (1 <= length l)%nat) by (simpl; lia).
    rewrite (gctr_aux_cons n cb l Hne).
    set (ks := AES.encrypt_block key cb).
    assert (Hks : length ks = 16%nat) by apply encrypt_block_length, key_length.
    set (A := xor_bytes (firstn 16 l) ks).
    assert (HA : length A = Nat.min (length l) 16).
    { unfold A. rewrite xor_bytes_length, length_firstn, Hks. lia. }
    assert (Hinv : xor_bytes A ks = firstn 16 l).
    { unfold A. apply xor_bytes_involutive. rewrite length_firstn, Hks. lia. }
    rewrite gctr_aux_cons.
    2:{ destruct A; [simpl in HA; lia|discriminate]. }
    fold ks.
    destruct (Nat.le_gt_cases 16 (length l)) as [Hbig|Hsmall].
    + rewrite firstn_app, skipn_app.
      replace (16 - length A)%nat with 0%nat by lia.
      rewrite (firstn_all2 A), (skipn_all2 A) by lia.
      rewrite firstn_O, skipn_O. cbn [app]. rewrite app_nil_r, Hinv.
      rewrite IH by (rewrite length_skipn; lia). apply firstn_skipn.
    + rewrite (skipn_all2 l) by lia. rewrite gctr_aux_nil, app_nil_r.
      rewrite (firstn_all2 A), (skipn_all2 A) by lia.
      rewrite gctr_aux_nil, app_nil_r, Hinv. apply firstn_all2. lia.
Qed.

Lemma gctr_aux_length (n : nat) (cb x : list byte) :
  (length x <= n)%nat -> length (GCM.gctr_aux n key cb x) = length x.
Proof.
  revert cb x. induction n as [|n IH]; intros cb x Hlen.
  - destruct x; [reflexivity|simpl in Hlen; lia].
  - destruct x as [|b x]; [reflexivity|].
    set (l := b :: x) in *. assert (Hl : (1 <= length l)%nat) by (simpl; lia).
    rewrite gctr_aux_cons by discriminate.
    rewrite length_app, xor_bytes_length, length_firstn.
    rewrite encrypt_block_length by exact key_length.
    rewrite IH by (rewrite length_skipn; lia). rewrite length_skipn. lia.
Qed.

Lemma GCTR_length (icb x : list byte) : length (GCM.GCTR key icb x) = length x.
Proof. apply gctr_aux_length. lia. Qed.

Lemma GCTR_involutive (icb x : list byte) : GCM.GCTR key icb (GCM.GCTR key icb x) = x.
Proof.
  unfold GCM.GCTR at 1. rewrite GCTR_length. apply gctr_aux_involutive. lia.
Qed.

Lemma of_num_length (len : nat) (x : N) : length (GCM.of_num len x) = len.
Proof.
  revert x. induction len as [|len IH]; intros x; simpl; [reflexivity|].
  rewrite length_app, IH. simpl. lia.
Qed.

Lemma tag_length (iv c : list byte) : length (GCM.tag key iv c) = 16%nat.
Proof. unfold GCM.tag. rewrite GCTR_length. apply of_num_length. Qed.

(** Opening a sealed message under the same key and IV returns it. *)
Lemma open_seal (iv p : list byte) :
  GCM.open key iv (fst (GCM.seal key iv p)) (snd (GCM.seal key iv p)) = Some p.
Proof.
  unfold GCM.seal, GCM.open. cbn [fst snd].
  rewrite bytes_eqb_refl, GCTR_involutive. reflexivity.
Qed.

End GcmFacts.

(** ** The codec round trip *)

Section CodecRoundTrip.

Lemma slice_suffix {A} (a b : list A) :
  slice_from (a ++ b) (Z.of_nat (length (a ++ b)) - Z.of_nat (length b)) = b.
Proof.
  unfold slice_from, slice. rewrite length_app.
  destruct (Z.ltb_spec (Z.of_nat (length a + length b) - Z.of_nat (length b)) 0); [lia|].
  destruct (Z.ltb_spec (Z.of_nat (length a + length b)) 0); [lia|].
  rewrite !Z.min_l by lia.
  replace (Z.of_nat (length a + length b) - Z.of_nat (length b))%Z
    with (Z.of_nat (length a)) by lia.
  rewrite Nat2Z.id.
  replace (Z.to_nat (Z.of_nat (length a + length b) - Z.of_nat (length a)))
    with (length b) by lia.
  rewrite skipn_app, skipn_all, Nat.sub_diag, skipn_O. cbn [app].
  apply firstn_all.
Qed.

Lemma slice_before_suffix {A} (a b : list A) :
  slice (a ++ b) 0 (Z.of_nat (length (a ++ b)) - Z.of_nat (length b)) = a.
Proof.
  replace (Z.of_nat (length (a ++ b)) - Z.of_nat (length b))%Z
    with (Z.of_nat (length a)) by (rewrite length_app; lia).
  rewrite slice_prefix, firstn_app, firstn_all, Nat.sub_diag, firstn_O.
  apply app_nil_r.
Qed.

(** C4, for text.  Under a key of 32 bytes and with the 12 bytes of
    [randomBytes(12)], [encrypt] succeeds on every well-formed string (empty,
    ASCII or multi-byte, with every surrogate paired), and [decrypt] applied
    to the data and IV it returns gives the string back. *)
Theorem decrypt_encrypt_roundtrip (key : jsstring) (rnd : list byte) (m : jsstring) :
  length (Utf8.encode key) = 32%nat ->
  length rnd = 12%nat ->
  Utf8.well_formed m = true ->
  exists s, Codec.encrypt key rnd m = Ok s /\
            Codec.decrypt key (Codec.data s) (Codec.iv s) = Ok m.
Proof.
  intros Hkey Hrnd Hwf.
  assert (Hcheck : Codec.check_params (Utf8.encode key) rnd = Ok tt).
  { unfold Codec.check_params. rewrite Hkey, Hrnd. reflexivity. }
  set (sealed := GCM.seal (Utf8.encode key) rnd (Utf8.encode m)).
  exists {| Codec.data := Base64.encode (fst sealed ++ snd sealed);
            Codec.iv := Base64.encode rnd |}.
  split.
  - unfold Codec.encrypt. rewrite Hcheck. cbn [Exn.bind]. fold sealed.
    destruct sealed as [encrypted tag]. reflexivity.
  - unfold Codec.decrypt. cbn [Codec.data Codec.iv].
    rewrite !base64_roundtrip, Hcheck. cbn [Exn.bind].
    assert (Htag : length (snd sealed) = 16%nat) by apply tag_length, Hkey.
    change 16%Z with (Z.of_nat 16). rewrite <- Htag.
    rewrite slice_suffix, slice_before_suffix, Htag. cbn [Nat.eqb Exn.bind].
    unfold sealed. rewrite (open_seal _ Hkey), utf8_roundtrip by exact Hwf.
    reflexivity.
Qed.

Definition greeting : jsstring := [104; 233; 108; 108; 111; 32; 0xD83D; 0xDE00].

Lemma decrypt_encrypt_roundtrip_witness :
  (exists s, Codec.encrypt default_key nonce1 greeting = Ok s /\
             Codec.decrypt default_key (Codec.data s) (Codec.iv s) = Ok greeting) /\
  (exists s, Codec.encrypt default_key nonce1 [] = Ok s /\
             Codec.decrypt default_key (Codec.data s) (Codec.iv s) = Ok []).
Proof.
  split.
  - apply (decrypt_encrypt_roundtrip default_key nonce1 greeting); reflexivity.
  - apply (decrypt_encrypt_roundtrip default_key nonce1 []); reflexivity.
Defined.

(** C4 fails for a string with an unpaired surrogate, which a JSON body can
    carry: it is encrypted as U+FFFD and that is what [decrypt] returns. *)
Lemma lone_surrogate_not_recovered :
  Utf8.well_formed [0xD800] = false /\
  (do s <- Codec.encrypt default_key nonce1 [0xD800];
   Codec.decrypt default_key (Codec.data s) (Codec.iv s)) = Ok [0xFFFD].
Proof. split; [reflexivity|vm_compute; reflexivity]. Qed.

End CodecRoundTrip.

(** ** The codec on malformed input and on keys that are not ASCII *)

Section CodecEdges.

Lemma b2n_inj (a b : byte) : b2n a = b2n b -> a = b.
Proof. intros Heq. rewrite <- (n2b_b2n a), <- (n2b_b2n b), Heq. reflexivity. Qed.

Lemma bytes_eqb_eq (a b : list byte) : bytes_eqb a b = true -> a = b.
Proof.
  revert b. induction a as [|x a IH]; intros [|y b]; simpl; try discriminate;
    [reflexivity|].
  intros Heq. apply andb_true_iff in Heq as [Hxy Hab].
  apply N.eqb_eq, b2n_inj in Hxy. subst. f_equal. auto.
Qed.




(** X2.  Under a 32-byte key and a non-empty IV, a ciphertext followed by
    16 bytes that are not its tag never decrypts: [decrypt] throws instead of
    returning a plaintext.  In particular every change to the tag of a
    message that [encrypt] produced is detected. *)
Theorem wrong_tag_rejected (key : jsstring) (iv c t : list byte) :
  length (Utf8.encode key) = 32%nat ->
  iv <> [] ->
  length t = 16%nat ->
  t <> GCM.tag (Utf8.encode key) iv c ->
  Codec.decrypt key (Base64.encode (c ++ t)) (Base64.encode iv) = Throw UnableToAuthenticate.
Proof.
  intros Hkey Hiv Ht Hne. unfold Codec.decrypt, Codec.check_params.
  rewrite !base64_roundtrip, Hkey.
  destruct iv as [|b iv]; [contradiction|]. cbn [length Nat.eqb negb Exn.bind].
  change 16%Z with (Z.of_nat 16). rewrite <- Ht.
  rewrite slice_suffix, slice_before_suffix, Ht. cbn [Nat.eqb Exn.bind].
  unfold GCM.open.
  destruct (bytes_eqb t (GCM.tag (Utf8.encode key) (b :: iv) c)) eqn:Heq; [|reflexivity].
  apply bytes_eqb_eq in Heq. contradiction.
Qed.

End CodecEdges.

Section KeyBytes.

Definition ascii_only (s : jsstring) : bool := forallb (fun c => c <? 128) s.

Lemma encode_ascii_length (s : jsstring) :
  ascii_only s = true -> length (Utf8.encode s) = length s.
Proof.
  induction s as [|c s IH]; simpl; [reflexivity|].
  intros Hs. apply andb_true_iff in Hs as [Hc Hs]. rewrite Hc. simpl.
  rewrite IH by exact Hs. reflexivity.
Qed.

(** Every code unit takes at least one byte, and a string with a unit
    outside ASCII takes more bytes than it has units. *)
Lemma encode_length_n (n : nat) (s : jsstring) :
  (length s <= n)%nat ->
  (length s + (if ascii_only s then 0 else 1) <= length (Utf8.encode s))%nat.
Proof.
  revert s. induction n as [|n IH]; intros s Hlen.
  - destruct s; [simpl; lia|simpl in Hlen; lia].
  - destruct s as [|c rest]; [simpl; lia|].
    assert (Hrest : (length rest + (if ascii_only rest then 0 else 1)
                     <= length (Utf8.encode rest))%nat)
      by (apply IH; simpl in Hlen; lia).
    cbn [Utf8.encode ascii_only forallb length].
    destruct (c <? 128) eqn:Hc; cbn [andb].
    + rewrite length_app. simpl. fold (ascii_only rest). lia.
    + assert (Hr0 : (length rest <= length (Utf8.encode rest))%nat)
        by (destruct (ascii_only rest); lia).
      destruct (c <? 2048); [rewrite length_app; simpl; lia|].
      destruct (Utf8.is_high c).
      * destruct rest as [|d rest']; [simpl; lia|].
        destruct (Utf8.is_low d).
        -- rewrite length_app. simpl.
           assert ((length rest' + (if ascii_only rest' then 0 else 1)
                    <= length (Utf8.encode rest'))%nat)
             by (apply IH; simpl in Hlen; lia).
           destruct (ascii_only rest'); lia.
        -- rewrite length_app. simpl. simpl in Hr0. lia.
      * destruct (Utf8.is_low c); rewrite length_app; simpl; lia.
Qed.

Lemma ascii_only_app (s t : jsstring) :
  ascii_only (s ++ t) = ascii_only s && ascii_only t.
Proof. apply forallb_app. Qed.

Lemma ascii_only_firstn (n : nat) (s : jsstring) :
  ascii_only s = true -> ascii_only (firstn n s) = true.
Proof.
  revert n. induction s as [|c s IH]; intros [|n]; simpl; try reflexivity.
  intros Hs. apply andb_true_iff in Hs as [Hc Hs]. rewrite Hc. simpl.
  apply IH, Hs.
Qed.

Lemma ascii_only_spaces (n : nat) : ascii_only (repeat 32 n) = true.
Proof. induction n; simpl; auto. Qed.

Lemma ENCRYPTION_KEY_firstn (e : env) :
  ENCRYPTION_KEY e =
  firstn 32 (padEnd (or_else (env_ENCRYPTION_KEY e) default_key) 32).
Proof. unfold ENCRYPTION_KEY. change 32%Z with (Z.of_nat 32). apply slice_prefix. Qed.

Lemma ENCRYPTION_KEY_length (e : env) : length (ENCRYPTION_KEY e) = 32%nat.
Proof.
  rewrite ENCRYPTION_KEY_firstn. unfold padEnd.
  rewrite length_firstn, length_app, repeat_length. lia.
Qed.

(** X3.  When the configured key (or the default) consists of ASCII
    characters, the key in use is 32 bytes long and [encrypt] succeeds on
    every text for every non-empty IV; the object it returns carries the IV
    itself and, as data, the encoded text's length plus 16 bytes of tag. *)
Theorem ascii_key_always_encrypts (e : env) (rnd : list byte) (text : jsstring) :
  ascii_only (or_else (env_ENCRYPTION_KEY e) default_key) = true ->
  rnd <> [] ->
  length (key_bytes e) = 32%nat /\
  exists s, Codec.encrypt (ENCRYPTION_KEY e) rnd text = Ok s /\
            Base64.decode (Codec.iv s) = rnd /\
            length (Base64.decode (Codec.data s)) = (length (Utf8.encode text) + 16)%nat.
Proof.
  intros Hascii Hrnd.
  assert (Hkey : length (Utf8.encode (ENCRYPTION_KEY e)) = 32%nat).
  { rewrite encode_ascii_length; [apply ENCRYPTION_KEY_length|].
    rewrite ENCRYPTION_KEY_firstn. apply ascii_only_firstn. unfold padEnd.
    rewrite ascii_only_app, Hascii, ascii_only_spaces. reflexivity. }
  split; [exact Hkey|].
  unfold Codec.encrypt, Codec.check_params. rewrite Hkey.
  destruct rnd as [|b rnd]; [contradiction|]. cbn [length Nat.eqb negb Exn.bind].
  set (sealed := GCM.seal (Utf8.encode (ENCRYPTION_KEY e)) (b :: rnd) (Utf8.encode text)).
  assert (Hlen : length (fst sealed ++ snd sealed) = (length (Utf8.encode text) + 16)%nat).
  { unfold sealed, GCM.seal. cbn [fst snd].
    rewrite length_app, (tag_length _ Hkey), (GCTR_length _ Hkey). reflexivity. }
  destruct sealed as [encrypted tag]. eexists. split; [reflexivity|].
  cbn [Codec.iv Codec.data fst snd] in *. rewrite !base64_roundtrip. auto.
Qed.

Lemma ascii_key_always_encrypts_witness :
  length (key_bytes short_key_env) = 32%nat /\
  exists s, Codec.encrypt (ENCRYPTION_KEY short_key_env) nonce1 (js "hi") = Ok s /\
            Base64.decode (Codec.iv s) = nonce1 /\
            length (Base64.decode (Codec.data s)) = (length (Utf8.encode (js "hi")) + 16)%nat.
Proof.
  apply (ascii_key_always_encrypts short_key_env nonce1 (js "hi")).
  - reflexivity.
  - discriminate.
Defined.

(** X4.  When one of the 32 code units of the key in use is not ASCII, the
    key is longer than 32 bytes: [encrypt] and [decrypt] throw on every
    input (the key is refused, or the IV before it when [decrypt] is given
    an empty one), and [POST /api/messages] answers 500 for every
    well-formed request, storing no record and broadcasting nothing. *)
Theorem non_ascii_key_breaks_codec
    (e : env) (rnd : list byte) (now : Z) (d : Pg.db) (h : Hub.hub)
    (u : Pg.req_user) (chatId content dataBase64 ivBase64 : jsstring) :
  ascii_only (ENCRYPTION_KEY e) = false ->
  length rnd = 12%nat ->
  truthy chatId = true ->
  truthy content = true ->
  Codec.encrypt (ENCRYPTION_KEY e) rnd content = Throw InvalidKeyLength /\
  Codec.decrypt (ENCRYPTION_KEY e) dataBase64 ivBase64
  = Throw (if (length (Base64.decode ivBase64) =? 0)%nat
           then InvalidIV else InvalidKeyLength) /\
  Pg.post_message (ENCRYPTION_KEY e) rnd now d h u
    {| Pg.mb_chatId := Some chatId; Pg.mb_content := Some content |}
  = (d, h, fail 500 "Internal server error").
Proof.
  intros Hna Hrnd HchatId Hcontent.
  assert (Hkey : (length (Utf8.encode (ENCRYPTION_KEY e)) =? 32)%nat = false).
  { apply Nat.eqb_neq.
    pose proof (encode_length_n _ (ENCRYPTION_KEY e) (Nat.le_refl _)) as Hlen.
    rewrite Hna, ENCRYPTION_KEY_length in Hlen. lia. }
  assert (Henc : forall text, Codec.encrypt (ENCRYPTION_KEY e) rnd text = Throw InvalidKeyLength).
  { intros text. unfold Codec.encrypt, Codec.check_params. rewrite Hkey, Hrnd. reflexivity. }
  split; [apply Henc|]. split.
  - unfold Codec.decrypt, Codec.check_params. rewrite Hkey.
    destruct (length (Base64.decode ivBase64) =? 0)%nat; reflexivity.
  - unfold Pg.post_message. cbn [Pg.mb_chatId Pg.mb_content falsy or_else].
    rewrite HchatId, Hcontent. cbn [negb orb]. rewrite Henc. reflexivity.
Qed.

(** An environment whose key starts with a two-byte character. *)
Definition accented_key_env : env :=
  {| env_JWT_SECRET := None; env_ENCRYPTION_KEY := Some (233 :: js "cret") |}.

Lemma non_ascii_key_breaks_codec_witness :
  Pg.post_message (ENCRYPTION_KEY accented_key_env) nonce1 10 two_users Hub.init alice_pg
    (say "hi")
  = (two_users, Hub.init, fail 500 "Internal server error").
Proof.
  apply (non_ascii_key_breaks_codec accented_key_env nonce1 10 two_users Hub.init alice_pg
           chat_1_2 (js "hi") [] []); reflexivity.
Defined.

Lemma wrong_tag_rejected_witness :
  Codec.decrypt default_key (Base64.encode ([] ++ repeat Byte.x00 16)) (Base64.encode nonce1)
  = Throw UnableToAuthenticate.
Proof.
  apply (wrong_tag_rejected default_key nonce1 [] (repeat Byte.x00 16)).
  - reflexivity.
  - discriminate.
  - reflexivity.
  - intros Heq. apply (f_equal (map b2n)) in Heq. vm_compute in Heq. discriminate.
Defined.

End KeyBytes.

(** ** The hub's entries and acknowledgements *)

Section HubLifecycle.
Import Hub.

Implicit Types (h : hub) (C ws : conn) (X : jsstring).

Local Arguments js : simpl never.

(** Whether socket [C] has an entry in [subs]. *)
Definition registered (C : conn) (h : hub) : bool :=
  match JsMap.get C (subs h) with Some _ => true | None => false end.

(** Whether socket [C] connected and has not closed since. *)
Definition lifecycle (C : conn) (alive : bool) (e : event) : bool :=
  match e with
  | Connection ws => if decide (ws = C) then true else alive
  | Close ws => if decide (ws = C) then false else alive
  | _ => alive
  end.

Definition alive (C : conn) (evs : list event) : bool :=
  fold_left (lifecycle C) evs false.

Lemma on_message_registered h ws C f :
  registered C (on_message h ws f) = registered C h.
Proof.
  unfold registered. rewrite on_message_subs.
  destruct f as [|type [x|]]; try reflexivity.
  destruct (truthy x); [|reflexivity].
  destruct (JsMap.get ws (subs h)) as [set|] eqn:Hg; [|reflexivity].
  destruct (type_is "subscribe" type); [|destruct (type_is "unsubscribe" type)];
    try reflexivity; rewrite get_set_cases;
    (destruct (decide (ws = C)) as [->|]; [rewrite Hg|]; reflexivity).
Qed.

Lemma step_registered h C e :
  registered C (step h e) = lifecycle C (registered C h) e.
Proof.
  destruct e as [ws|ws f|ws|ws st|X p]; simpl.
  - unfold registered, on_connection. simpl. rewrite get_set_cases.
    destruct (decide (ws = C)); reflexivity.
  - apply on_message_registered.
  - unfold registered, on_close. simpl. rewrite get_delete_cases.
    destruct (decide (ws = C)); reflexivity.
  - reflexivity.
  - unfold registered. rewrite broadcast_subs. reflexivity.
Qed.

(** X5.  After any sequence of events the hub holds an entry for exactly
    the sockets that connected and have not closed since: frames, transport
    changes and broadcasts neither create nor remove entries, so no entry
    outlives its socket. *)
Theorem registered_iff_alive (evs : list event) (C : conn) :
  registered C (run init evs) = alive C evs.
Proof.
  unfold run, alive. rewrite <- (rev_involutive evs).
  induction (rev evs) as [|e l IH]; simpl; [reflexivity|].
  rewrite !fold_left_app. simpl. rewrite <- IH. apply step_registered.
Qed.

(** The acknowledgement a frame of socket [ws] is answered with. *)
Definition acks (h : hub) (ws : conn) (f : frame) : list (conn * payload) :=
  match f with
  | Parsed type (Some x) =>
      if truthy x && registered ws h && is_open (ready h ws) then
        if type_is "subscribe" type then [(ws, Subscribed x)]
        else if type_is "unsubscribe" type then [(ws, Unsubscribed x)]
        else []
      else []
  | _ => []
  end.

Lemma ws_send_sent h ws p :
  sent (state_of (ws_send h ws p)) =
  sent h ++ (if is_open (ready h ws) then [(ws, p)] else []).
Proof.
  unfold ws_send. destruct (ready h ws); simpl; rewrite ?app_nil_r; reflexivity.
Qed.

Lemma on_message_sent h ws f :
  sent (on_message h ws f) = sent h ++ acks h ws f.
Proof.
  unfold acks, registered.
  destruct f as [|type [x|]].
  - simpl. rewrite app_nil_r. reflexivity.
  - unfold on_message. cbn [falsy or_else].
    destruct (truthy x) eqn:Hx; cbn [negb andb].
    2:{ rewrite !andb_false_r. rewrite app_nil_r. reflexivity. }
    rewrite !andb_true_r.
    destruct type as [t|]; cbn [type_is].
    2:{ destruct (JsMap.get ws (subs h)); [destruct (is_open (ready h ws))|];
        rewrite app_nil_r; reflexivity. }
    unfold str_eqb.
    destruct (bool_decide_reflect (t = js "subscribe")) as [->|Hns].
    + rewrite bool_decide_false by apply subscribe_ne_unsubscribe.
      unfold do_subscribe. destruct (JsMap.get ws (subs h)) as [set|]; cbn [andb].
      2:{ rewrite app_nil_r. reflexivity. }
      match goal with |- context [ws_send ?a ?b ?c] =>
        pose proof (ws_send_sent a b c) as Hs; destruct (ws_send a b c) end;
        cbn [state_of] in Hs; rewrite Hs; cbn [ready with_subs];
        destruct (is_open (ready h ws)); reflexivity.
    + destruct (bool_decide_reflect (t = js "unsubscribe")) as [->|Hnu].
      * unfold do_unsubscribe. destruct (JsMap.get ws (subs h)) as [set|]; cbn [andb].
        2:{ rewrite app_nil_r. reflexivity. }
        rewrite ws_send_sent. cbn [ready with_subs sent].
        destruct (is_open (ready h ws)); reflexivity.
      * destruct (JsMap.get ws (subs h)); [destruct (is_open (ready h ws))|];
          rewrite app_nil_r; reflexivity.
  - unfold on_message. cbn [falsy negb]. rewrite !andb_false_r, app_nil_r. reflexivity.
Qed.

(** X6.  A client frame is answered with one acknowledgement to its own
    socket exactly when it is a subscribe or unsubscribe frame with a
    non-empty chat id, from a registered socket whose transport is open;
    nothing else is ever written.  The frame leaves the sets of all other
    sockets and every transport state as they were. *)
Theorem frame_acknowledged (h : hub) (C : conn) (f : frame) :
  sent (on_message h C f) = sent h ++ acks h C f /\
  ready (on_message h C f) = ready h /\
  (forall ws, ws <> C ->
     JsMap.get ws (subs (on_message h C f)) = JsMap.get ws (subs h)).
Proof.
  split; [apply on_message_sent|]. split; [apply on_message_ready|].
  intros ws Hne. rewrite on_message_subs.
  destruct f as [|type [x|]]; try reflexivity.
  destruct (truthy x); [|reflexivity].
  destruct (JsMap.get C (subs h)); [|reflexivity].
  destruct (type_is "subscribe" type); [|destruct (type_is "unsubscribe" type)];
    try reflexivity; apply get_set_ne; congruence.
Qed.

Lemma set_get_id {V} C (v : V) (m : list (conn * V)) :
  JsMap.get C m = Some v -> JsMap.set C v m = m.
Proof.
  induction m as [|[k v'] m IH]; simpl; [discriminate|].
  destruct (decide (C = k)) as [->|Hne].
  - intros [= ->]. reflexivity.
  - intros Hg. rewrite IH by exact Hg. reflexivity.
Qed.

(** X7.  For a registered socket that is not subscribed to chat [X], a
    subscribe frame for [X] followed by an unsubscribe frame for [X] leaves
    [subs] exactly as it was. *)
Theorem subscribe_then_unsubscribe (h : hub) (C : conn) (set : gset jsstring)
    (X : jsstring) :
  JsMap.get C (subs h) = Some set ->
  has set X = false ->
  subs (on_message (on_message h C (subscribe_frame X)) C (unsubscribe_frame X)) = subs h.
Proof.
  intros Hget Hnot.
  unfold unsubscribe_frame. rewrite on_message_subs, subscribe_subs, Hget.
  replace (type_is "subscribe" (Some (js "unsubscribe"))) with false by reflexivity.
  replace (type_is "unsubscribe" (Some (js "unsubscribe"))) with true by reflexivity.
  destruct (truthy X); [|reflexivity].
  rewrite get_set_eq, set_set.
  assert (Hset : ({[X]} ∪ set) ∖ {[X]} = set).
  { apply set_eq. intros x. rewrite elem_of_difference, elem_of_union, elem_of_singleton.
    unfold has in Hnot. apply bool_decide_eq_false in Hnot.
    split; [intros [[->|Hin] Hne]; [contradiction|exact Hin]|].
    intros Hin. split; [right; exact Hin|]. intros ->. contradiction. }
  rewrite Hset. apply set_get_id, Hget.
Qed.

Lemma subscribe_then_unsubscribe_witness :
  subs (run init [Connection 1%nat; Message 1%nat (subscribe_frame (js "y"));
                  Message 1%nat (subscribe_frame (js "x"));
                  Message 1%nat (unsubscribe_frame (js "x"))])
  = subs (run init [Connection 1%nat; Message 1%nat (subscribe_frame (js "y"))]).
Proof.
  exact (subscribe_then_unsubscribe
           (run init [Connection 1%nat; Message 1%nat (subscribe_frame (js "y"))])
           1%nat ({[js "y"]} ∪ ∅) (js "x") eq_refl eq_refl).
Defined.

End HubLifecycle.

(** ** Posting a message ([POST /api/messages], Postgres server) *)

Section Posting.
Import Hub.

(** What [encrypt] returns under a 32-byte key, and that [decrypt] reads
    it back when the text is well formed. *)
Lemma encrypt_ok (key : jsstring) (rnd : list byte) (text : jsstring) :
  length (Utf8.encode key) = 32%nat -> rnd <> [] ->
  Codec.encrypt key rnd text =
  Ok {| Codec.data :=
          Base64.encode (fst (GCM.seal (Utf8.encode key) rnd (Utf8.encode text))
                         ++ snd (GCM.seal (Utf8.encode key) rnd (Utf8.encode text)));
        Codec.iv := Base64.encode rnd |}.
Proof.
  intros Hkey Hrnd. unfold Codec.encrypt, Codec.check_params. rewrite Hkey.
  destruct rnd as [|b rnd]; [contradiction|]. cbn [length Nat.eqb negb Exn.bind].
  destruct (GCM.seal (Utf8.encode key) (b :: rnd) (Utf8.encode text)). reflexivity.
Qed.

Lemma Ok_inj {A} (a b : A) : Ok a = Ok b -> a = b.
Proof. intros [= ->]. reflexivity. Qed.

Lemma decrypt_sealed (key : jsstring) (rnd : list byte) (text : jsstring) (s : Codec.sealed) :
  length (Utf8.encode key) = 32%nat -> rnd <> [] -> Utf8.well_formed text = true ->
  Codec.encrypt key rnd text = Ok s ->
  Codec.decrypt key (Codec.data s) (Codec.iv s) = Ok text.
Proof.
  intros Hkey Hrnd Hwf Henc. rewrite (encrypt_ok key rnd text Hkey Hrnd) in Henc.
  apply Ok_inj in Henc. subst s. unfold Codec.decrypt, Codec.check_params.
  cbn [Codec.data Codec.iv]. rewrite !base64_roundtrip, Hkey.
  destruct rnd as [|b rnd]; [contradiction|]. cbn [length Nat.eqb negb Exn.bind].
  set (sealed := GCM.seal (Utf8.encode key) (b :: rnd) (Utf8.encode text)).
  assert (Htag : length (snd sealed) = 16%nat) by apply tag_length, Hkey.
  change 16%Z with (Z.of_nat 16). rewrite <- Htag.
  rewrite slice_suffix, slice_before_suffix, Htag. cbn [Nat.eqb Exn.bind].
  unfold sealed. rewrite (open_seal _ Hkey), utf8_roundtrip by exact Hwf. reflexivity.
Qed.

(** The record and the message object of a successful post; [chat_id] is
    the chat id as the database holds it. *)
Definition posted_row (d : Pg.db) (u : Pg.req_user) (chat_id : jsstring)
    (s : Codec.sealed) (now : Z) : Pg.message_row :=
  {| Pg.m_id := Pg.messages_seq d + 1; Pg.m_chat_id := chat_id;
     Pg.m_sender_id := Pg.ru_id u; Pg.m_content := Codec.data s;
     Pg.m_iv := Codec.iv s; Pg.m_created_at := now |}.

Definition posted_message (d : Pg.db) (u : Pg.req_user) (chat_id content : jsstring)
    (now : Z) : message :=
  {| msg_id := String_N (Pg.messages_seq d + 1); msg_chat_id := chat_id;
     msg_sender_id := String_N (Pg.ru_id u); msg_content := content;
     msg_created_at := now |}.

Lemma post_message_ok (key : jsstring) (rnd : list byte) (now : Z) (d : Pg.db) (h : hub)
    (u : Pg.req_user) (chatId content : jsstring) (s : Codec.sealed) :
  truthy chatId = true -> truthy content = true ->
  Codec.encrypt key rnd content = Ok s ->
  Pg.refused_text chatId = false ->
  Pg.ru_id u <= Pg.int4_max ->
  Pg.user_exists d (Pg.ru_id u) = true ->
  Pg.post_message key rnd now d h u
    {| Pg.mb_chatId := Some chatId; Pg.mb_content := Some content |}
  = ({| Pg.users := Pg.users d;
        Pg.messages := Pg.messages d ++ [posted_row d u (Pg.stored_text chatId) s now];
        Pg.messages_seq := Pg.messages_seq d + 1; Pg.friends := Pg.friends d |},
     broadcastToChat h chatId
       (MessageEvent (posted_message d u (Pg.stored_text chatId) content now)),
     ok (MessageBody (posted_message d u (Pg.stored_text chatId) content now))).
Proof.
  intros HchatId Hcontent Henc Htext Hid Hu. unfold Pg.post_message, Pg.text_param.
  cbn [Pg.mb_chatId Pg.mb_content falsy or_else]. rewrite HchatId, Hcontent.
  cbn [negb orb]. rewrite Henc, Htext, Hu.
  replace (Pg.int4_max <? Pg.ru_id u) with false by (symmetry; apply N.ltb_ge, Hid).
  reflexivity.
Qed.

(** X8.  A post by an existing user under a 32-byte key, with a content
    and a chat id the database takes as text (no U+0000), is answered 200
    with the message, plaintext included; one record is appended, holding
    the next identifier, the ciphertext and the chat id as the database
    holds it (an unpaired surrogate has become U+FFFD), which is also the
    chat id of the message object; and every socket of a hub with one
    entry per socket is written that message object once if it is
    subscribed to the chat id of the request and open, and nothing
    otherwise.  Subscriptions are left as they were. *)
Theorem post_message_delivers (key : jsstring) (rnd : list byte) (now : Z) (d : Pg.db)
    (h : hub) (u : Pg.req_user) (chatId content : jsstring) :
  length (Utf8.encode key) = 32%nat -> rnd <> [] ->
  truthy chatId = true -> truthy content = true ->
  Pg.refused_text chatId = false ->
  Pg.ru_id u <= Pg.int4_max ->
  Pg.user_exists d (Pg.ru_id u) = true ->
  wf h ->
  let body := {| Pg.mb_chatId := Some chatId; Pg.mb_content := Some content |} in
  let result := Pg.post_message key rnd now d h u body in
  let message := posted_message d u (Pg.stored_text chatId) content now in
  snd result = ok (MessageBody message) /\
  (exists s, Codec.encrypt key rnd content = Ok s /\
             Pg.messages (fst (fst result))
             = Pg.messages d ++ [posted_row d u (Pg.stored_text chatId) s now]) /\
  subs (snd (fst result)) = subs h /\
  (forall C, sent_to C (snd (fst result))
             = sent_to C h ++ delivery C chatId (MessageEvent message) h).
Proof.
  intros Hkey Hrnd HchatId Hcontent Htext Hid Hu Hwf body result message.
  pose proof (encrypt_ok key rnd content Hkey Hrnd) as Henc.
  unfold result, body.
  rewrite (post_message_ok key rnd now d h u chatId content _ HchatId Hcontent Henc
             Htext Hid Hu).
  cbn [fst snd Pg.messages]. split; [reflexivity|].
  split; [eexists; split; [exact Henc|reflexivity]|].
  split; [apply broadcast_subs|].
  intros C. apply broadcast_sent_to, Hwf.
Qed.

Lemma post_message_delivers_witness :
  sent_to 1%nat
    (snd (fst (Pg.post_message default_key nonce1 10 two_users two_chat_hub alice_pg
                 {| Pg.mb_chatId := Some (js "x"); Pg.mb_content := Some (js "hi") |})))
  = sent_to 1%nat two_chat_hub
    ++ [MessageEvent (posted_message two_users alice_pg (js "x") (js "hi") 10)].
Proof.
  assert (Hwf : wf two_chat_hub) by (apply (bool_decide_unpack _); vm_compute; exact I).
  assert (Hrnd : nonce1 <> []) by discriminate.
  assert (Hid : Pg.ru_id alice_pg <= Pg.int4_max) by (vm_compute; discriminate).
  destruct (post_message_delivers default_key nonce1 10 two_users two_chat_hub alice_pg
              (js "x") (js "hi") eq_refl Hrnd eq_refl eq_refl eq_refl Hid eq_refl Hwf)
    as (_ & _ & _ & Hsent).
  exact (Hsent 1%nat).
Defined.

(** X9.  Whatever the request, [POST /api/messages] touches neither users
    nor friend edges, and unless it answers 200 it stores no record and
    leaves the hub, the log of written frames included, as it was: nothing
    is broadcast for a message that was not stored. *)
Theorem post_message_failure_is_silent (key : jsstring) (rnd : list byte) (now : Z)
    (d : Pg.db) (h : hub) (u : Pg.req_user) (b : Pg.message_body) :
  let result := Pg.post_message key rnd now d h u b in
  Pg.users (fst (fst result)) = Pg.users d /\
  Pg.friends (fst (fst result)) = Pg.friends d /\
  (status (snd result) = 200 \/
   (Pg.messages (fst (fst result)) = Pg.messages d /\ snd (fst result) = h)).
Proof.
  intros result. unfold result, Pg.post_message.
  destruct (falsy (Pg.mb_chatId b) || falsy (Pg.mb_content b)); [simpl; auto|].
  destruct (Codec.encrypt key rnd (or_else (Pg.mb_content b) [])); [|simpl; auto].
  destruct (Pg.text_param (or_else (Pg.mb_chatId b) [])); [|simpl; auto].
  destruct (Pg.int4_max <? Pg.ru_id u); [simpl; auto|].
  destruct (negb (Pg.user_exists d (Pg.ru_id u))); simpl; auto.
Qed.

(** Identifiers in storage order are strictly increasing and bounded by
    the sequence. *)
Definition ids_ascend (d : Pg.db) : Prop :=
  Sorted N.lt (map Pg.m_id (Pg.messages d)) /\
  Forall (fun r => Pg.m_id r <= Pg.messages_seq d) (Pg.messages d).

Lemma Sorted_snoc (l : list N) (x : N) :
  Sorted N.lt l -> Forall (fun y => y < x) l -> Sorted N.lt (l ++ [x]).
Proof.
  induction l as [|y l IH]; simpl; intros Hs Hall.
  - constructor; constructor.
  - inversion Hs as [|? ? Hs' Hhd]; subst. inversion Hall as [|? ? Hy Hall']; subst.
    constructor; [auto|].
    destruct l as [|z l]; simpl; constructor; [exact Hy|].
    inversion Hhd; subst. assumption.
Qed.

(** X10.  [POST /api/messages] keeps the stored identifiers strictly
    increasing in storage order: every stored message gets an identifier
    larger than all earlier ones, whatever the clock reads and whether or
    not earlier requests failed. *)
Theorem post_message_ids_ascend (key : jsstring) (rnd : list byte) (now : Z)
    (d : Pg.db) (h : hub) (u : Pg.req_user) (b : Pg.message_body) :
  ids_ascend d -> ids_ascend (fst (fst (Pg.post_message key rnd now d h u b))).
Proof.
  intros [Hsorted Hbound]. unfold Pg.post_message.
  destruct (falsy (Pg.mb_chatId b) || falsy (Pg.mb_content b)); [split; assumption|].
  destruct (Codec.encrypt key rnd (or_else (Pg.mb_content b) [])); [|split; assumption].
  destruct (Pg.text_param (or_else (Pg.mb_chatId b) [])); [|split; assumption].
  destruct (Pg.int4_max <? Pg.ru_id u); [split; assumption|].
  assert (Hweaker : Forall (fun r => Pg.m_id r <= Pg.messages_seq d + 1) (Pg.messages d)).
  { eapply List.Forall_impl; [|exact Hbound]. simpl. intros r Hr. lia. }
  destruct (negb (Pg.user_exists d (Pg.ru_id u))); cbn [fst]; split; cbn [Pg.messages Pg.messages_seq].
  - exact Hsorted.
  - exact Hweaker.
  - rewrite map_app. apply Sorted_snoc; [exact Hsorted|].
    apply List.Forall_forall. intros y Hy. apply in_map_iff in Hy as (r & <- & Hr).
    rewrite List.Forall_forall in Hbound. specialize (Hbound r).
    assert (Pg.m_id r <= Pg.messages_seq d) by (apply Hbound; exact Hr).
    simpl. lia.
  - apply List.Forall_app. split; [exact Hweaker|]. constructor; [simpl; lia|constructor].
Qed.

Lemma post_message_ids_ascend_witness :
  ids_ascend (fst (fst (Pg.post_message default_key nonce1 10 two_users init alice_pg
                          (say "hi")))).
Proof.
  apply post_message_ids_ascend. split; constructor.
Defined.

Lemma forallb_perm {A} (f : A -> bool) (l l' : list A) :
  Permutation l l' -> forallb f l' = true -> forallb f l = true.
Proof.
  intros Hp Hall. rewrite List.forallb_forall in *. intros x Hx.
  apply Hall. eapply Permutation_in; [exact Hp|exact Hx].
Qed.

(** X11.  A message that was just posted can be fetched: after a post by an
    existing user of a well-formed text to a chat whose id is well formed
    and holds no U+0000, and when the chat's earlier records decrypt,
    [GET /api/messages] for that chat answers 200 with one message more than
    the chat had, among them the posted message with its plaintext. *)
Theorem post_then_history (key : jsstring) (rnd : list byte) (now : Z) (d : Pg.db)
    (h : hub) (u : Pg.req_user) (chatId content : jsstring) :
  length (Utf8.encode key) = 32%nat -> rnd <> [] ->
  truthy chatId = true -> truthy content = true ->
  Pg.refused_text chatId = false ->
  Utf8.well_formed chatId = true ->
  Utf8.well_formed content = true ->
  Pg.ru_id u <= Pg.int4_max ->
  Pg.user_exists d (Pg.ru_id u) = true ->
  forallb (pg_decrypts key)
          (List.filter (fun r => str_eqb (Pg.m_chat_id r) chatId) (Pg.messages d)) = true ->
  let body := {| Pg.mb_chatId := Some chatId; Pg.mb_content := Some content |} in
  let d' := fst (fst (Pg.post_message key rnd now d h u body)) in
  exists ms,
    Pg.get_messages key d' (Some chatId) = ok (MessagesBody ms) /\
    In (posted_message d u chatId content now) ms /\
    length ms =
      S (length (List.filter (fun r => str_eqb (Pg.m_chat_id r) chatId) (Pg.messages d))).
Proof.
  intros Hkey Hrnd HchatId Hcontent Htext Hwfc Hwf Hid Hu Hold body d'.
  assert (Hstored : Pg.stored_text chatId = chatId) by (apply utf8_roundtrip, Hwfc).
  pose proof (encrypt_ok key rnd content Hkey Hrnd) as Henc.
  set (s := {| Codec.data := _; Codec.iv := _ |}) in Henc.
  pose proof (decrypt_sealed key rnd content s Hkey Hrnd Hwf Henc) as Hdec.
  set (row := posted_row d u chatId s now).
  set (old := List.filter (fun r => str_eqb (Pg.m_chat_id r) chatId) (Pg.messages d)) in *.
  assert (Hrows : Pg.select_messages d' chatId = sort_on Pg.m_created_at (old ++ [row])).
  { unfold d', body.
    rewrite (post_message_ok key rnd now d h u chatId content s HchatId Hcontent Henc
               Htext Hid Hu), Hstored.
    unfold Pg.select_messages. cbn [fst Pg.messages].
    rewrite List.filter_app. cbn [List.filter Pg.m_chat_id posted_row].
    rewrite str_eqb_refl. reflexivity. }
  assert (Hperm : Permutation (Pg.select_messages d' chatId) (old ++ [row])).
  { rewrite Hrows. apply sort_on_perm. }
  assert (Hrow : Pg.present key row = Ok (posted_message d u chatId content now)).
  { unfold Pg.present, row. cbn [Pg.m_content Pg.m_iv posted_row]. rewrite Hdec.
    reflexivity. }
  assert (Hall : forallb (pg_decrypts key) (Pg.select_messages d' chatId) = true).
  { apply (forallb_perm _ _ _ Hperm). rewrite forallb_app, Hold. cbn [forallb].
    unfold pg_decrypts, row. cbn [Pg.m_content Pg.m_iv posted_row]. rewrite Hdec.
    reflexivity. }
  exists (map (fun r => value_or (Pg.present key r) no_message)
              (Pg.select_messages d' chatId)).
  split; [|split].
  - unfold Pg.get_messages, Pg.query_messages. cbn [falsy or_else].
    rewrite HchatId. cbn [negb]. rewrite Htext. cbn [Exn.bind].
    pose proof (map_throwing_cases (Pg.present key) no_message
                  (Pg.select_messages d' chatId)) as Hc.
    rewrite (forallb_eq _ _ _ (pg_present_succeeds key)), Hall in Hc.
    rewrite Hc. reflexivity.
  - apply in_map_iff. exists row. split; [rewrite Hrow; reflexivity|].
    eapply Permutation_in; [symmetry; exact Hperm|].
    apply in_or_app. right. left. reflexivity.
  - rewrite length_map, (Permutation_length Hperm), length_app. simpl. lia.
Qed.

Lemma post_then_history_witness :
  exists ms,
    Pg.get_messages default_key
      (fst (fst (Pg.post_message default_key nonce1 10 two_users init alice_pg (say "hi"))))
      (Some chat_1_2) = ok (MessagesBody ms) /\
    In (posted_message two_users alice_pg chat_1_2 (js "hi") 10) ms /\
    length ms = 1%nat.
Proof.
  assert (Hrnd : nonce1 <> []) by discriminate.
  assert (Hid : Pg.ru_id alice_pg <= Pg.int4_max) by (vm_compute; discriminate).
  exact (post_then_history default_key nonce1 10 two_users init alice_pg chat_1_2 (js "hi")
           eq_refl Hrnd eq_refl eq_refl eq_refl eq_refl eq_refl Hid eq_refl eq_refl).
Defined.

End Posting.

(** ** A history holds one chat *)

Section HistoryIsolation.

Lemma In_sort_on {A} (key : A -> Z) (l : list A) (x : A) :
  In x (sort_on key l) -> In x l.
Proof. apply Permutation_in, sort_on_perm. Qed.

Lemma str_eqb_eq (s t : jsstring) : str_eqb s t = true -> s = t.
Proof. apply bool_decide_eq_true. Qed.

Lemma ok_messages_inj (a b : list Hub.message) :
  ok (MessagesBody a) = ok (MessagesBody b) -> a = b.
Proof. unfold ok. intros [= ->]. reflexivity. Qed.

(** X12.  A history fetch never shows a message of another chat: on both
    servers every message of a 200 answer carries the chat id that was
    asked for. *)
Theorem history_only_this_chat :
  (forall (key chatId : jsstring) (d : Pg.db) (ms : list Hub.message),
      Pg.get_messages key d (Some chatId) = ok (MessagesBody ms) ->
      Forall (fun m => Hub.msg_chat_id m = chatId) ms) /\
  (forall (key chatId : jsstring) (d : Mongo.db) (ms : list Hub.message),
      Mongo.get_messages key d (Some chatId) = ok (MessagesBody ms) ->
      Forall (fun m => Hub.msg_chat_id m = chatId) ms).
Proof.
  split.
  - intros key chatId d ms Hget. unfold Pg.get_messages, Pg.query_messages in Hget.
    destruct (falsy (Some chatId)) eqn:Hf; [discriminate|].
    assert (HchatId : or_else (Some chatId) [] = chatId).
    { simpl in *. destruct (truthy chatId); [reflexivity|discriminate]. }
    rewrite HchatId in Hget.
    destruct (Pg.refused_text chatId); [discriminate|]. cbn [Exn.bind] in Hget.
    destruct (map_throwing (Pg.present key) (Pg.select_messages d chatId))
      as [out|e] eqn:Hmap; [|discriminate].
    apply ok_messages_inj in Hget. subst out.
    apply map_throwing_ok in Hmap.
    assert (Hrows : List.Forall (fun r => Pg.m_chat_id r = chatId)
                                (Pg.select_messages d chatId)).
    { apply List.Forall_forall. intros r Hr. apply In_sort_on in Hr.
      apply filter_In in Hr as [_ Hr]. apply str_eqb_eq, Hr. }
    induction Hmap as [|r m rows msgs Hr _ IH]; [constructor|].
    inversion Hrows as [|? ? Hc Hrows']; subst. constructor; [|auto].
    unfold Pg.present in Hr.
    destruct (Codec.decrypt key (Pg.m_content r) (Pg.m_iv r)); [|discriminate].
    apply Ok_inj in Hr. subst m. reflexivity.
  - intros key chatId d ms Hget. unfold Mongo.get_messages in Hget.
    destruct (falsy (Some chatId)) eqn:Hf; [discriminate|].
    assert (HchatId : or_else (Some chatId) [] = chatId).
    { simpl in *. destruct (truthy chatId); [reflexivity|discriminate]. }
    rewrite HchatId in Hget.
    destruct (map_throwing (Mongo.present key) (Mongo.find_messages d chatId))
      as [out|e] eqn:Hmap; [|discriminate].
    apply ok_messages_inj in Hget. subst out.
    apply map_throwing_ok in Hmap.
    assert (Hrows : List.Forall (fun r => Mongo.m_chatId r = chatId)
                                (Mongo.find_messages d chatId)).
    { apply List.Forall_forall. intros r Hr. apply In_sort_on in Hr.
      apply filter_In in Hr as [_ Hr]. apply str_eqb_eq, Hr. }
    induction Hmap as [|r m rows msgs Hr _ IH]; [constructor|].
    inversion Hrows as [|? ? Hc Hrows']; subst. constructor; [|auto].
    unfold Mongo.present in Hr.
    destruct (Codec.decrypt key (Mongo.m_content r) (Mongo.m_iv r)); [|discriminate].
    apply Ok_inj in Hr. subst m. reflexivity.
Qed.

Lemma history_only_this_chat_witness :
  Forall (fun m => Hub.msg_chat_id m = chat_1_2)
         [shown (js "2") (js "1") "again" 5; shown (js "1") (js "1") "hi" 10].
Proof.
  exact (proj1 history_only_this_chat default_key chat_1_2 skewed _ skewed_history_pg).
Defined.

End HistoryIsolation.

(** ** Friend edges and friend lists *)

Section FriendshipInvariant.
Import FriendList.

(** The stored edges come in pairs, join no user to itself, and hold each
    ordered pair once. *)
Definition edges_ok {A} (edges : list (A * A)) : Prop :=
  (forall a b, In (a, b) edges -> In (b, a) edges) /\
  (forall a, ~ In (a, a) edges) /\
  NoDup edges.

Lemma edges_ok_add {A} (edges : list (A * A)) (a b : A) :
  edges_ok edges -> a <> b -> ~ In (a, b) edges ->
  edges_ok (edges ++ [(a, b); (b, a)]).
Proof.
  intros (Hsym & Hirr & Hnd) Hab Hnot.
  assert (Hnot' : ~ In (b, a) edges) by (intros Hin; apply Hnot, Hsym, Hin).
  split; [|split].
  - intros x y Hin. apply in_app_or in Hin as [Hin|Hin].
    + apply in_or_app. left. apply Hsym, Hin.
    + apply in_or_app. right. simpl in *.
      destruct Hin as [[= <- <-]|[[= <- <-]|[]]]; auto.
  - intros x Hin. apply in_app_or in Hin as [Hin|Hin]; [eapply Hirr, Hin|].
    simpl in Hin. destruct Hin as [[= <- <-]|[[= <- <-]|[]]]; congruence.
  - apply NoDup_app. split; [exact Hnd|]. split.
    + intros x Hx Hin. apply list_elem_of_In in Hx, Hin. simpl in Hin.
      destruct Hin as [<-|[<-|[]]]; contradiction.
    + apply NoDup_cons. split; [|apply NoDup_singleton].
      rewrite list_elem_of_In. simpl. intros [[= -> _]|[]]. congruence.
Qed.

Lemma pg_edge_In (a b : N) (edges : list Pg.friend_row) :
  existsb (pg_edge a b) edges = true <-> In (a, b) edges.
Proof.
  rewrite existsb_exists. split.
  - intros ([x y] & Hin & Hedge). unfold pg_edge in Hedge. simpl in Hedge.
    apply andb_true_iff in Hedge as [Hx Hy].
    apply N.eqb_eq in Hx, Hy. subst. exact Hin.
  - intros Hin. exists (a, b). split; [exact Hin|].
    unfold pg_edge. simpl. rewrite !N.eqb_refl. reflexivity.
Qed.

(** X13.  On the Postgres server [POST /api/friends/add] keeps the friend
    edges well paired whatever the caller and the body: if every stored edge
    has its reverse, no user is joined to itself and no ordered pair is
    stored twice, the same holds after the request, whether it succeeded or
    failed. *)
Theorem pg_add_friend_keeps_edges_paired
    (d : Pg.db) (u : Pg.req_user) (b : Pg.friend_body) :
  edges_ok (Pg.friends d) -> edges_ok (Pg.friends (fst (Pg.add_friend d u b))).
Proof.
  intros Hok. unfold Pg.add_friend.
  destruct (falsy (or_opt (Pg.fb_identifier b) (Pg.fb_username b))); [exact Hok|].
  destruct (Pg.find_user d _) as [friend|] eqn:Hfind; [|exact Hok].
  destruct (str_eqb (String_N (Pg.u_id friend)) (String_N (Pg.ru_id u))) eqn:Hself;
    [exact Hok|].
  assert (Hne : Pg.ru_id u <> Pg.u_id friend).
  { intros Heq. rewrite Heq, str_eqb_refl in Hself. discriminate. }
  rewrite !pg_upsert_unfold.
  destruct (existsb (pg_edge (Pg.ru_id u) (Pg.u_id friend)) (Pg.friends d)) eqn:Hex.
  - (* the edge is there, and so is its reverse *)
    assert (Hrev : existsb (pg_edge (Pg.u_id friend) (Pg.ru_id u)) (Pg.friends d) = true).
    { apply pg_edge_In. apply (proj1 Hok). apply pg_edge_In, Hex. }
    rewrite pg_upsert_unfold, Hrev. exact Hok.
  - destruct (Pg.user_exists d (Pg.ru_id u) && Pg.user_exists d (Pg.u_id friend)) eqn:Hfk;
      [|exact Hok].
    rewrite pg_upsert_unfold. cbn [Pg.friends Pg.users].
    assert (Hnot : ~ In (Pg.ru_id u, Pg.u_id friend) (Pg.friends d)).
    { intros Hin. apply pg_edge_In in Hin. congruence. }
    assert (Hrev : existsb (pg_edge (Pg.u_id friend) (Pg.ru_id u))
                           (Pg.friends d ++ [(Pg.ru_id u, Pg.u_id friend)]) = false).
    { apply not_true_is_false. intros Hin. apply pg_edge_In in Hin.
      apply in_app_or in Hin as [Hin|Hin].
      - apply Hnot. apply (proj1 Hok), Hin.
      - simpl in Hin. destruct Hin as [[= ? ?]|[]]. congruence. }
    rewrite Hrev.
    replace (Pg.user_exists _ (Pg.u_id friend) && Pg.user_exists _ (Pg.ru_id u))
      with true by (rewrite andb_comm; symmetry; exact Hfk).
    cbn [fst Pg.friends]. rewrite <- app_assoc. apply edges_ok_add; assumption.
Qed.

Lemma pg_add_friend_keeps_edges_paired_witness :
  edges_ok (Pg.friends (fst (Pg.add_friend two_users alice_pg add_bob_pg))).
Proof.
  apply pg_add_friend_keeps_edges_paired. split; [|split].
  - intros a b [].
  - intros a [].
  - apply NoDup_nil_2.
Defined.

Lemma mongo_find_friend_None (d : Mongo.db) (a b : Mongo.oid) :
  Mongo.find_friend d a b = None <-> ~ In (a, b) (Mongo.friends d).
Proof.
  unfold Mongo.find_friend. split.
  - intros Hnone Hin.
    apply (List.find_none _ _ Hnone) in Hin. simpl in Hin.
    rewrite !str_eqb_refl in Hin. discriminate.
  - intros Hnot.
    destruct (List.find (fun r : Mongo.friend_doc => str_eqb (fst r) a && str_eqb (snd r) b)
                        (Mongo.friends d)) as [[x y]|] eqn:Hf; [exfalso|exact Hf].
    apply List.find_some in Hf as [Hin Hedge]. simpl in Hedge.
    apply andb_true_iff in Hedge as [Hx Hy].
    apply str_eqb_eq in Hx, Hy. subst. contradiction.
Qed.

(** X14.  The same on the MongoDB server, with or without a unique index on
    the pair: [POST /api/friends/add] keeps every stored edge paired with
    its reverse, joins no user to itself and stores no ordered pair twice. *)
Theorem mongo_add_friend_keeps_edges_paired
    (unique_pair : bool) (d : Mongo.db) (u : Mongo.req_user) (b : Mongo.friend_body) :
  edges_ok (Mongo.friends d) ->
  edges_ok (Mongo.friends (fst (Mongo.add_friend unique_pair d u b))).
Proof.
  intros Hok. unfold Mongo.add_friend.
  destruct (falsy (or_opt (Mongo.fb_identifier b) (Mongo.fb_username b))); [exact Hok|].
  destruct (Mongo.find_user d _) as [friend|] eqn:Hfind; [|exact Hok].
  destruct (str_eqb (Mongo.u_id friend) (Mongo.ru_id u)) eqn:Hself; [exact Hok|].
  assert (Hne : Mongo.ru_id u <> Mongo.u_id friend).
  { intros Heq. rewrite Heq, str_eqb_refl in Hself. discriminate. }
  destruct (Mongo.find_friend d (Mongo.ru_id u) (Mongo.u_id friend)) eqn:Hguard;
    [exact Hok|].
  pose proof (proj1 (mongo_find_friend_None _ _ _) Hguard) as Hnot.
  unfold Mongo.save_friend at 1. rewrite Hguard.
  rewrite bool_decide_false by (intros [? [=]]). rewrite andb_false_r.
  assert (Hrev : Mongo.find_friend
                   {| Mongo.users := Mongo.users d; Mongo.messages := Mongo.messages d;
                      Mongo.friends := Mongo.friends d
                                         ++ [(Mongo.ru_id u, Mongo.u_id friend)] |}
                   (Mongo.u_id friend) (Mongo.ru_id u) = None).
  { apply mongo_find_friend_None. cbn [Mongo.friends]. intros Hin.
    apply in_app_or in Hin as [Hin|Hin].
    - apply Hnot. apply (proj1 Hok), Hin.
    - simpl in Hin. destruct Hin as [[= ? ?]|[]]. congruence. }
  unfold Mongo.save_friend. rewrite Hrev.
  rewrite bool_decide_false by (intros [? [=]]). rewrite andb_false_r.
  cbn [fst Mongo.friends]. rewrite <- app_assoc. apply edges_ok_add; assumption.
Qed.

Lemma mongo_add_friend_keeps_edges_paired_witness :
  edges_ok (Mongo.friends (fst (Mongo.add_friend false two_docs alice_mongo add_bob_mongo))).
Proof.
  apply mongo_add_friend_keeps_edges_paired. split; [|split].
  - intros a b [].
  - intros a [].
  - apply NoDup_nil_2.
Defined.

(** X15.  After a friend request that was answered 200 on the Postgres
    server, each side lists the other: the caller's friend list holds the
    summary of the user the identifier resolved to, and that user's list
    holds the caller, under the name of the caller's row. *)
Theorem pg_friends_listed_both_ways
    (d : Pg.db) (u : Pg.req_user) (b : Pg.friend_body) (friend caller : Pg.user_row) :
  Pg.find_user d (or_else (or_opt (Pg.fb_identifier b) (Pg.fb_username b)) []) = Some friend ->
  In caller (Pg.users d) ->
  Pg.u_id caller = Pg.ru_id u ->
  status (snd (Pg.add_friend d u b)) = 200 ->
  let d' := fst (Pg.add_friend d u b) in
  In {| fs_id := String_N (Pg.u_id friend); fs_username := Pg.u_username friend |}
     (pg_get_friends d' u) /\
  In {| fs_id := String_N (Pg.u_id caller); fs_username := Pg.u_username caller |}
     (pg_get_friends d' {| Pg.ru_id := Pg.u_id friend;
                           Pg.ru_username := Pg.u_username friend |}).
Proof.
  intros Hfind Hcaller Hid Hstatus d'.
  assert (Hfriend : In friend (Pg.users d)).
  { unfold Pg.find_user in Hfind. apply List.find_some in Hfind. tauto. }
  assert (Hlisted : forall (db : Pg.db) (a c : Pg.user_row),
             Pg.users db = Pg.users d -> In c (Pg.users d) ->
             In (Pg.u_id a, Pg.u_id c) (Pg.friends db) ->
             In {| fs_id := String_N (Pg.u_id c); fs_username := Pg.u_username c |}
                (pg_get_friends db {| Pg.ru_id := Pg.u_id a;
                                      Pg.ru_username := Pg.u_username a |})).
  { intros db a c Hu Hc Hedge. unfold pg_get_friends. apply in_flat_map.
    exists (Pg.u_id a, Pg.u_id c). split; [exact Hedge|].
    cbn [fst snd Pg.ru_id]. rewrite N.eqb_refl.
    apply in_map_iff. exists c. split; [reflexivity|].
    apply filter_In. split; [rewrite Hu; exact Hc|apply N.eqb_refl]. }
  assert (Hboth : Pg.users d' = Pg.users d /\
                  In (Pg.ru_id u, Pg.u_id friend) (Pg.friends d') /\
                  In (Pg.u_id friend, Pg.ru_id u) (Pg.friends d')).
  { unfold d' in *. unfold Pg.add_friend in *.
    destruct (falsy (or_opt (Pg.fb_identifier b) (Pg.fb_username b))); [discriminate|].
    rewrite Hfind in *.
    destruct (str_eqb (String_N (Pg.u_id friend)) (String_N (Pg.ru_id u))); [discriminate|].
    rewrite pg_upsert_unfold in *.
    destruct (existsb (pg_edge (Pg.ru_id u) (Pg.u_id friend)) (Pg.friends d)) eqn:Hex.
    - rewrite pg_upsert_unfold in *.
      destruct (existsb (pg_edge (Pg.u_id friend) (Pg.ru_id u)) (Pg.friends d)) eqn:Hrev.
      + cbn [fst]. split; [reflexivity|]. split; apply pg_edge_In; assumption.
      + destruct (Pg.user_exists d (Pg.u_id friend) && Pg.user_exists d (Pg.ru_id u));
          [|discriminate].
        cbn [fst Pg.friends Pg.users]. split; [reflexivity|].
        split; apply in_or_app; [left; apply pg_edge_In, Hex|right; left; reflexivity].
    - destruct (Pg.user_exists d (Pg.ru_id u) && Pg.user_exists d (Pg.u_id friend));
        [|discriminate].
      rewrite pg_upsert_unfold in *. cbn [Pg.friends Pg.users] in *.
      destruct (existsb (pg_edge (Pg.u_id friend) (Pg.ru_id u))
                        (Pg.friends d ++ [(Pg.ru_id u, Pg.u_id friend)])) eqn:Hrev.
      + cbn [fst Pg.friends Pg.users]. split; [reflexivity|].
        split; [apply in_or_app; right; left; reflexivity|apply pg_edge_In, Hrev].
      + destruct (Pg.user_exists _ (Pg.u_id friend) && Pg.user_exists _ (Pg.ru_id u));
          [|discriminate].
        cbn [fst Pg.friends Pg.users]. split; [reflexivity|].
        split; apply in_or_app; [left|right; left; reflexivity].
        apply in_or_app. right. left. reflexivity. }
  destruct Hboth as (Hu & Hab & Hba). split.
  - pose proof (Hlisted d' caller friend Hu Hfriend) as H1. rewrite Hid in H1.
    specialize (H1 Hab). unfold pg_get_friends in *. exact H1.
  - apply (Hlisted d' friend caller Hu Hcaller). rewrite Hid. exact Hba.
Qed.

Lemma pg_friends_listed_both_ways_witness :
  In {| fs_id := js "2"; fs_username := js "bob" |}
     (pg_get_friends (fst (Pg.add_friend two_users alice_pg add_bob_pg)) alice_pg) /\
  In {| fs_id := js "1"; fs_username := js "alice" |}
     (pg_get_friends (fst (Pg.add_friend two_users alice_pg add_bob_pg))
                     {| Pg.ru_id := 2; Pg.ru_username := js "bob" |}).
Proof.
  assert (Hin : In alice (Pg.users two_users)) by (left; reflexivity).
  exact (pg_friends_listed_both_ways two_users alice_pg add_bob_pg bob alice
           eq_refl Hin eq_refl eq_refl).
Defined.





End FriendshipInvariant.

(** ** Chat rooms and the chat page *)

Section ChatRooms.

Definition underscore : N := 95.

Lemma split_at_mark (x x' y y' : jsstring) :
  ~ In underscore x -> ~ In underscore x' ->
  x ++ underscore :: y = x' ++ underscore :: y' -> x = x' /\ y = y'.
Proof.
  revert x'. induction x as [|c x IH]; intros [|c' x'] Hx Hx' E; simpl in *.
  - injection E as ->. split; reflexivity.
  - injection E as <- _. exfalso. apply Hx'. left. reflexivity.
  - injection E as -> _. exfalso. apply Hx. left. reflexivity.
  - injection E as -> E. destruct (IH x') as [-> ->]; tauto.
Qed.

Lemma makeChatId_unfold (a b : Chat.id) :
  makeChatId a b =
  js "chat_" ++ (if str_lt (String_ a) (String_ b) then String_ a else String_ b)
             ++ underscore ::
             (if str_lt (String_ a) (String_ b) then String_ b else String_ a).
Proof. unfold makeChatId. destruct (str_lt _ _); reflexivity. Qed.

(** X17.  Two pairs of users whose identifiers contain no underscore get
    the same chat room only when they are the same pair, in either
    order. *)
Theorem makeChatId_separates_pairs (a b c d : Chat.id) :
  ~ In underscore (String_ a) -> ~ In underscore (String_ b) ->
  ~ In underscore (String_ c) -> ~ In underscore (String_ d) ->
  makeChatId a b = makeChatId c d ->
  (String_ a = String_ c /\ String_ b = String_ d) \/
  (String_ a = String_ d /\ String_ b = String_ c).
Proof.
  intros Ha Hb Hc Hd E. rewrite !makeChatId_unfold in E.
  apply app_inv_head in E.
  destruct (str_lt (String_ a) (String_ b)), (str_lt (String_ c) (String_ d));
    apply split_at_mark in E; try assumption; destruct E as [E1 E2]; auto.
Qed.

Lemma makeChatId_separates_pairs_witness :
  (String_ (IdNum 7) = String_ (IdStr (js "12")) /\
   String_ (IdStr (js "12")) = String_ (IdNum 7)) \/
  (String_ (IdNum 7) = String_ (IdNum 7) /\
   String_ (IdStr (js "12")) = String_ (IdStr (js "12"))).
Proof.
  apply (makeChatId_separates_pairs (IdNum 7) (IdStr (js "12")) (IdStr (js "12")) (IdNum 7));
    vm_compute; solve [reflexivity | intuition discriminate].
Defined.

Lemma digits_no_underscore (u : Decimal.uint) : ~ In underscore (digits u).
Proof.
  induction u; simpl; try tauto; intros [H|H]; try discriminate; tauto.
Qed.

(** X18.  For the integer ids of the Postgres server no such hypothesis
    is needed: equal chat rooms mean equal pairs of ids. *)
Theorem makeChatId_numeric_ids (a b c d : N) :
  makeChatId (IdNum (Z.of_N a)) (IdNum (Z.of_N b)) =
  makeChatId (IdNum (Z.of_N c)) (IdNum (Z.of_N d)) ->
  (a = c /\ b = d) \/ (a = d /\ b = c).
Proof.
  assert (HS : forall n, String_ (IdNum (Z.of_N n)) = String_N n).
  { intros [|p]; reflexivity. }
  intros E. rewrite !makeChatId_unfold, !HS in E. apply app_inv_head in E.
  destruct (str_lt (String_N a) (String_N b)), (str_lt (String_N c) (String_N d));
    apply split_at_mark in E; try apply digits_no_underscore;
    destruct E as [E1 E2]; apply String_N_inj in E1, E2; auto.
Qed.

Lemma makeChatId_numeric_ids_witness :
  (2 = 10 /\ 10 = 2) \/ (2 = 2 /\ 10 = 10).
Proof.
  apply (makeChatId_numeric_ids 2 10 10 2). vm_compute. reflexivity.
Defined.

End ChatRooms.

Section LiveMessages.
Import Hub ChatPage.

Variable toLocaleTimeString : Z -> jsstring.
Variable currentUser : option safe_user.

Local Abbreviation view_of := (view_of toLocaleTimeString currentUser).
Local Abbreviation onmessage := (onmessage toLocaleTimeString currentUser).
Local Abbreviation fetchMessagesFor := (fetchMessagesFor toLocaleTimeString currentUser).

Lemma existsb_shown (x : jsstring) (m : list view_message) :
  existsb (fun existing => str_eqb (vm_id existing) x) m = true <-> In x (map vm_id m).
Proof.
  rewrite existsb_exists, in_map_iff. split.
  - intros (e & He & Hx). exists e. split; [apply str_eqb_eq, Hx|exact He].
  - intros (e & Hx & He). exists e. split; [exact He|]. rewrite Hx. apply str_eqb_refl.
Qed.

(** X19.  A payload that arrives twice changes the list of shown messages
    as if it had arrived once. *)
Theorem onmessage_twice (currentChatId : option jsstring) (p : payload)
    (m : list view_message) :
  onmessage currentChatId p (onmessage currentChatId p m) = onmessage currentChatId p m.
Proof.
  destruct p as [x|x|msg]; try reflexivity. unfold ChatPage.onmessage.
  destruct (bool_decide (Some (msg_chat_id msg) = currentChatId)) ; [|reflexivity].
  destruct (existsb (fun existing => str_eqb (vm_id existing) (msg_id msg)) m) eqn:He.
  - rewrite He. reflexivity.
  - assert (H : existsb (fun existing => str_eqb (vm_id existing) (msg_id msg))
                        (m ++ [view_of msg]) = true).
    { apply existsb_shown. rewrite map_app. apply in_or_app. right. left. reflexivity. }
    rewrite H. reflexivity.
Qed.

(** X20.  The ids of the shown messages stay pairwise distinct, whatever
    arrives on the socket. *)
Theorem onmessage_keeps_ids_distinct (currentChatId : option jsstring)
    (ps : list payload) (m : list view_message) :
  List.NoDup (map vm_id m) ->
  List.NoDup (map vm_id (fold_left (fun m p => onmessage currentChatId p m) ps m)).
Proof.
  revert m. induction ps as [|p ps IH]; intros m Hm; simpl; [exact Hm|].
  apply IH. destruct p as [x|x|msg]; try exact Hm. unfold ChatPage.onmessage.
  destruct (bool_decide (Some (msg_chat_id msg) = currentChatId)); [|exact Hm].
  destruct (existsb (fun existing => str_eqb (vm_id existing) (msg_id msg)) m) eqn:He;
    [exact Hm|].
  rewrite map_app. simpl.
  apply List.NoDup_app; [exact Hm|repeat constructor; simpl; tauto|].
  intros x Hx [<-|[]]. apply existsb_shown in Hx. congruence.
Qed.

(** X21.  A message that is part of the fetched history is not shown a
    second time when the socket delivers it as well. *)
Theorem fetched_message_not_repeated (token : jsstring) (currentChatId : option jsstring)
    (ms : list message) (msg : message) (m : list view_message) :
  truthy token = true ->
  In msg ms ->
  onmessage currentChatId (MessageEvent msg)
            (fetchMessagesFor token (ok (MessagesBody ms)) m)
  = map view_of ms.
Proof.
  intros Ht Hin. unfold ChatPage.fetchMessagesFor. rewrite Ht. cbn -[map].
  unfold ChatPage.onmessage.
  destruct (bool_decide (Some (msg_chat_id msg) = currentChatId)); [|reflexivity].
  assert (H : existsb (fun existing => str_eqb (vm_id existing) (msg_id msg))
                      (map view_of ms) = true).
  { apply existsb_shown. rewrite map_map. apply in_map_iff. exists msg. split; [reflexivity|exact Hin]. }
  rewrite H. reflexivity.
Qed.

End LiveMessages.

Section LiveMessagesExamples.
Import Hub ChatPage.

Definition clock (t : Z) : jsstring := String_Z t.

Definition greeting_event (n : N) (chat : jsstring) : message :=
  {| msg_id := String_N n; msg_chat_id := chat; msg_sender_id := js "1";
     msg_content := js "hi"; msg_created_at := Z.of_N n |}.

Lemma onmessage_keeps_ids_distinct_witness :
  List.NoDup
    (map vm_id
       (fold_left (fun m p => onmessage clock None (Some (js "chat_1_2")) p m)
                  [MessageEvent (greeting_event 1 (js "chat_1_2"));
                   MessageEvent (greeting_event 1 (js "chat_1_2"));
                   MessageEvent (greeting_event 2 (js "chat_1_2"))]
                  [])).
Proof.
  apply (onmessage_keeps_ids_distinct clock None). simpl. constructor.
Defined.

Lemma fetched_message_not_repeated_witness :
  onmessage clock None (Some (js "chat_1_2"))
            (MessageEvent (greeting_event 1 (js "chat_1_2")))
            (fetchMessagesFor clock None (js "token")
               (ok (MessagesBody [greeting_event 1 (js "chat_1_2")])) [])
  = map (view_of clock None) [greeting_event 1 (js "chat_1_2")].
Proof.
  apply (fetched_message_not_repeated clock None); [reflexivity|left; reflexivity].
Defined.

End LiveMessagesExamples.

Section ChatSwitch.
Import Hub ChatPage.
Local Arguments js : simpl never.

Lemma unsubscribe_subs h C X :
  subs (on_message h C (unsubscribe_frame X)) =
  if truthy X then
    match JsMap.get C (subs h) with
    | Some set => JsMap.set C (set ∖ {[X]}) (subs h)
    | None => subs h
    end
  else subs h.
Proof.
  rewrite on_message_subs. unfold unsubscribe_frame.
  destruct (truthy X); [|reflexivity].
  destruct (JsMap.get C (subs h)); [|reflexivity].
  assert (H1 : type_is "subscribe" (Some (js "unsubscribe")) = false).
  { unfold type_is, str_eqb. apply bool_decide_false. intros E. symmetry in E.
    revert E. apply subscribe_ne_unsubscribe. }
  assert (H2 : type_is "unsubscribe" (Some (js "unsubscribe")) = true).
  { unfold type_is. apply str_eqb_refl. }
  rewrite H1, H2. reflexivity.
Qed.

(** X22.  When the page moves from one chat to another, the frames it
    writes leave the server with the socket subscribed to the new chat and
    no longer to the previous one; every other subscription of the socket
    stays as it was. *)
Theorem chat_switch_moves_subscription
    (h : hub) (C : conn) (set : gset jsstring) (prev chatId : jsstring) :
  JsMap.get C (subs h) = Some set ->
  truthy prev = true ->
  truthy chatId = true ->
  JsMap.get C (subs (run h (map (Message C) (subscribeToChat (Some prev) chatId))))
  = Some ({[chatId]} ∪ (set ∖ {[prev]})).
Proof.
  intros Hget Hp Hc. unfold subscribeToChat. rewrite Hp. cbn [andb].
  unfold str_eqb. destruct (bool_decide_reflect (prev = chatId)) as [->|Hne];
    cbn [negb app map run fold_left step].
  - rewrite subscribe_subs, Hc, Hget, get_set_eq. f_equal.
    apply set_eq. intros x.
    rewrite !elem_of_union, elem_of_difference, !elem_of_singleton.
    destruct (decide (x = chatId)); tauto.
  - rewrite subscribe_subs, Hc, unsubscribe_subs, Hp, Hget, get_set_eq, get_set_eq.
    reflexivity.
Qed.

Lemma chat_switch_moves_subscription_witness :
  JsMap.get 0%nat
    (subs (run (run init [Connection 0%nat; Message 0%nat (subscribe_frame (js "chat_1_2"))])
               (map (Message 0%nat) (subscribeToChat (Some (js "chat_1_2")) (js "chat_1_3")))))
  = Some ({[js "chat_1_3"]} ∪ ({[js "chat_1_2"]} ∪ ∅) ∖ {[js "chat_1_2"]}).
Proof.
  apply (chat_switch_moves_subscription _ 0%nat ({[js "chat_1_2"]} ∪ ∅));
    vm_compute; reflexivity.
Defined.

End ChatSwitch.

(** ** The bearer token *)

Section BearerTokens.
Import Auth.

Definition one_line (s : jsstring) : bool :=
  forallb (fun c => negb (is_line_terminator c)) s.

Definition all_spaces (s : jsstring) : bool := forallb is_space s.

(** A token as [jsonwebtoken] writes it starts with a code unit that is
    no white space and holds no line terminator. *)
Definition token_like (t : jsstring) : bool :=
  match t with
  | [] => false
  | c :: _ => negb (is_space c) && one_line t
  end.

Lemma capture_token (t : jsstring) : token_like t = true -> capture t = Some t.
Proof.
  destruct t as [|c t]; [discriminate|]. unfold token_like, one_line, capture.
  intros H. apply andb_prop in H as [_ H]. rewrite H. reflexivity.
Qed.

Lemma spaces_star_token (ws t : jsstring) :
  all_spaces ws = true -> token_like t = true -> spaces_star (ws ++ t) = Some t.
Proof.
  intros Hws Ht. induction ws as [|c ws IH]; cbn [app spaces_star].
  - destruct t as [|c t]; [discriminate|]. cbn [spaces_star].
    pose proof Ht as Ht'. unfold token_like in Ht'. apply andb_prop in Ht' as [Hc _].
    apply negb_true_iff in Hc. rewrite Hc. apply capture_token, Ht.
  - simpl in Hws. apply andb_prop in Hws as [Hc Hws]. rewrite Hc, (IH Hws). reflexivity.
Qed.

Lemma literal_app (pat s rest : jsstring) :
  literal pat s = Some [] -> literal pat (s ++ rest) = Some rest.
Proof.
  revert s. induction pat as [|p pat IH]; intros [|c s]; simpl; try discriminate.
  - reflexivity.
  - destruct (canonicalize c =? canonicalize p); [apply IH|discriminate].
Qed.

(** X23.  A header made of the word Bearer in any mix of cases, at least
    one white-space character and then a token is matched, and the token,
    nothing more and nothing less, is what the middleware verifies. *)
Theorem bearer_extracts_token (scheme ws t : jsstring) :
  literal (js "Bearer") scheme = Some [] ->
  ws <> [] -> all_spaces ws = true ->
  token_like t = true ->
  bearer (scheme ++ ws ++ t) = Some t.
Proof.
  intros Hs Hne Hws Ht. unfold bearer. rewrite (literal_app _ _ _ Hs).
  destruct ws as [|c ws]; [contradiction|]. simpl in Hws |- *.
  apply andb_prop in Hws as [Hc Hws]. rewrite Hc. apply spaces_star_token; assumption.
Qed.

Lemma bearer_extracts_token_witness :
  bearer (js "bEARER" ++ [9; 32] ++ js "eyJhbGciOiJIUzI1NiJ9.e30.abc")
  = Some (js "eyJhbGciOiJIUzI1NiJ9.e30.abc").
Proof.
  apply (bearer_extracts_token (js "bEARER") [9; 32] (js "eyJhbGciOiJIUzI1NiJ9.e30.abc"));
    [reflexivity|discriminate|reflexivity|reflexivity].
Defined.

Lemma capture_Some (s t : jsstring) :
  capture s = Some t -> t = s /\ s <> [] /\ one_line s = true.
Proof.
  destruct s as [|c s]; [discriminate|]. unfold capture, one_line.
  destruct (forallb _ (c :: s)); [|discriminate].
  intros [= <-]. repeat split. discriminate.
Qed.

Lemma spaces_star_Some (s t : jsstring) :
  spaces_star s = Some t ->
  exists ws, s = ws ++ t /\ all_spaces ws = true /\ t <> [] /\ one_line t = true.
Proof.
  revert t. induction s as [|c s IH]; intros t; simpl; [discriminate|].
  assert (Hcap : capture (c :: s) = Some t ->
                 exists ws, c :: s = ws ++ t /\ all_spaces ws = true /\
                            t <> [] /\ one_line t = true).
  { intros Hc. apply capture_Some in Hc as (-> & Hne & Hl).
    exists []. repeat split; assumption. }
  destruct (is_space c) eqn:Hc; [|exact Hcap].
  destruct (spaces_star s) as [t'|] eqn:Hs; [|exact Hcap].
  intros [= <-]. destruct (IH t' eq_refl) as (ws & -> & Hws & Hne & Hl).
  exists (c :: ws). repeat split; try assumption. simpl. rewrite Hc. exact Hws.
Qed.

Lemma literal_Some (pat s rest : jsstring) :
  literal pat s = Some rest ->
  exists scheme, s = scheme ++ rest /\ literal pat scheme = Some [].
Proof.
  revert s. induction pat as [|p pat IH]; intros [|c s]; simpl; try discriminate.
  - intros [= <-]. exists []. split; reflexivity.
  - intros [= <-]. exists []. split; reflexivity.
  - destruct (canonicalize c =? canonicalize p) eqn:Hc; [|discriminate].
    intros H. destruct (IH _ H) as (scheme & -> & Hs).
    exists (c :: scheme). split; [reflexivity|]. simpl. rewrite Hc. exact Hs.
Qed.

Lemma auth_Next `{JwtVerify} (JWT_SECRET : jsstring)
    (authorization : option jsstring) (user : safe_user) :
  auth JWT_SECRET authorization = Next user ->
  exists scheme ws token,
    authorization = Some (scheme ++ ws ++ token) /\
    literal (js "Bearer") scheme = Some [] /\
    ws <> [] /\ all_spaces ws = true /\
    token <> [] /\ one_line token = true /\
    jwt_verify token JWT_SECRET = Some user.
Proof.
  unfold auth. destruct (bearer (or_else authorization [])) as [token|] eqn:Hb;
    [|discriminate].
  destruct (jwt_verify token JWT_SECRET) as [p|] eqn:Hv; [|discriminate].
  intros [= ->]. unfold bearer in Hb.
  destruct (literal (js "Bearer") (or_else authorization [])) as [rest|] eqn:Hl;
    [|discriminate].
  apply literal_Some in Hl as (scheme & Hh & Hs).
  unfold spaces_plus in Hb. destruct rest as [|c rest]; [discriminate|].
  destruct (is_space c) eqn:Hc; [|discriminate].
  apply spaces_star_Some in Hb as (ws & -> & Hws & Hne & Hone).
  exists scheme, (c :: ws), token.
  assert (Ha : authorization = Some (scheme ++ (c :: ws) ++ token)).
  { destruct authorization as [a|]; simpl in Hh.
    - destruct a as [|a0 a]; simpl in Hh; [|rewrite Hh; reflexivity].
      destruct scheme; discriminate.
    - destruct scheme; discriminate. }
  repeat split; try assumption; try discriminate.
  simpl. rewrite Hc. exact Hws.
Qed.

(** X24.  What the middleware does with a request, in full: it calls
    [next()] only with a payload that [jwt.verify] returned for a token
    that is not empty, holds no line terminator, and stands at the end of
    the header after the word Bearer and at least one white-space
    character; every other request is answered 401, with ["Missing token"]
    or ["Invalid token"]. *)
Theorem auth_passes_only_verified `{JwtVerify} (JWT_SECRET : jsstring)
    (authorization : option jsstring) :
  match auth JWT_SECRET authorization with
  | Next user =>
      exists scheme ws token,
        authorization = Some (scheme ++ ws ++ token) /\
        literal (js "Bearer") scheme = Some [] /\
        ws <> [] /\ all_spaces ws = true /\
        token <> [] /\ one_line token = true /\
        jwt_verify token JWT_SECRET = Some user
  | Answered r =>
      r = fail 401 "Missing token" \/ r = fail 401 "Invalid token"
  end.
Proof.
  destruct (auth JWT_SECRET authorization) as [r|user] eqn:Ha.
  - unfold auth in Ha. destruct (bearer (or_else authorization [])) as [token|].
    + destruct (jwt_verify token JWT_SECRET); [discriminate|].
      injection Ha as <-. right. reflexivity.
    + injection Ha as <-. left. reflexivity.
  - apply auth_Next, Ha.
Qed.

Definition demo_verify : JwtVerify :=
  {| jwt_verify := fun token secret =>
       match literal secret token with
       | Some (46 :: id) => Some {| su_id := id; su_username := []; su_email := None |}
       | _ => None
       end |}.

Lemma auth_passes_only_verified_witness :
  (exists scheme ws token,
     Some (js "Bearer s3.7") = Some (scheme ++ ws ++ token) /\
     literal (js "Bearer") scheme = Some [] /\
     ws <> [] /\ all_spaces ws = true /\
     token <> [] /\ one_line token = true /\
     @jwt_verify demo_verify token (js "s3")
     = Some {| su_id := js "7"; su_username := []; su_email := None |}) /\
  (fail 401 "Missing token" = fail 401 "Missing token" \/
   fail 401 "Missing token" = fail 401 "Invalid token").
Proof.
  split.
  - exact (@auth_passes_only_verified demo_verify (js "s3") (Some (js "Bearer s3.7"))).
  - exact (@auth_passes_only_verified demo_verify (js "s3") (Some (js "Basic s3.7"))).
Defined.

(** A token made of token characters (letters, digits and a few signs,
    among them [-], [.] and [_]), as a JWT is. *)
Definition token_chars (t : jsstring) : bool :=
  truthy t && forallb ApiFetch.is_tchar t.

(** A [headers] object of the caller that [fetch] accepts and that spells
    the authorization header, if it has one, as [apiFetch] does. *)
Definition header_ok (e : jsstring * jsstring) : Prop :=
  ApiFetch.valid_name (fst e) = true /\
  ApiFetch.valid_value (ApiFetch.normalize (snd e)) = true /\
  (map ApiFetch.byte_lowercase (fst e) = js "authorization" ->
   fst e = js "Authorization").

Definition caller_headers_ok (hs : list (jsstring * jsstring)) : Prop :=
  NoDup (JsMap.keys hs) /\ List.Forall header_ok hs.

Lemma tchar_range (c : N) : ApiFetch.is_tchar c = true -> 33 <= c <= 126.
Proof.
  unfold ApiFetch.is_tchar. rewrite !orb_true_iff, !andb_true_iff, !N.leb_le.
  intros [[[H|H]|H]|H]; try lia.
  apply existsb_exists in H as (x & Hx & Hc). apply N.eqb_eq in Hc. subst x.
  simpl in Hx. lia.
Qed.

Lemma tchar_plain (c : N) :
  ApiFetch.is_tchar c = true ->
  ApiFetch.is_http_whitespace c = false /\ is_space c = false /\
  is_line_terminator c = false /\
  (c <? 256) && negb ((c =? 0) || (c =? 10) || (c =? 13)) = true.
Proof.
  intros Hc. apply tchar_range in Hc.
  unfold ApiFetch.is_http_whitespace, is_space, is_line_terminator.
  repeat match goal with
         | |- context [?a =? ?b] => rewrite (proj2 (N.eqb_neq a b)) by lia
         end.
  replace (8192 <=? c) with false by (symmetry; apply N.leb_gt; lia).
  replace (c <? 256) with true by (symmetry; apply N.ltb_lt; lia).
  repeat split; reflexivity.
Qed.

Lemma token_chars_token_like (t : jsstring) : token_chars t = true -> token_like t = true.
Proof.
  unfold token_chars, token_like, one_line. destruct t as [|c t]; [discriminate|].
  cbn [truthy andb]. intros Hall.
  assert (Hline : forallb (fun c => negb (is_line_terminator c)) (c :: t) = true).
  { apply forallb_forall. intros x Hx. rewrite forallb_forall in Hall.
    destruct (tchar_plain x (Hall x Hx)) as (_ & _ & -> & _). reflexivity. }
  rewrite Hline. cbn [forallb] in Hall. apply andb_prop in Hall as [Hc _].
  destruct (tchar_plain c Hc) as (_ & -> & _). reflexivity.
Qed.

Lemma normalize_plain (c z : N) (v w : jsstring) :
  ApiFetch.is_http_whitespace c = false -> ApiFetch.is_http_whitespace z = false ->
  c :: v = w ++ [z] -> ApiFetch.normalize (c :: v) = c :: v.
Proof.
  intros Hc Hz E. unfold ApiFetch.normalize. cbn [ApiFetch.strip_leading]. rewrite Hc, E.
  rewrite rev_unit. cbn [ApiFetch.strip_leading]. rewrite Hz.
  cbn [rev]. rewrite rev_involutive. reflexivity.
Qed.

Lemma bearer_value_plain (token : jsstring) :
  token_chars token = true ->
  ApiFetch.normalize (js "Bearer " ++ token) = js "Bearer " ++ token /\
  ApiFetch.valid_value (js "Bearer " ++ token) = true.
Proof.
  intros Ht. unfold token_chars in Ht. apply andb_prop in Ht as [Hne Hall].
  assert (Hnil : token <> []) by (destruct token; [discriminate|congruence]).
  destruct (exists_last Hnil) as (w & z & ->).
  assert (Hz : ApiFetch.is_tchar z = true).
  { rewrite forallb_forall in Hall. apply Hall. apply in_or_app. right. left. reflexivity. }
  split.
  - apply (normalize_plain 66 z _ (js "Bearer " ++ w)); [reflexivity| |].
    + apply (tchar_plain z Hz).
    + rewrite <- app_assoc. reflexivity.
  - unfold ApiFetch.valid_value. rewrite forallb_app. apply andb_true_intro. split.
    + reflexivity.
    + apply forallb_forall. intros x Hx. rewrite forallb_forall in Hall.
      apply (tchar_plain x (Hall x Hx)).
Qed.

Lemma set_Forall {V} (Q : jsstring * V -> Prop) (k : jsstring) (v : V)
    (m : list (jsstring * V)) :
  List.Forall Q m -> Q (k, v) -> List.Forall Q (JsMap.set k v m).
Proof.
  intros Hm Hk. induction m as [|[k' v'] m IH]; cbn [JsMap.set].
  - constructor; [exact Hk|constructor].
  - inversion Hm as [|? ? Hhd Htl]; subst.
    destruct (decide (k = k')); constructor; auto.
Qed.

Lemma filter_none {A} (p : A -> bool) (l : list A) :
  (forall x, In x l -> p x = false) -> List.filter p l = [].
Proof.
  induction l as [|x l IH]; intros Hl; cbn [List.filter]; [reflexivity|].
  rewrite (Hl x (or_introl eq_refl)). apply IH. intros y Hy. apply Hl. right. exact Hy.
Qed.

Lemma filter_of_map {A B} (p : B -> bool) (g : A -> B) (l : list A) :
  List.filter p (map g l) = map g (List.filter (fun x => p (g x)) l).
Proof.
  induction l as [|x l IH]; cbn [map List.filter]; [reflexivity|].
  destruct (p (g x)); cbn [map]; rewrite IH; reflexivity.
Qed.

(** After [headers[k] = v], [k] is the one property whose name [q]
    accepts, when [q] accepted no other name before. *)
Lemma filter_set_single {V} (q : jsstring -> bool) (k : jsstring) (v : V)
    (m : list (jsstring * V)) :
  q k = true -> NoDup (JsMap.keys m) ->
  (forall e, In e m -> q (fst e) = true -> fst e = k) ->
  List.filter (fun e => q (fst e)) (JsMap.set k v m) = [(k, v)].
Proof.
  intros Hk. induction m as [|[k' v'] m IH]; cbn [JsMap.set]; intros Hnd Hq.
  - cbn [List.filter fst]. rewrite Hk. reflexivity.
  - unfold JsMap.keys in Hnd. cbn [map fst] in Hnd. apply NoDup_cons in Hnd as [Hnotin Hnd].
    destruct (decide (k = k')) as [<-|Hne].
    + cbn [List.filter fst]. rewrite Hk. f_equal. apply filter_none.
      intros e He. destruct (q (fst e)) eqn:Hqe; [|reflexivity].
      exfalso. apply Hnotin. rewrite <- (Hq e (or_intror He) Hqe).
      apply list_elem_of_In, in_map, He.
    + cbn [List.filter fst].
      destruct (q k') eqn:Hqk.
      * exfalso. apply Hne. symmetry. exact (Hq (k', v') (or_introl eq_refl) Hqk).
      * apply IH; [exact Hnd|]. intros e He. apply Hq. right. exact He.
Qed.

(** X25.  With a stored token made of token characters, and with caller
    headers that [fetch] accepts and that do not spell the authorization
    header in another way than [apiFetch] does, the request goes out and
    the middleware verifies that very token: the request passes exactly
    when [jwt.verify] accepts it. *)
Theorem auth_accepts_apiFetch_header `{JwtVerify} (JWT_SECRET : jsstring)
    (opts_headers : option (list (jsstring * jsstring))) (opts_body : option jsstring)
    (token : jsstring) :
  token_chars token = true ->
  caller_headers_ok (default [] opts_headers) ->
  exists sent,
    ApiFetch.header_list (ApiFetch.headers opts_headers opts_body (Some token)) = Some sent /\
    auth JWT_SECRET (ApiFetch.received (js "authorization") sent)
    = match jwt_verify token JWT_SECRET with
      | Some payload => Next payload
      | None => Answered (fail 401 "Invalid token")
      end.
Proof.
  intros Ht [Hnd Hok].
  assert (Htr : truthy token = true) by (apply andb_prop in Ht as [Ht _]; exact Ht).
  destruct (bearer_value_plain token Ht) as [Hnorm Hvalid].
  assert (Hb : bearer (js "Bearer " ++ token) = Some token).
  { unfold bearer.
    replace (literal (js "Bearer") (js "Bearer " ++ token)) with (Some ([32] ++ token))
      by (symmetry; exact (literal_app (js "Bearer") (js "Bearer") ([32] ++ token) eq_refl)).
    exact (spaces_star_token [] token eq_refl (token_chars_token_like token Ht)). }
  unfold ApiFetch.headers. cbn [falsy or_else]. rewrite Htr. cbn [negb].
  set (h0 := default [] opts_headers) in *.
  set (h1 := if negb (falsy opts_body) && falsy (JsMap.get (js "Content-Type") h0)
             then JsMap.set (js "Content-Type") (js "application/json") h0 else h0).
  assert (Hnd1 : NoDup (JsMap.keys h1)).
  { unfold h1. destruct (negb (falsy opts_body) && _); [apply NoDup_keys_set|]; exact Hnd. }
  assert (Hok1 : List.Forall header_ok h1).
  { unfold h1. destruct (negb (falsy opts_body) && _); [|exact Hok].
    apply set_Forall; [exact Hok|]. split; [reflexivity|]. split; [reflexivity|].
    cbn [fst]. intros E. vm_compute in E. discriminate. }
  set (v := js "Bearer " ++ token) in *.
  assert (Hok2 : List.Forall header_ok (JsMap.set (js "Authorization") v h1)).
  { apply set_Forall; [exact Hok1|]. split; [reflexivity|]. split.
    - cbn [snd]. rewrite Hnorm. exact Hvalid.
    - reflexivity. }
  exists (map (fun e => (map ApiFetch.byte_lowercase (fst e), ApiFetch.normalize (snd e)))
              (JsMap.set (js "Authorization") v h1)).
  split.
  - unfold ApiFetch.header_list.
    match goal with
    | |- (if ?c then _ else _) = _ => assert (Hall : c = true)
    end.
    { apply forallb_forall. intros e He. rewrite List.Forall_forall in Hok2.
      destruct (Hok2 e He) as (-> & -> & _). reflexivity. }
    rewrite Hall. reflexivity.
  - unfold ApiFetch.received. rewrite filter_of_map. cbn [fst].
    rewrite (filter_set_single
               (fun k => str_eqb (map ApiFetch.byte_lowercase k) (js "authorization"))).
    + cbn [map snd fold_left]. rewrite Hnorm. unfold auth. cbn [or_else].
      destruct (truthy v) eqn:Hv; [|discriminate]. rewrite Hb. reflexivity.
    + reflexivity.
    + exact Hnd1.
    + intros e He Hq. rewrite List.Forall_forall in Hok1.
      destruct (Hok1 e He) as (_ & _ & Hsp). apply Hsp, str_eqb_eq, Hq.
Qed.

Lemma auth_accepts_apiFetch_header_witness :
  exists sent,
    ApiFetch.header_list
      (ApiFetch.headers (Some [(js "Accept", js "application/json")]) (Some (js "{}"))
                        (Some (js "s3.7"))) = Some sent /\
    @auth demo_verify (js "s3") (ApiFetch.received (js "authorization") sent)
    = Next {| su_id := js "7"; su_username := []; su_email := None |}.
Proof.
  apply (@auth_accepts_apiFetch_header demo_verify (js "s3")
           (Some [(js "Accept", js "application/json")]) (Some (js "{}")) (js "s3.7")).
  - reflexivity.
  - split.
    + apply (bool_decide_unpack _). vm_compute. exact I.
    + constructor; [|constructor]. split; [reflexivity|]. split; [reflexivity|].
      cbn [fst]. intros E. vm_compute in E. discriminate.
Defined.

End BearerTokens.

(** ** Registration and login *)

Section AccountFacts.
Import Accounts.
Context `{BcryptHash} `{Bcrypt} `{Jwt}.
Local Arguments js : simpl never.

Lemma or_opt_None (a : option jsstring) :
  or_opt a None = match a with Some s => if truthy s then Some s else None | None => None end.
Proof. destruct a; reflexivity. Qed.

Lemma or_opt_truthy (a : option jsstring) (e : jsstring) :
  or_opt a None = Some e -> truthy e = true.
Proof.
  destruct a as [s|]; simpl; [|discriminate].
  destruct (truthy s) eqn:Hs; [|discriminate]. intros [= <-]. exact Hs.
Qed.

(** The rows of a table agree with its constraints. *)
Definition accounts_ok (t : users_table) : Prop :=
  List.NoDup (map Pg.u_id (Pg.users (db t))) /\
  List.NoDup (map Pg.u_username (Pg.users (db t))) /\
  (forall u v e, In u (Pg.users (db t)) -> In v (Pg.users (db t)) ->
                 Pg.u_email u = Some e -> Pg.u_email v = Some e -> u = v) /\
  (forall u, In u (Pg.users (db t)) -> Pg.u_id u <= users_seq t).

Lemma unique_violation_false (d : Pg.db) id username email :
  unique_violation d id username email = false ->
  forall u, In u (Pg.users d) ->
    Pg.u_id u <> id /\ Pg.u_username u <> username /\
    (forall e, email = Some e -> Pg.u_email u <> Some e).
Proof.
  unfold unique_violation. intros Hv u Hu.
  match type of Hv with
  | existsb ?f _ = false => assert (Hf : f u = false)
  end.
  { match goal with |- ?x = false => destruct x eqn:Hx; [|reflexivity] end.
    rewrite <- Hv. symmetry. apply existsb_exists. exists u. split; [exact Hu|exact Hx]. }
  simpl in Hf.
  apply orb_false_elim in Hf as [Hf He]. apply orb_false_elim in Hf as [Hi Hn].
  repeat split.
  - apply N.eqb_neq, Hi.
  - intros E. rewrite E, str_eqb_refl in Hn. discriminate.
  - intros e -> E. rewrite E, str_eqb_refl in He. discriminate.
Qed.

Lemma register_cases (JWT_SECRET salt : jsstring) (t : users_table) (b : register_body) :
  let id := users_seq t + 1 in
  let username := or_else (rb_username b) [] in
  let email := or_opt (rb_email b) None in
  (exists password,
     rb_password b = Some (Str password) /\ truthy password = true /\
     status (snd (register JWT_SECRET salt t b)) = 200 /\
     falsy (rb_username b) = false /\
     unique_violation (db t) id username email = false /\
     users_seq (fst (register JWT_SECRET salt t b)) = id /\
     Pg.users (db (fst (register JWT_SECRET salt t b))) =
       Pg.users (db t) ++
         [{| Pg.u_id := id; Pg.u_username := username; Pg.u_email := email;
             Pg.u_password_hash := bcrypt_hash password 10 salt |}] /\
     body (snd (register JWT_SECRET salt t b)) =
       AuthBody {| su_id := String_N id; su_username := username; su_email := email |}
                (jwt_sign {| su_id := String_N id; su_username := username;
                             su_email := email |} JWT_SECRET))
  \/
  (status (snd (register JWT_SECRET salt t b)) <> 200 /\
   db (fst (register JWT_SECRET salt t b)) = db t /\
   users_seq t <= users_seq (fst (register JWT_SECRET salt t b))).
Proof.
  intros id username email. unfold register.
  destruct (falsy (rb_username b)) eqn:Hu.
  { right. cbn. repeat split; [discriminate|lia]. }
  destruct (field_falsy (rb_password b)) eqn:Hp.
  { right. cbn. repeat split; [discriminate|lia]. }
  cbn [orb]. destruct (rb_password b) as [[password|other]|]; cbn [given bcrypt_hash_any].
  2,3: right; cbn; repeat split; [discriminate|lia].
  cbn [field_falsy] in Hp. apply negb_false_iff in Hp.
  unfold insert_user. fold id username email.
  destruct (unique_violation (db t) id username email) eqn:Hv.
  - right. cbn. repeat split; [discriminate|]. unfold id. lia.
  - left. exists password.
    cbn [fst snd status body ok db users_seq Pg.users Pg.u_id Pg.u_username Pg.u_email].
    repeat split; try assumption.
    f_equal; [f_equal|f_equal; f_equal];
      unfold email; rewrite or_opt_None; destruct (rb_email b) as [e|]; try reflexivity;
      simpl; destruct (truthy e) eqn:He; simpl; rewrite ?He; reflexivity.
Qed.

(** X26.  Registration keeps the accounts apart: after any request, no
    two rows share an id or a username, no two rows share an email, and no
    id is ahead of the sequence. *)
Theorem register_keeps_accounts_distinct
    (JWT_SECRET salt : jsstring) (t : users_table) (b : register_body) :
  accounts_ok t -> accounts_ok (fst (register JWT_SECRET salt t b)).
Proof.
  intros (Hid & Hname & Hmail & Hseq).
  destruct (register_cases JWT_SECRET salt t b)
    as [(pw & _ & _ & _ & _ & Hv & Hs & Hrows & _)|(_ & Hdb & Hs)].
  - pose proof (unique_violation_false _ _ _ _ Hv) as Hfresh.
    unfold accounts_ok. rewrite Hrows, Hs, !map_app. cbn [map Pg.u_id Pg.u_username].
    split; [|split; [|split]].
    + apply List.NoDup_app; [exact Hid|repeat constructor; simpl; tauto|].
      intros x Hx [<-|[]]. apply in_map_iff in Hx as (u & Hux & Hu).
      destruct (Hfresh u Hu) as (Hne & _). contradiction.
    + apply List.NoDup_app; [exact Hname|repeat constructor; simpl; tauto|].
      intros x Hx [<-|[]]. apply in_map_iff in Hx as (u & Hux & Hu).
      destruct (Hfresh u Hu) as (_ & Hne & _). contradiction.
    + intros u v e Hu Hv' Eu Ev.
      apply in_app_or in Hu as [Hu|[<-|[]]]; apply in_app_or in Hv' as [Hv'|[<-|[]]].
      * exact (Hmail u v e Hu Hv' Eu Ev).
      * exfalso. cbn [Pg.u_email] in Ev. destruct (Hfresh u Hu) as (_ & _ & Hne).
        exact (Hne e Ev Eu).
      * exfalso. cbn [Pg.u_email] in Eu. destruct (Hfresh v Hv') as (_ & _ & Hne).
        exact (Hne e Eu Ev).
      * reflexivity.
    + intros u Hu. apply in_app_or in Hu as [Hu|[<-|[]]].
      * specialize (Hseq u Hu). lia.
      * cbn [Pg.u_id]. lia.
  - unfold accounts_ok. rewrite Hdb. repeat split; try assumption.
    intros u Hu. specialize (Hseq u Hu). lia.
Qed.



(** X29.  Neither server's login hands out a token unless an account
    matches the identifier and the password check accepts the password
    against that account's stored hash; the account in the answer is that
    one. *)
Theorem login_needs_password_match (JWT_SECRET : jsstring) (pg : Pg.db) (mongo : Mongo.db)
    (b : Pg.login_body) :
  (status (Pg.login JWT_SECRET pg b) = 200 ->
   exists user identifier password,
     or_opt (Pg.lb_usernameOrEmail b) (Pg.lb_username b) = Some identifier /\
     Pg.lb_password b = Some (Str password) /\
     Pg.find_user pg identifier = Some user /\
     bcrypt_compare password (Pg.u_password_hash user) = true /\
     exists token,
       body (Pg.login JWT_SECRET pg b) =
       AuthBody {| su_id := String_N (Pg.u_id user); su_username := Pg.u_username user;
                   su_email := Pg.u_email user |} token) /\
  (status (mongo_login JWT_SECRET mongo b) = 200 ->
   exists user identifier password,
     or_opt (Pg.lb_usernameOrEmail b) (Pg.lb_username b) = Some identifier /\
     Pg.lb_password b = Some (Str password) /\
     Mongo.find_user mongo identifier = Some user /\
     bcrypt_compare password (Mongo.u_password_hash user) = true /\
     exists token,
       body (mongo_login JWT_SECRET mongo b) =
       AuthBody {| su_id := Mongo.u_id user; su_username := Mongo.u_username user;
                   su_email := Mongo.u_email user |} token).
Proof.
  split.
  - unfold Pg.login.
    destruct (or_opt (Pg.lb_usernameOrEmail b) (Pg.lb_username b)) as [i|] eqn:Hi;
      [|discriminate].
    destruct (Pg.lb_password b) as [[p|other]|] eqn:Hpw;
      cbn [falsy field_falsy or_else given bcrypt_compare_any];
      [|destruct (truthy i), other; cbn [negb orb];
        try discriminate; destruct (Pg.find_user pg i); discriminate
       |rewrite orb_true_r; discriminate].
    destruct (truthy i) eqn:Hti; [|discriminate].
    destruct (truthy p) eqn:Htp; [|discriminate]. cbn [negb orb].
    destruct (Pg.find_user pg i) as [user|] eqn:Hf; [|discriminate].
    destruct (bcrypt_compare p (Pg.u_password_hash user)) eqn:Hb; [|discriminate].
    intros _. exists user, i, p. repeat split; try assumption. eexists. reflexivity.
  - unfold mongo_login.
    destruct (or_opt (Pg.lb_usernameOrEmail b) (Pg.lb_username b)) as [i|] eqn:Hi;
      [|discriminate].
    destruct (Pg.lb_password b) as [[p|other]|] eqn:Hpw;
      cbn [falsy field_falsy or_else given bcrypt_compare_any];
      [|destruct (truthy i), other; cbn [negb orb];
        try discriminate; destruct (Mongo.find_user mongo i); discriminate
       |rewrite orb_true_r; discriminate].
    destruct (truthy i) eqn:Hti; [|discriminate].
    destruct (truthy p) eqn:Htp; [|discriminate]. cbn [negb orb].
    destruct (Mongo.find_user mongo i) as [user|] eqn:Hf; [|discriminate].
    destruct (bcrypt_compare p (Mongo.u_password_hash user)) eqn:Hb; [|discriminate].
    intros _. exists user, i, p. repeat split; try assumption. eexists. reflexivity.
Qed.

End AccountFacts.

Section AccountExamples.
Import Accounts.

Definition demo_hash : BcryptHash :=
  {| bcrypt_hash := fun password rounds salt => js "$2a$10$" ++ password |}.

Definition no_accounts : users_table := {| db := empty_pg; users_seq := 0 |}.

Definition two_accounts : users_table := {| db := two_users; users_seq := 2 |}.

Definition carol_registers : register_body :=
  {| rb_username := Some (js "carol"); rb_email := Some [];
     rb_password := Some (Str (js "s3cret")) |}.


Definition alice_logs_in : Pg.login_body :=
  {| Pg.lb_usernameOrEmail := None; Pg.lb_username := Some (js "alice");
     Pg.lb_password := Some (Str (js "wonderland")) |}.

Definition two_docs_with_hash : Mongo.db :=
  {| Mongo.users :=
       [{| Mongo.u_id := js "65b000000000000000000001"; Mongo.u_username := js "alice";
           Mongo.u_email := None; Mongo.u_password_hash := js "$2a$10$wonderland" |}];
     Mongo.messages := []; Mongo.friends := [] |}.

Lemma register_keeps_accounts_distinct_witness :
  accounts_ok
    (fst (@register demo_hash demo_jwt (js "dev_jwt_secret") (js "salt")
                    two_accounts carol_registers)).
Proof.
  apply (@register_keeps_accounts_distinct demo_hash demo_jwt).
  unfold accounts_ok. simpl. split; [|split; [|split]].
  - repeat constructor; simpl; intuition discriminate.
  - repeat constructor; simpl; intuition discriminate.
  - intros u v e [<-|[<-|[]]] [<-|[<-|[]]]; simpl; congruence.
  - intros u [<-|[<-|[]]]; simpl; lia.
Defined.



Lemma login_needs_password_match_witness :
  (exists user identifier password,
     or_opt (Pg.lb_usernameOrEmail alice_logs_in) (Pg.lb_username alice_logs_in)
       = Some identifier /\
     Pg.lb_password alice_logs_in = Some (Str password) /\
     Pg.find_user two_users identifier = Some user /\
     @bcrypt_compare demo_bcrypt password (Pg.u_password_hash user) = true /\
     exists token,
       body (@Pg.login demo_bcrypt demo_jwt (js "dev_jwt_secret") two_users alice_logs_in) =
       AuthBody {| su_id := String_N (Pg.u_id user); su_username := Pg.u_username user;
                   su_email := Pg.u_email user |} token) /\
  (exists user identifier password,
     or_opt (Pg.lb_usernameOrEmail alice_logs_in) (Pg.lb_username alice_logs_in)
       = Some identifier /\
     Pg.lb_password alice_logs_in = Some (Str password) /\
     Mongo.find_user two_docs_with_hash identifier = Some user /\
     @bcrypt_compare demo_bcrypt password (Mongo.u_password_hash user) = true /\
     exists token,
       body (@mongo_login demo_bcrypt demo_jwt (js "dev_jwt_secret") two_docs_with_hash
                          alice_logs_in) =
       AuthBody {| su_id := Mongo.u_id user; su_username := Mongo.u_username user;
                   su_email := Mongo.u_email user |} token).
Proof.
  destruct (@login_needs_password_match demo_bcrypt demo_jwt (js "dev_jwt_secret")
              two_users two_docs_with_hash alice_logs_in) as [Hpg Hmongo].
  split; [apply Hpg|apply Hmongo]; reflexivity.
Defined.

End AccountExamples.
